(** * Transition reconstruction of [src/transitions.py]

    A shallow embedding of [JiraAPI.get_transitions]: the issue records
    handed over by the fetcher, the per-key event lists the method builds,
    and the duration back-fill that runs over each list. *)

From Stdlib Require Import ZArith QArith Qabs Qpower Ascii String List Sorted Lia Lqa.
From stdpp Require Import base option list gmap strings fin_maps.

Local Open Scope Z_scope.

(** ** Data model *)

(** A timezone-aware [datetime]: the instant it denotes, in microseconds of
    UTC, and its UTC offset, in microseconds.  Ordering and subtraction of
    aware datetimes go through the instant. *)
Record datetime := mk_datetime { instant : Z; utcoffset : Z }.

(** One element of [change["items"]]. *)
Record FieldChange := mk_item {
  field : string;
  fromString : string;
  toString : string
}.

(** One element of [changelog["histories"]].  [change_author] is
    [change["author"]["displayName"]]; [None] stands for an absent key. *)
Record ChangelogEntry := mk_change {
  change_author : option string;
  change_created : string;
  items : list FieldChange
}.

(** An issue as returned by the search endpoint.  [creator] is
    [issue["fields"]["creator"]["displayName"]]; [None] stands for an absent
    key. *)
Record IssueRecord := mk_issue {
  key : string;
  creator : option string;
  created : string;
  histories : list ChangelogEntry
}.

(** The dictionaries appended to [results[key]].  The ["duration"] key is
    absent until the back-fill sets it.  The float of days is modelled by the
    rational that the float denotes. *)
Record TransitionEvent := mk_event {
  author : string;
  timestamp : datetime;
  step : Z;
  ev_from : string;
  ev_to : string;
  duration : option Q
}.

(** Exceptions the method can let escape. *)
Inductive exn :=
| KeyError (k : string)
| ValueError (s : string)
| TypeError.

(** ** The error monad *)

Definition res (A : Type) : Type := exn + A.

Definition ret {A} (a : A) : res A := inr a.
Definition raise {A} (e : exn) : res A := inl e.
Definition bind {A B} (m : res A) (k : A -> res B) : res B :=
  match m with
  | inl e => inl e
  | inr a => k a
  end.

Notation "'do' x <- m ; k" := (bind m (fun x => k))
  (at level 10, x pattern, m at level 100, k at level 200).

(** [for x in xs: st = body x st], stopping at the first exception. *)
Fixpoint for_each {A S} (body : A -> S -> res S) (xs : list A) (st : S) : res S :=
  match xs with
  | [] => ret st
  | x :: xs' => do st' <- body x st; for_each body xs' st'
  end.

(** ** Dates and durations *)

(** [a > b] on aware datetimes. *)
Definition dt_gtb (a b : datetime) : bool := instant b <? instant a.

(** [a - b] on aware datetimes: a [timedelta], in microseconds. *)
Definition dt_sub (a b : datetime) : Z := instant a - instant b.

(** *** Floats

    A finite Python float is modelled by the rational it denotes.
    [binary64 q] is the number with 53 significant bits nearest to [q], ties
    to even: what a correctly rounded division returns when [q] is its exact
    quotient.  The exponent is left unbounded; the quotients met here, zero
    or between 1e-11 and 1e14 (a difference of two datetimes in seconds or in
    days), lie far inside the range of the normal binary64 numbers, where
    the two agree. *)

(** The integer nearest to [x], ties to even. *)
Definition round_half_even (x : Q) : Z :=
  let n := Qnum x in
  let d := Zpos (Qden x) in
  let q := n / d in
  match 2 * (n mod d) ?= d with
  | Lt => q
  | Gt => q + 1
  | Eq => if Z.even q then q else q + 1
  end.

(** [floor (log2 q)] for a positive [q]. *)
Definition floor_log2 (q : Q) : Z :=
  let k := Z.log2 (Qnum q) - Z.log2 (Zpos (Qden q)) in
  if Qle_bool (2 ^ k) q then k else k - 1.

(** A positive [q] to 53 significant bits. *)
Definition binary64_pos (q : Q) : Q :=
  let e := floor_log2 q - 52 in
  (inject_Z (round_half_even (q / 2 ^ e)) * 2 ^ e)%Q.

Definition binary64 (q : Q) : Q :=
  match Qnum q with
  | 0 => 0%Q
  | Zpos _ => binary64_pos q
  | Zneg _ => (- binary64_pos (- q))%Q
  end.

(** [td.total_seconds() / (24 * 3600)]: [total_seconds] divides the
    microseconds of [td] by [10**6], an integer division that Python rounds
    correctly to a float; the float is then divided by the integer 86400. *)
Definition total_days (td : Z) : Q :=
  binary64 (binary64 (inject_Z td / inject_Z 1000000) / inject_Z (24 * 3600)).

(** ** The duration back-fill (lines 120-132) *)

Definition set_duration (d : Q) (e : TransitionEvent) : TransitionEvent :=
  {| author := author e; timestamp := timestamp e; step := step e;
     ev_from := ev_from e; ev_to := ev_to e; duration := Some d |}.

(** The test of line 126. *)
Definition precedes (previous_state : string) (step_count : Z)
    (inner_step : TransitionEvent) : bool :=
  String.eqb (ev_to inner_step) previous_state && (step inner_step + 1 =? step_count).

(** Lines 127-131. *)
Definition elapsed (current_timestamp previous_timestamp : datetime) : Z :=
  if dt_gtb current_timestamp previous_timestamp
  then dt_sub current_timestamp previous_timestamp
  else 0.

(** One round of the inner loop: [inner_step] is the [j]-th dictionary of the
    list as it stands, and the dictionary at index [i] (the outer [step]) is
    the one written to. *)
Definition backfill_inner (previous_state : string) (current_timestamp : datetime)
    (step_count : Z) (i : nat) (l : list TransitionEvent) (j : nat)
    : list TransitionEvent :=
  match l !! j with
  | Some inner_step =>
      if precedes previous_state step_count inner_step
      then alter (set_duration
                    (total_days (elapsed current_timestamp (timestamp inner_step)))) i l
      else l
  | None => l
  end.

(** One round of the outer loop, at index [i]. *)
Definition backfill_outer (l : list TransitionEvent) (i : nat) : list TransitionEvent :=
  match l !! i with
  | Some s =>
      foldl (backfill_inner (ev_from s) (timestamp s) (step s) i) l
            (seq 0 (length l))
  | None => l
  end.

Definition backfill (l : list TransitionEvent) : list TransitionEvent :=
  foldl backfill_outer l (seq 0 (length l)).

(** ** [get_transitions] *)

Section GetTransitions.

(** [datetime.strptime(s, '%Y-%m-%dT%H:%M:%S.%f%z')]; [None] is the
    [ValueError] of a string that does not match the format. *)
Variable strptime : string -> option datetime.

Definition parse_timestamp (s : string) : res datetime :=
  match strptime s with
  | Some t => ret t
  | None => raise (ValueError s)
  end.

(** [d["displayName"]]. *)
Definition displayName (d : option string) : res string :=
  match d with
  | Some n => ret n
  | None => raise (KeyError "displayName")
  end.

(** [results[key].append(ev)]. *)
Definition append_event (k : string) (ev : TransitionEvent)
    (results : gmap string (list TransitionEvent))
    : res (gmap string (list TransitionEvent)) :=
  match results !! k with
  | Some l => ret (<[k := l ++ [ev]]> results)
  | None => raise (KeyError k)
  end.

(** Lines 107-118, for one element of [change["items"]].  The state is the
    running [step] counter and the result mapping. *)
Definition items_body (k : string) (change : ChangelogEntry) (it : FieldChange)
    (st : Z * gmap string (list TransitionEvent))
    : res (Z * gmap string (list TransitionEvent)) :=
  let '(n, results) := st in
  if String.eqb (field it) "status" then
    do a <- displayName (change_author change);
    do t <- parse_timestamp (change_created change);
    do results' <- append_event k
        {| author := a; timestamp := t; step := n;
           ev_from := fromString it; ev_to := toString it; duration := None |}
        results;
    ret (n + 1, results')
  else ret st.

(** Lines 106-118, for one element of [changelog["histories"]]. *)
Definition histories_body (k : string) (change : ChangelogEntry)
    (st : Z * gmap string (list TransitionEvent))
    : res (Z * gmap string (list TransitionEvent)) :=
  for_each (items_body k change) (items change) st.

(** Lines 120-132: the back-fill runs over the whole of [results[key]]. *)
Definition backfill_key (k : string) (results : gmap string (list TransitionEvent))
    : res (gmap string (list TransitionEvent)) :=
  match results !! k with
  | Some l => ret (<[k := backfill l]> results)
  | None => raise (KeyError k)
  end.

(** The body of the loop over [issues] (lines 91-132). *)
Definition issue_body (first_step : string) (issue : IssueRecord)
    (results : gmap string (list TransitionEvent))
    : res (gmap string (list TransitionEvent)) :=
  let k := key issue in
  let results :=
    match results !! k with
    | None => <[k := []]> results
    | Some _ => results
    end in
  do a <- displayName (creator issue);
  do t <- parse_timestamp (created issue);
  do results <- append_event k
      {| author := a; timestamp := t; step := 0;
         ev_from := "Create"; ev_to := first_step; duration := None |}
      results;
  do st <- for_each (histories_body k) (histories issue) (1, results);
  backfill_key k (snd st).

Definition get_transitions (issues : list IssueRecord) (first_step : string)
    : res (gmap string (list TransitionEvent)) :=
  for_each (issue_body first_step) issues ∅.

End GetTransitions.

(** ** A reference parser for the closed examples

    Every theorem below holds for any [strptime].  The closed examples need
    one to run: this parser reads the zero-padded shape of the format, the
    one the Jira API emits ([2024-01-02T03:04:05.678+0000]), with the range
    checks of the [datetime] constructor, and rejects every other string. *)

Module RefParser.

Definition digit (c : ascii) : option Z :=
  let n := Z.of_nat (nat_of_ascii c) in
  if (48 <=? n) && (n <=? 57) then Some (n - 48) else None.

(** Exactly [n] decimal digits. *)
Fixpoint digits (n : nat) (acc : Z) (s : list ascii) : option (Z * list ascii) :=
  match n with
  | O => Some (acc, s)
  | S n' =>
      match s with
      | c :: s' => d ← digit c; digits n' (10 * acc + d) s'
      | [] => None
      end
  end.

(** [%f]: one to six digits, read as a fraction of a second. *)
Fixpoint fraction (n : nat) (scale acc : Z) (s : list ascii) : Z * list ascii :=
  match n with
  | O => (acc * scale, s)
  | S n' =>
      match s with
      | c :: s' =>
          match digit c with
          | Some d => fraction n' (scale / 10) (10 * acc + d) s'
          | None => (acc * scale, s)
          end
      | [] => (acc * scale, s)
      end
  end.

Definition expect (c : ascii) (s : list ascii) : option (list ascii) :=
  match s with
  | c' :: s' => if Ascii.eqb c c' then Some s' else None
  | [] => None
  end.

Definition sign (s : list ascii) : option (Z * list ascii) :=
  match s with
  | c :: s' =>
      if Ascii.eqb c "+" then Some (1, s')
      else if Ascii.eqb c "-" then Some (-1, s')
      else None
  | [] => None
  end.

Definition is_leap (y : Z) : bool :=
  ((y mod 4 =? 0) && negb (y mod 100 =? 0)) || (y mod 400 =? 0).

Definition days_in_month (y m : Z) : Z :=
  if m =? 2 then (if is_leap y then 29 else 28)
  else if (m =? 4) || (m =? 6) || (m =? 9) || (m =? 11) then 30
  else 31.

(** Days from 1970-01-01 to the given civil date. *)
Definition days_from_civil (y m d : Z) : Z :=
  let y' := if m <=? 2 then y - 1 else y in
  let era := y' / 400 in
  let yoe := y' - era * 400 in
  let mp := if 2 <? m then m - 3 else m + 9 in
  let doy := (153 * mp + 2) / 5 + d - 1 in
  let doe := yoe * 365 + yoe / 4 - yoe / 100 + doy in
  era * 146097 + doe - 719468.

Definition guard (b : bool) : option unit := if b then Some tt else None.

Definition strptime (str : string) : option datetime :=
  let s0 := list_ascii_of_string str in
  '(yr, s) ← digits 4 0 s0;
  s ← expect "-" s;
  '(mo, s) ← digits 2 0 s;
  s ← expect "-" s;
  '(dy, s) ← digits 2 0 s;
  s ← expect "T" s;
  '(hh, s) ← digits 2 0 s;
  s ← expect ":" s;
  '(mi, s) ← digits 2 0 s;
  s ← expect ":" s;
  '(ss, s) ← digits 2 0 s;
  s ← expect "." s;
  '(_, s1) ← digits 1 0 s;
  let '(f, s) := fraction 6 1000000 0 s in
  '(sg, s) ← sign s;
  '(zh, s) ← digits 2 0 s;
  '(zm, s) ← digits 2 0 s;
  _ ← guard (match s with [] => true | _ => false end);
  _ ← guard ((1 <=? yr) && (1 <=? mo) && (mo <=? 12) && (1 <=? dy)
             && (dy <=? days_in_month yr mo) && (hh <=? 23) && (mi <=? 59)
             && (ss <=? 59) && (zh <=? 23) && (zm <=? 59));
  let offset := sg * (zh * 3600 + zm * 60) * 1000000 in
  let wall := ((days_from_civil yr mo dy * 24 + hh) * 60 + mi) * 60 + ss in
  Some {| instant := wall * 1000000 + f - offset; utcoffset := offset |}.

End RefParser.

(** ** The method over a store of mutable objects

    The same method, statement by statement, over the objects Python hands
    it: dictionaries and lists live in a store and are reached through
    references, so that a write through one reference is seen through every
    other one.  Operations on values the method is not written for raise
    [TypeError]. *)

Module Heap.

Abbreviation loc := nat (only parsing).

Inductive value :=
| VNone
| VInt (z : Z)
| VStr (s : string)
| VDatetime (t : datetime)
| VFloat (q : Q)
| VRef (l : loc).

Inductive object :=
| ODict (d : gmap string value)
| OList (vs : list value).

(** Objects are never freed: an address is an index into the store. *)
Abbreviation heap := (list object) (only parsing).

(** A computation runs on the store and returns a value or raises; in both
    cases the store keeps what was written. *)
Definition M (A : Type) : Type := heap -> heap * res A.

Definition mret {A} (a : A) : M A := fun h => (h, inr a).
Definition mraise {A} (e : exn) : M A := fun h => (h, inl e).
Definition mbind {A B} (m : M A) (k : A -> M B) : M B :=
  fun h =>
    match m h with
    | (h', inr a) => k a h'
    | (h', inl e) => (h', inl e)
    end.

Notation "'let*' x := m 'in' k" := (mbind m (fun x => k))
  (at level 10, x pattern, m at level 100, k at level 200).

(** A new object: [{...}] or [[]]. *)
Definition alloc (o : object) : M value :=
  fun h => (h ++ [o], inr (VRef (length h))).

Definition deref (v : value) : M object :=
  fun h =>
    match v with
    | VRef l =>
        match h !! l with
        | Some o => (h, inr o)
        | None => (h, inl TypeError)
        end
    | _ => (h, inl TypeError)
    end.

(** [v[k]] on a dictionary. *)
Definition getitem (v : value) (k : string) : M value :=
  let* o := deref v in
  match o with
  | ODict d =>
      match d !! k with
      | Some x => mret x
      | None => mraise (KeyError k)
      end
  | OList _ => mraise TypeError
  end.

(** [k in v] on a dictionary. *)
Definition contains (v : value) (k : string) : M bool :=
  let* o := deref v in
  match o with
  | ODict d => mret (bool_decide (is_Some (d !! k)))
  | OList _ => mraise TypeError
  end.

(** [v[k] = x] on a dictionary. *)
Definition setitem (v : value) (k : string) (x : value) : M unit :=
  fun h =>
    match v with
    | VRef l =>
        match h !! l with
        | Some (ODict d) => (<[l := ODict (<[k := x]> d)]> h, inr tt)
        | _ => (h, inl TypeError)
        end
    | _ => (h, inl TypeError)
    end.

(** [v.append(x)] on a list. *)
Definition append (v : value) (x : value) : M unit :=
  fun h =>
    match v with
    | VRef l =>
        match h !! l with
        | Some (OList vs) => (<[l := OList (vs ++ [x])]> h, inr tt)
        | _ => (h, inl TypeError)
        end
    | _ => (h, inl TypeError)
    end.

(** The elements a [for] loop over the list [v] visits.  No loop of the
    method appends to the list it runs over. *)
Definition elements (v : value) : M (list value) :=
  let* o := deref v in
  match o with
  | OList vs => mret vs
  | ODict _ => mraise TypeError
  end.

(** A dictionary key: the issue keys are strings. *)
Definition as_key (v : value) : M string :=
  match v with
  | VStr s => mret s
  | _ => mraise TypeError
  end.

(** [a == b] on the values the method compares. *)
Definition py_eq (a b : value) : M bool :=
  match a, b with
  | VStr s, VStr s' => mret (String.eqb s s')
  | VInt z, VInt z' => mret (z =? z')
  | VNone, VNone => mret true
  | VRef _, _ | _, VRef _ | VFloat _, _ | _, VFloat _
  | VDatetime _, _ | _, VDatetime _ => mraise TypeError
  | _, _ => mret false
  end.

(** [a + 1]. *)
Definition py_succ (a : value) : M value :=
  match a with
  | VInt z => mret (VInt (z + 1))
  | _ => mraise TypeError
  end.

(** [for x in xs: body], the loop variable aside. *)
Fixpoint for_ {A} (xs : list A) (body : A -> M unit) : M unit :=
  match xs with
  | [] => mret tt
  | x :: xs' => let* _ := body x in for_ xs' body
  end.

(** A loop that carries a local variable. *)
Fixpoint for_with {A S} (xs : list A) (body : A -> S -> M S) (st : S) : M S :=
  match xs with
  | [] => mret st
  | x :: xs' => let* st' := body x st in for_with xs' body st'
  end.

Section Method.

Variable strptime : string -> option datetime.

(** [datetime.strptime(v, '%Y-%m-%dT%H:%M:%S.%f%z')]. *)
Definition py_strptime (v : value) : M value :=
  match v with
  | VStr s =>
      match strptime s with
      | Some t => mret (VDatetime t)
      | None => mraise (ValueError s)
      end
  | _ => mraise TypeError
  end.

(** Lines 128-132: the number stored under ["duration"]. *)
Definition py_duration (current_timestamp previous_timestamp : value) : M value :=
  match current_timestamp, previous_timestamp with
  | VDatetime c, VDatetime p => mret (VFloat (total_days (elapsed c p)))
  | _, _ => mraise TypeError
  end.

(** The dictionary literal of lines 96-102 and 110-116. *)
Definition event_literal (a t n f d : value) : object :=
  ODict (<["to" := d]> (<["from" := f]> (<["step" := n]>
          (<["timestamp" := t]> (<["author" := a]> ∅))))).

(** Lines 108-118. *)
Definition items_body (results key change : value) (items : value) (step : Z)
    : M Z :=
  let* fld := getitem items "field" in
  let* is_status := py_eq fld (VStr "status") in
  if is_status then
    let* k := as_key key in
    let* lst := getitem results k in
    let* author := getitem change "author" in
    let* a := getitem author "displayName" in
    let* created := getitem change "created" in
    let* t := py_strptime created in
    let* f := getitem items "fromString" in
    let* d := getitem items "toString" in
    let* ev := alloc (event_literal a t (VInt step) f d) in
    let* _ := append lst ev in
    mret (step + 1)
  else mret step.

(** Lines 107-118. *)
Definition histories_body (results key : value) (change : value) (step : Z)
    : M Z :=
  let* its := getitem change "items" in
  let* its := elements its in
  for_with its (items_body results key change) step.

(** Lines 126-132. *)
Definition inner_body (step previous_state current_timestamp step_count : value)
    (inner_step : value) : M unit :=
  let* d := getitem inner_step "to" in
  let* same := py_eq d previous_state in
  if same then
    let* n := getitem inner_step "step" in
    let* n1 := py_succ n in
    let* next := py_eq n1 step_count in
    if next then
      let* previous_timestamp := getitem inner_step "timestamp" in
      let* days := py_duration current_timestamp previous_timestamp in
      setitem step "duration" days
    else mret tt
  else mret tt.

(** Lines 121-132. *)
Definition outer_body (results key : value) (step : value) : M unit :=
  let* previous_state := getitem step "from" in
  let* current_timestamp := getitem step "timestamp" in
  let* step_count := getitem step "step" in
  let* k := as_key key in
  let* lst := getitem results k in
  let* evs := elements lst in
  for_ evs (inner_body step previous_state current_timestamp step_count).

(** Lines 91-132. *)
Definition issue_body (results first_step : value) (issue : value) : M unit :=
  let* key := getitem issue "key" in
  let* k := as_key key in
  let* present := contains results k in
  let* _ := (if present then mret tt
             else let* fresh := alloc (OList []) in setitem results k fresh) in
  let* lst := getitem results k in
  let* fields := getitem issue "fields" in
  let* creator := getitem fields "creator" in
  let* a := getitem creator "displayName" in
  let* fields := getitem issue "fields" in
  let* created := getitem fields "created" in
  let* t := py_strptime created in
  let* ev := alloc (event_literal a t (VInt 0) (VStr "Create") first_step) in
  let* _ := append lst ev in
  let* changelog := getitem issue "changelog" in
  let* hs := getitem changelog "histories" in
  let* hs := elements hs in
  let* _ := for_with hs (histories_body results key) 1 in
  let* lst := getitem results k in
  let* evs := elements lst in
  for_ evs (outer_body results key).

(** [JiraAPI.get_transitions(self, issues, first_step)]. *)
Definition get_transitions (self issues first_step : value) : M value :=
  let* results := alloc (ODict ∅) in
  let* its := elements issues in
  let* _ := for_ its (issue_body results first_step) in
  mret results.

End Method.

End Heap.

(** ** Notions used to state the results *)

(** The event the inner loop settles on: no [break] leaves the scan, so the
    last event of the list that passes the test of line 126 wins. *)
Definition predecessor (l : list TransitionEvent) (e : TransitionEvent)
    : option TransitionEvent :=
  last (List.filter (precedes (ev_from e) (step e)) l).

(** What the outer loop leaves of [e] after its scan of [l]. *)
Definition fill (l : list TransitionEvent) (e : TransitionEvent) : TransitionEvent :=
  match predecessor l e with
  | Some p => set_duration (total_days (elapsed (timestamp e) (timestamp p))) e
  | None => e
  end.

(** The event without its ["duration"] key. *)
Definition strip (e : TransitionEvent) : TransitionEvent :=
  {| author := author e; timestamp := timestamp e; step := step e;
     ev_from := ev_from e; ev_to := ev_to e; duration := None |}.

(** One round of the inner loop, seen from the dictionary written to. *)
Definition upd (pf : string) (ts : datetime) (sc : Z) (p e : TransitionEvent)
    : TransitionEvent :=
  if precedes pf sc p
  then set_duration (total_days (elapsed ts (timestamp p))) e
  else e.

(** The same round, for the [j]-th dictionary of [l]. *)
Definition upd_at (pf : string) (ts : datetime) (sc : Z)
    (l : list TransitionEvent) (j : nat) (e : TransitionEvent) : TransitionEvent :=
  match l !! j with
  | Some p => upd pf ts sc p e
  | None => e
  end.

(** Everything the records filed under [k] emit, in encounter order. *)
Definition raw_events (k : string) (kevs : list (string * list TransitionEvent))
    : list TransitionEvent :=
  concat (snd <$> filter (fun p => p.1 = k) kevs).

(** The field changes of one entry that line 108 lets through. *)
Definition status_items (its : list FieldChange) : list FieldChange :=
  List.filter (fun it => String.eqb (field it) "status") its.

(** The number of status changes across the whole changelog of an issue. *)
Definition status_changes (issue : IssueRecord) : nat :=
  length (status_items (concat (items <$> histories issue))).

(** [n, n+1, ..., n+len-1]. *)
Fixpoint zseq (n : Z) (len : nat) : list Z :=
  match len with
  | O => []
  | S len' => n :: zseq (n + 1) len'
  end.

(** The step indices a record contributes: [0, 1, ..., status_changes]. *)
Definition block_steps (issue : IssueRecord) : list Z :=
  zseq 0 (1 + status_changes issue).

(** The records of the input filed under [k], in encounter order. *)
Definition records_for (k : string) (issues : list IssueRecord) : list IssueRecord :=
  filter (fun issue => key issue = k) issues.

(** [p] is an event the test of line 126 accepts for [e]. *)
Definition is_predecessor (p e : TransitionEvent) : Prop :=
  ev_to p = ev_from e /\ step p = step e - 1.

(** [d] is [us] microseconds expressed in days (86400000000 microseconds
    each), to within the rounding of the two float divisions that produce
    it: a relative error of at most [2 ^ -51]. *)
Definition in_days (d : Q) (us : Z) : Prop :=
  (Qabs (d * 86400000000 - inject_Z us) <= inject_Z us * (1 # 2 ^ 51))%Q.

Section Specification.

Variable strptime : string -> option datetime.

(** The events one changelog entry contributes, numbered from [n]. *)
Fixpoint item_events (change : ChangelogEntry) (its : list FieldChange) (n : Z)
    : res (list TransitionEvent) :=
  match its with
  | [] => ret []
  | it :: its' =>
      if String.eqb (field it) "status" then
        do a <- displayName (change_author change);
        do t <- parse_timestamp strptime (change_created change);
        do rest <- item_events change its' (n + 1);
        ret ({| author := a; timestamp := t; step := n;
                ev_from := fromString it; ev_to := toString it;
                duration := None |} :: rest)
      else item_events change its' n
  end.

(** The events a changelog contributes, numbered from [n]. *)
Fixpoint history_events (hs : list ChangelogEntry) (n : Z)
    : res (list TransitionEvent) :=
  match hs with
  | [] => ret []
  | h :: hs' =>
      do evs <- item_events h (items h) n;
      do rest <- history_events hs' (n + Z.of_nat (length evs));
      ret (evs ++ rest)
  end.

(** The synthetic step-0 event followed by the status changes. *)
Definition issue_events (first_step : string) (issue : IssueRecord)
    : res (list TransitionEvent) :=
  do a <- displayName (creator issue);
  do t <- parse_timestamp strptime (created issue);
  do evs <- history_events (histories issue) 1;
  ret ({| author := a; timestamp := t; step := 0;
          ev_from := "Create"; ev_to := first_step; duration := None |} :: evs).

Fixpoint all_events (first_step : string) (issues : list IssueRecord)
    : res (list (string * list TransitionEvent)) :=
  match issues with
  | [] => ret []
  | issue :: issues' =>
      do evs <- issue_events first_step issue;
      do rest <- all_events first_step issues';
      ret ((key issue, evs) :: rest)
  end.

(** What the loop body does to the mapping once the events are known. *)
Definition absorb (results : gmap string (list TransitionEvent))
    (kevs : string * list TransitionEvent) : gmap string (list TransitionEvent) :=
  <[kevs.1 := backfill (default [] (results !! kevs.1) ++ kevs.2)]> results.

(** C2 as stated: for every record of the input, the list under its key is
    numbered [0, ..., N-1], N being one plus the status changes of that
    record. *)
Definition steps_contiguous_per_record (issues : list IssueRecord)
    (first_step : string) : Prop :=
  forall results issue,
    get_transitions strptime issues first_step = inr results ->
    issue ∈ issues ->
    exists l, results !! key issue = Some l /\
              step <$> l = Z.of_nat <$> seq 0 (1 + status_changes issue).

(** What lines 111-112 need of an entry: nothing unless one of its items is
    a status change. *)
Definition well_formed_change (change : ChangelogEntry) : Prop :=
  status_items (items change) <> [] ->
  is_Some (change_author change) /\ is_Some (strptime (change_created change)).

(** What lines 97-98 and 111-112 need of a record. *)
Definition well_formed_issue (issue : IssueRecord) : Prop :=
  is_Some (creator issue) /\
  is_Some (strptime (created issue)) /\
  Forall well_formed_change (histories issue).

(** An entry that makes line 111 or 112 raise. *)
Definition malformed_change (change : ChangelogEntry) : Prop :=
  status_items (items change) <> [] /\
  (change_author change = None \/ strptime (change_created change) = None).

(** A record that makes the call raise. *)
Definition malformed_issue (issue : IssueRecord) : Prop :=
  creator issue = None \/
  strptime (created issue) = None \/
  Exists malformed_change (histories issue).

(** The exceptions that stand for a missing display name or a string that
    does not parse. *)
Definition input_error (e : exn) : Prop :=
  e = KeyError "displayName" \/ exists s, e = ValueError s /\ strptime s = None.

(** C8 as stated: an unparseable creation or changelog timestamp, or a
    missing creator or author display name, anywhere in the input, makes
    the call raise. *)
Definition raises_on_any_bad_field (issues : list IssueRecord)
    (first_step : string) : Prop :=
  (exists issue, issue ∈ issues /\
     (strptime (created issue) = None \/ creator issue = None \/
      exists change, change ∈ histories issue /\
        (strptime (change_created change) = None \/ change_author change = None))) ->
  exists e, get_transitions strptime issues first_step = inl e.

(** C6 as stated: one entry per key, each value non-empty and in ascending
    order of step. *)
Definition entries_sorted_by_step (issues : list IssueRecord)
    (first_step : string) : Prop :=
  forall results,
    get_transitions strptime issues first_step = inr results ->
    dom results = list_to_set (key <$> issues) /\
    forall k l, results !! k = Some l -> l <> [] /\ Sorted Z.le (step <$> l).

End Specification.

(** ** Inputs of the closed examples *)

Module Examples.

Definition alice_created : string := "2024-01-01T00:00:00.000+0000".
Definition bob_changed : string := "2024-01-02T00:00:00.000+0000".

Definition t_created : datetime := {| instant := 1704067200000000; utcoffset := 0 |}.
Definition t_changed : datetime := {| instant := 1704153600000000; utcoffset := 0 |}.

(** Scenario A of the specification: an issue with an empty changelog. *)
Definition issue_A : IssueRecord :=
  mk_issue "X-1" (Some "Alice"%string) alice_created [].

(** Scenario B: one entry with one status change, a day later. *)
Definition issue_B : IssueRecord :=
  mk_issue "X-1" (Some "Alice"%string) alice_created
    [mk_change (Some "Bob"%string) bob_changed [mk_item "status" "Open" "Done"]].

Definition created_event : TransitionEvent :=
  mk_event "Alice" t_created 0 "Create" "Open" None.

Definition done_event : TransitionEvent :=
  mk_event "Bob" t_changed 1 "Open" "Done" (Some (total_days 86400000000)).

End Examples.

Module MoreExamples.
Import Examples.

(** An entry without a status change, then one with two of them. *)
Definition issue_multi : IssueRecord :=
  mk_issue "X-2" (Some "Alice"%string) alice_created
    [mk_change (Some "Carol"%string) bob_changed [mk_item "assignee" "nobody" "Carol"];
     mk_change (Some "Bob"%string) bob_changed
       [mk_item "status" "Open" "Doing"; mk_item "summary" "a" "b";
        mk_item "status" "Doing" "Done"]].

(** The same record delivered twice, as overlapping pages do. *)
Definition twice : list IssueRecord := [issue_B; issue_B].

End MoreExamples.

Module ClampExample.
Import Examples.

(** A status change stamped a day before the creation of its issue. *)
Definition issue_early : IssueRecord :=
  mk_issue "X-3" (Some "Alice"%string) bob_changed
    [mk_change (Some "Bob"%string) alice_created [mk_item "status" "Open" "Done"]].

Definition early_events : list TransitionEvent :=
  [ mk_event "Alice" t_changed 0 "Create" "Open" None;
    mk_event "Bob" t_created 1 "Open" "Done" (Some (total_days 0)) ].

End ClampExample.

Module RaisingExamples.
Import Examples.

(** Scenario C: a status change out of a state no earlier event led to. *)
Definition issue_orphan : IssueRecord :=
  mk_issue "X-4" (Some "Alice"%string) alice_created
    [mk_change (Some "Bob"%string) bob_changed [mk_item "status" "Review" "Done"]].

(** A label match at the wrong distance: step 2 leaves ["Open"], which only
    step 0 entered. *)
Definition issue_far : IssueRecord :=
  mk_issue "X-5" (Some "Alice"%string) alice_created
    [mk_change (Some "Bob"%string) bob_changed
       [mk_item "status" "Review" "Doing"; mk_item "status" "Open" "Done"]].

(** An entry without a status change whose timestamp does not parse and
    whose author has no display name. *)
Definition issue_unread : IssueRecord :=
  mk_issue "X-6" (Some "Alice"%string) alice_created
    [mk_change None "yesterday" [mk_item "assignee" "nobody" "Carol"]].

(** The same entry with a status change. *)
Definition issue_bad : IssueRecord :=
  mk_issue "X-7" (Some "Alice"%string) alice_created
    [mk_change (Some "Bob"%string) "yesterday" [mk_item "status" "Open" "Done"]].

End RaisingExamples.

Module LastMatch.
Import Examples.

(** Two records share a key; the second, created a day later, changes
    status at the time of its creation. *)
Definition issue_later : IssueRecord :=
  mk_issue "X-1" (Some "Alice"%string) bob_changed
    [mk_change (Some "Bob"%string) bob_changed [mk_item "status" "Open" "Done"]].

End LastMatch.

Module HeapExamples.
Import Heap.

Definition dict (kvs : list (string * value)) : object := ODict (list_to_map kvs).

(** Scenario B as the fetcher delivers it: the JSON objects of one issue,
    the list that holds it, and the [JiraAPI] instance. *)
Definition store_B : heap :=
  [ (* 0 *) dict [("displayName", VStr "Alice")];
    (* 1 *) dict [("creator", VRef 0); ("created", VStr Examples.alice_created)];
    (* 2 *) dict [("displayName", VStr "Bob")];
    (* 3 *) dict [("field", VStr "status"); ("fromString", VStr "Open");
                  ("toString", VStr "Done")];
    (* 4 *) OList [VRef 3];
    (* 5 *) dict [("author", VRef 2); ("created", VStr Examples.bob_changed);
                  ("items", VRef 4)];
    (* 6 *) OList [VRef 5];
    (* 7 *) dict [("histories", VRef 6)];
    (* 8 *) dict [("key", VStr "X-1"); ("fields", VRef 1); ("changelog", VRef 7)];
    (* 9 *) OList [VRef 8];
    (* 10 *) dict [("base_url", VStr "https://jira.example.org"); ("verify", VNone)] ].

(** What the call adds to the store. *)
Definition added_B : heap :=
  [ (* 11 *) dict [("X-1", VRef 12)];
    (* 12 *) OList [VRef 13; VRef 14];
    (* 13 *) dict [("author", VStr "Alice"); ("timestamp", VDatetime Examples.t_created);
                   ("step", VInt 0); ("from", VStr "Create"); ("to", VStr "Open")];
    (* 14 *) dict [("author", VStr "Bob"); ("timestamp", VDatetime Examples.t_changed);
                   ("step", VInt 1); ("from", VStr "Open"); ("to", VStr "Done");
                   ("duration", VFloat (total_days 86400000000))] ].

(** What a second call adds to the store. *)
Definition added_B2 : heap :=
  [ (* 15 *) dict [("X-1", VRef 16)];
    (* 16 *) OList [VRef 17; VRef 18];
    (* 17 *) dict [("author", VStr "Alice"); ("timestamp", VDatetime Examples.t_created);
                   ("step", VInt 0); ("from", VStr "Create"); ("to", VStr "Open")];
    (* 18 *) dict [("author", VStr "Bob"); ("timestamp", VDatetime Examples.t_changed);
                   ("step", VInt 1); ("from", VStr "Open"); ("to", VStr "Done");
                   ("duration", VFloat (total_days 86400000000))] ].

End HeapExamples.

(** ** Notions used to reason about the store *)

(** Names for the functional version where the store version is imported. *)
Module Fn.
Abbreviation items_body := items_body.
Abbreviation histories_body := histories_body.
Abbreviation issue_body := issue_body.
Abbreviation get_transitions := get_transitions.
End Fn.

Module HeapSpec.
Import Heap.
Local Open Scope nat_scope.

(** [hoare P m Q E]: from a store satisfying [P], [m] ends in a store
    satisfying [Q] on its value, or [E] on its exception. *)
Definition hoare {A} (P : heap -> Prop) (m : M A)
    (Q : A -> heap -> Prop) (E : exn -> heap -> Prop) : Prop :=
  forall h, P h ->
    match m h with
    | (h', inr a) => Q a h'
    | (h', inl e) => E e h'
    end.

(** A computation that only looks at the store. *)
Definition reads {A} (m : M A) (F : A -> heap -> Prop) : Prop :=
  forall h, exists r, m h = (h, r) /\ match r with inr a => F a h | inl _ => True end.

(** Every object of [h0] is still there, as it was. *)
Definition unchanged (h0 h : heap) : Prop :=
  forall l o, h0 !! l = Some o -> h !! l = Some o.

(** What the call owns: the result dictionary sits at [r], allocated by the
    call; its values are references to lists allocated after it, which hold
    references to dictionaries allocated after it.  The objects of [h0], the
    store before the call, are untouched. *)
Definition owned (h0 : heap) (r : loc) (h : heap) : Prop :=
  unchanged h0 h
  /\ length h0 <= r
  /\ (exists d, h !! r = Some (ODict d) /\
                forall k v, d !! k = Some v -> exists ll, v = VRef ll /\ r < ll)
  /\ (forall ll vs, r < ll -> h !! ll = Some (OList vs) ->
        forall x, x ∈ vs -> exists l, x = VRef l /\ r < l).

Definition is_dict (h : heap) (v : value) (d : gmap string value) : Prop :=
  exists l, v = VRef l /\ h !! l = Some (ODict d).

Definition is_list (h : heap) (v : value) (vs : list value) : Prop :=
  exists l, v = VRef l /\ h !! l = Some (OList vs).

(** [{"displayName": ...}], or a dictionary without that key. *)
Definition repr_name (h : heap) (v : value) (o : option string) : Prop :=
  exists d, is_dict h v d /\ d !! "displayName" = VStr <$> o.

(** A field change.  Its ["fromString"] and ["toString"] are read only when
    its field is ["status"] (lines 108-116): of any other item nothing more
    than the field is asked. *)
Definition repr_item (h : heap) (v : value) (it : FieldChange) : Prop :=
  exists d, is_dict h v d /\
    d !! "field" = Some (VStr (field it)) /\
    (field it = "status"%string ->
     d !! "fromString" = Some (VStr (fromString it)) /\
     d !! "toString" = Some (VStr (toString it))).

(** A changelog entry.  Its ["author"] and ["created"] are read only when
    one of its items is a status change (lines 111-112): of any other entry
    nothing more than the items is asked. *)
Definition repr_change (h : heap) (v : value) (c : ChangelogEntry) : Prop :=
  exists d vi vs, is_dict h v d /\
    d !! "items" = Some vi /\ is_list h vi vs /\
    Forall2 (repr_item h) vs (items c) /\
    (status_items (items c) <> [] ->
     exists va, d !! "author" = Some va /\ repr_name h va (change_author c) /\
                d !! "created" = Some (VStr (change_created c))).

Definition repr_issue (h : heap) (v : value) (i : IssueRecord) : Prop :=
  exists d vf df vc vcl dcl vh vhs, is_dict h v d /\
    d !! "key" = Some (VStr (key i)) /\
    d !! "fields" = Some vf /\ is_dict h vf df /\
    df !! "creator" = Some vc /\ repr_name h vc (creator i) /\
    df !! "created" = Some (VStr (created i)) /\
    d !! "changelog" = Some vcl /\ is_dict h vcl dcl /\
    dcl !! "histories" = Some vh /\ is_list h vh vhs /\
    Forall2 (repr_change h) vhs (histories i).

Definition repr_issues (h : heap) (v : value) (issues : list IssueRecord) : Prop :=
  exists vs, is_list h v vs /\ Forall2 (repr_issue h) vs issues.

(** The dictionary of an event. *)
Definition event_base (e : TransitionEvent) : gmap string value :=
  <["to" := VStr (ev_to e)]> (<["from" := VStr (ev_from e)]>
    (<["step" := VInt (step e)]> (<["timestamp" := VDatetime (timestamp e)]>
      (<["author" := VStr (author e)]> ∅)))).

Definition event_obj (e : TransitionEvent) : object :=
  ODict (match duration e with
         | Some q => <["duration" := VFloat q]> (event_base e)
         | None => event_base e
         end).

(** The dictionary at [r] maps each key to its list. *)
Definition list_refs (R : gmap string (nat * list nat)) : gmap string value :=
  (fun p => VRef p.1) <$> R.

(** [h] holds at [r] the mapping [results]: [R] gives, for each key, the
    address of its list and the addresses of the events in it.  No two of
    these addresses coincide, and none is an address of [h0]. *)
Record inv (h0 : heap) (r : nat) (R : gmap string (nat * list nat))
    (results : gmap string (list TransitionEvent)) (h : heap) : Prop := {
  inv_unchanged : unchanged h0 h;
  inv_fresh : length h0 <= r;
  inv_results : h !! r = Some (ODict (list_refs R));
  inv_dom : forall k, R !! k = None -> results !! k = None;
  inv_list : forall k ll locs, R !! k = Some (ll, locs) ->
    r < ll /\ h !! ll = Some (OList (VRef <$> locs)) /\
    Forall (fun l => r < l) locs /\ NoDup locs /\
    exists evs, results !! k = Some evs /\
                Forall2 (fun l e => h !! l = Some (event_obj e)) locs evs;
  inv_sep : forall k k' ll locs ll' locs',
    k <> k' -> R !! k = Some (ll, locs) -> R !! k' = Some (ll', locs') ->
    ll <> ll' /\ forall l, l ∈ locs -> l ∉ locs'
}.

Section Baseline.

Variables (h0 : heap) (r : nat).

Section AtKey.

Variables (R : gmap string (nat * list nat)) (k : string).

(** The list under [k] reads [evs]; the other keys are as in [results]. *)
Definition at_key (results : gmap string (list TransitionEvent))
    (evs : list TransitionEvent) (h : heap) : Prop :=
  inv h0 r R (<[k := evs]> results) h.

End AtKey.

(** A run on the store agrees with a result of the functional version. *)
Definition agrees {S T} (I : S -> T -> heap -> Prop)
    (run : heap * res T) (a : res S) : Prop :=
  match run, a with
  | (h', inr t), inr s => I s t h'
  | (h', inl e), inl e' => e = e' /\ unchanged h0 h'
  | _, _ => False
  end.

(** The state of the loops of lines 106-118: the counter, and a mapping
    that has the key. *)
Definition emitting (k : string) (s : Z * gmap string (list TransitionEvent))
    (t : Z) (h : heap) : Prop :=
  t = s.1 /\ is_Some (s.2 !! k) /\ exists R, inv h0 r R s.2 h.

(** The state of the loop over the issues: the mapping built so far. *)
Definition holding (results : gmap string (list TransitionEvent)) (h : heap) : Prop :=
  exists R, inv h0 r R results h.

End Baseline.

(** The dictionary at [v] reads as the mapping [results]. *)
Definition represents (h : heap) (v : value)
    (results : gmap string (list TransitionEvent)) : Prop :=
  exists d, is_dict h v d /\
    forall k,
      match results !! k with
      | Some evs =>
          exists vl vs, d !! k = Some vl /\ is_list h vl vs /\
            Forall2 (fun x e => exists l, x = VRef l /\ h !! l = Some (event_obj e))
                    vs evs
      | None => d !! k = None
      end.

End HeapSpec.

(** ** Notions used to compare two calls in a row *)

Module Relocate.
Import Heap.
Local Open Scope nat_scope.

(** [v] is no reference, or one to an address under [n]. *)
Definition below (n : nat) (v : value) : Prop :=
  match v with
  | VRef l => l < n
  | _ => True
  end.

Definition refs_below (n : nat) (o : object) : Prop :=
  match o with
  | ODict d => map_Forall (fun _ => below n) d
  | OList vs => Forall (below n) vs
  end.

(** A store without dangling references, as every Python store is. *)
Definition closed (h : heap) : Prop := Forall (refs_below (length h)) h.

(** A value read back from the store as plain data, to a given depth. *)
#[warnings="-register-all"]
Inductive tree :=
| TNone
| TInt (z : Z)
| TStr (s : string)
| TDatetime (t : datetime)
| TFloat (q : Q)
| TDict (d : gmap string tree)
| TList (l : list tree)
| TCut.

Fixpoint reify (depth : nat) (h : heap) (v : value) : tree :=
  match v with
  | VNone => TNone
  | VInt z => TInt z
  | VStr s => TStr s
  | VDatetime t => TDatetime t
  | VFloat q => TFloat q
  | VRef l =>
      match depth with
      | O => TCut
      | S depth' =>
          match h !! l with
          | Some (ODict d) => TDict (reify depth' h <$> d)
          | Some (OList vs) => TList (reify depth' h <$> vs)
          | None => TCut
          end
      end
  end.

Section Shift.

(** The second of two calls in a row finds the store of the first, [n0]
    objects, followed by the objects [A] the first call made.  What it makes
    itself comes after them: the addresses from [n0] on move up by the
    length of [A]. *)
Variable n0 : nat.
Variable A : list object.

Definition sh (l : nat) : nat := if l <? n0 then l else l + length A.

Definition shv (v : value) : value :=
  match v with
  | VRef l => VRef (sh l)
  | _ => v
  end.

Definition sho (o : object) : object :=
  match o with
  | ODict d => ODict (shv <$> d)
  | OList vs => OList (shv <$> vs)
  end.

(** The store of a run from the earlier store, and the store of the same
    run from the later one. *)
Definition rel (hl hr : heap) : Prop :=
  closed hl /\ n0 <= length hl /\
  hr = (sho <$> take n0 hl) ++ A ++ (sho <$> drop n0 hl).

(** Two computations that do the same on related stores, from a store of
    [n] objects at least; [R] relates what they return. *)
Definition sim {T} (n : nat) (R : nat -> T -> T -> Prop) (ml mr : M T) : Prop :=
  forall hl hr, rel hl hr -> n <= length hl ->
    rel (ml hl).1 (mr hr).1 /\ length hl <= length (ml hl).1 /\
    match (ml hl).2, (mr hr).2 with
    | inr x, inr y => R (length (ml hl).1) x y
    | inl e, inl e' => e = e'
    | _, _ => False
    end.

Definition Rv (m : nat) (x y : value) : Prop := y = shv x /\ below m x.
Definition Rvs (m : nat) (xs ys : list value) : Prop :=
  ys = shv <$> xs /\ Forall (below m) xs.
Definition Req {T} (m : nat) (x y : T) : Prop := x = y.

End Shift.

End Relocate.

(** ** Further notions: the status changes of a record *)

(** The status changes of a changelog, each with the entry it belongs to, in
    the order the loops of lines 106-108 meet them. *)
Definition status_pairs (hs : list ChangelogEntry)
    : list (ChangelogEntry * FieldChange) :=
  concat ((fun c => (fun it => (c, it)) <$> status_items (items c)) <$> hs).

Section Contents.

Variable strptime : string -> option datetime.

(** What lines 96-103 put into the synthetic event of a record. *)
Definition records_creation (first_step : string) (issue : IssueRecord)
    (e : TransitionEvent) : Prop :=
  creator issue = Some (author e) /\
  strptime (created issue) = Some (timestamp e) /\
  step e = 0 /\ ev_from e = "Create"%string /\ ev_to e = first_step.

(** What lines 109-117 put into the event of the [n]-th status change. *)
Definition records_change (c : ChangelogEntry) (it : FieldChange) (n : Z)
    (e : TransitionEvent) : Prop :=
  change_author c = Some (author e) /\
  strptime (change_created c) = Some (timestamp e) /\
  step e = n /\ ev_from e = fromString it /\ ev_to e = toString it.

(** [block] is what one record leaves in the list of its key: the synthetic
    event, then one event per status change, in changelog order. *)
Definition emits (first_step : string) (issue : IssueRecord)
    (block : list TransitionEvent) : Prop :=
  length block = S (length (status_pairs (histories issue))) /\
  (exists e, block !! 0%nat = Some e /\ records_creation first_step issue e) /\
  forall (i : nat) c it,
    status_pairs (histories issue) !! i = Some (c, it) ->
    exists e, block !! S i = Some e /\ records_change c it (Z.of_nat (S i)) e.

End Contents.

(** * The client: [__init__], [_create_authorization_header] and
      [get_issues_by_filter] (lines 12-84)

    A Python string is modelled, as everywhere in this file, by a [string]:
    the bytes of its UTF-8 encoding.  [str.encode()] is then the identity,
    and ASCII characters such as ['/'] and [':'] are single bytes that occur
    nowhere inside the encoding of another character.  A string with a lone
    surrogate, on which [encode] raises, has no such encoding and is outside
    the model. *)

Module Client.

(** ** Base64 ([base64.b64encode], RFC 4648 section 4) *)

Definition alphabet : list ascii :=
  list_ascii_of_string
    "ABCDEFGHIJKLMNOPQRSTUVWXYZabcdefghijklmnopqrstuvwxyz0123456789+/".

(** The character of a six-bit group. *)
Definition sextet (n : nat) : ascii := nth n alphabet "="%char.

Fixpoint b64encode (bs : list ascii) : list ascii :=
  match bs with
  | [] => []
  | [a] =>
      let a := nat_of_ascii a in
      [sextet (a / 4); sextet (a mod 4 * 16); "="%char; "="%char]
  | [a; b] =>
      let a := nat_of_ascii a in
      let b := nat_of_ascii b in
      [sextet (a / 4); sextet (a mod 4 * 16 + b / 16); sextet (b mod 16 * 4);
       "="%char]
  | a :: b :: c :: rest =>
      let a := nat_of_ascii a in
      let b := nat_of_ascii b in
      let c := nat_of_ascii c in
      [sextet (a / 4); sextet (a mod 4 * 16 + b / 16);
       sextet (b mod 16 * 4 + c / 64); sextet (c mod 64)] ++ b64encode rest
  end%nat.

(** ** [str.rstrip] with a single character to strip *)

Fixpoint rstrip (c : ascii) (s : string) : string :=
  match s with
  | EmptyString => EmptyString
  | String a s' =>
      match rstrip c s' with
      | EmptyString => if Ascii.eqb a c then EmptyString else String a EmptyString
      | t => String a t
      end
  end.

(** ** The instance *)

(** The [verify] argument of [requests.get]: [True], or the path of a CA
    bundle. *)
Inductive verification :=
| VerifyTrue
| VerifyPath (path : string).

(** A dictionary of strings is the list of its items, in insertion order. *)
Record JiraAPI := mk_client {
  base_url : string;
  headers : list (string * string);
  verify : verification
}.

(** Lines 38-40. *)
Definition _create_authorization_header (username api_token : string)
    : list (string * string) :=
  let raw_string := (username ++ ":" ++ api_token)%string in
  let base64_string :=
    string_of_list_ascii (b64encode (list_ascii_of_string raw_string)) in
  [("Authorization"%string, ("Basic " ++ base64_string)%string)].

(** [{**d1, **d2}] on dictionaries given by their items: a key of [d2] that
    [d1] has takes the place it has in [d1], with the value of [d2]. *)
Fixpoint dict_set (k v : string) (d : list (string * string))
    : list (string * string) :=
  match d with
  | [] => [(k, v)]
  | (k', v') :: d' =>
      if String.eqb k' k then (k, v) :: d' else (k', v') :: dict_set k v d'
  end.

Definition dict_update (d1 d2 : list (string * string)) : list (string * string) :=
  foldl (fun d kv => dict_set kv.1 kv.2 d) d1 d2.

(** Lines 23-29.  [ca_cert_path] is [None] when the argument is left out;
    the empty string is as false as [None]. *)
Definition __init__ (base_url email api_token : string)
    (ca_cert_path : option string) : JiraAPI :=
  {| base_url := rstrip "/" base_url;
     headers :=
       dict_update [("Accept", "application/json");
                    ("Content-Type", "application/json")]%string
                   (_create_authorization_header email api_token);
     verify :=
       match ca_cert_path with
       | Some (String a p) => VerifyPath (String a p)
       | _ => VerifyTrue
       end |}.

(** ** Requests and replies *)

(** A value of the [params] dictionary. *)
Inductive param :=
| PStr (s : string)
| PInt (n : Z)
| PList (l : list string).

(** What [requests.get] is called with. *)
Record request := mk_request {
  url : string;
  params : list (string * param);
  req_headers : list (string * string);
  req_verify : verification
}.

(** What the calls of the loop can raise: a [RequestException] (or one of
    its subclasses: [ConnectionError], [HTTPError], ...), or anything else. *)
Inductive failure :=
| RequestException (msg : string)
| NameError (name : string)
| Other (e : exn).

Section Fetch.

(** The type of the elements of ["issues"]. *)
Context {Issue : Type}.

(** The body of a reply as [response.json()] returns it, taken to be an
    object whose ["issues"], when present, is an array and whose ["total"],
    when present, is an integer. *)
Record page := mk_page {
  page_issues : option (list Issue);
  page_total : option Z
}.

(** A reply: [http_error] is what [raise_for_status()] raises, if it does;
    [json] is what [json()] returns or raises. *)
Record response := mk_response {
  http_error : option string;
  json : failure + page
}.

(** The network: what [requests.get] answers to a request, given the
    requests made before it; [inl] is an exception of the call itself. *)
Variable send : list request -> request -> failure + response.

(** How a run of the loop can end; [Unfinished] is a loop still running
    when the rounds allotted to it are used up. *)
Inductive outcome (A : Type) :=
| Returned (a : A)
| Raised (f : failure)
| Unfinished.
#[global] Arguments Returned {A} a.
#[global] Arguments Raised {A} f.
#[global] Arguments Unfinished {A}.

Definition max_results : Z := 100.

(** Lines 58-66 and the arguments of lines 68-73. *)
Definition search_request (self : JiraAPI) (jql : string)
    (fields : option (list string)) (start_at : Z) : request :=
  let url := (base_url self ++ "/rest/api/2/search")%string in
  let params :=
    [("jql", PStr jql); ("startAt", PInt start_at);
     ("maxResults", PInt max_results);
     ("expand", PStr "transitions,changelog")]%string in
  let params :=
    match fields with
    | Some (f :: fs) => params ++ [("fields"%string, PList (f :: fs))]
    | _ => params
    end in
  {| url := url; params := params; req_headers := headers self;
     req_verify := verify self |}.

(** Lines 74-79 on a reply: the issues gathered so far with those of the
    reply, and whether the loop ends here. *)
Definition absorb_reply (issues : list Issue) (r : response)
    : failure + (list Issue * bool) :=
  match http_error r with
  | Some msg => inl (RequestException msg)
  | None =>
      match json r with
      | inl f => inl f
      | inr data =>
          match page_issues data with
          | None => inl (Other (KeyError "issues"))
          | Some new =>
              let issues := issues ++ new in
              match page_total data with
              | None => inl (Other (KeyError "total"))
              | Some total => inr (issues, Z.of_nat (length issues) >=? total)
              end
          end
      end
  end.

(** One round of [while True] (lines 58-82). *)
Definition round (self : JiraAPI) (jql : string) (fields : option (list string))
    (log : list request) (issues : list Issue) (start_at : Z)
    : list request * (failure + (list Issue * bool)) :=
  let req := search_request self jql fields start_at in
  match send log req with
  | inl f => (log ++ [req], inl f)
  | inr r => (log ++ [req], absorb_reply issues r)
  end.

(** The loop, for at most [fuel] rounds.  The state is the list of the
    requests made so far, [issues] and [start_at]. *)
Fixpoint fetch_loop (fuel : nat) (self : JiraAPI) (jql : string)
    (fields : option (list string)) (log : list request) (issues : list Issue)
    (start_at : Z) : list request * outcome (list Issue) :=
  match fuel with
  | O => (log, Unfinished)
  | S fuel' =>
      match round self jql fields log issues start_at with
      | (log', inl f) => (log', Raised f)
      | (log', inr (issues', true)) => (log', Returned issues')
      | (log', inr (issues', false)) =>
          fetch_loop fuel' self jql fields log' issues' (start_at + max_results)
      end
  end.

(** Lines 53-84: the requests made, and how the call ends. *)
Definition get_issues_by_filter (fuel : nat) (self : JiraAPI) (jql : string)
    (fields : option (list string)) : list request * outcome (list Issue) :=
  fetch_loop fuel self jql fields [] [] 0.

End Fetch.

End Client.

(** ** Notions used to state the results about the client *)

Module ClientSpec.
Import Client.

(** [d.get(k)] on a dictionary given by its items. *)
Fixpoint assoc {V : Type} (k : string) (d : list (string * V)) : option V :=
  match d with
  | [] => None
  | (k', v) :: d' => if String.eqb k' k then Some v else assoc k d'
  end.

Definition int_param (k : string) (req : request) : option Z :=
  match assoc k (params req) with
  | Some (PInt n) => Some n
  | _ => None
  end.

(** The request of round [i] (counted from 0). *)
Definition nth_request (self : JiraAPI) (jql : string)
    (fields : option (list string)) (i : nat) : request :=
  search_request self jql fields (100 * Z.of_nat i).

(** The rounds it takes to read [n] issues a hundred at a time. *)
Definition rounds_for (n : nat) : nat := Nat.max 1 ((n + 99) / 100).

Section Servers.

Context {Issue : Type}.

(** A search service over the issues [db] that match: it answers with the
    slice asked for, cut to [cap] issues, and with the size of [db]. *)
Definition paged (cap : nat) (db : list Issue) (log : list request)
    (req : request) : failure + @response Issue :=
  match int_param "startAt" req, int_param "maxResults" req with
  | Some s, Some m =>
      inr {| http_error := None;
             json := inr {| page_issues :=
                              Some (take (Nat.min (Z.to_nat m) cap)
                                         (drop (Z.to_nat s) db));
                            page_total := Some (Z.of_nat (length db)) |} |}
  | _, _ => inl (RequestException "400 Client Error")
  end.

(** The issues a reply carries, if it is one the loop accepts. *)
Definition issues_of (r : failure + @response Issue) : list Issue :=
  match r with
  | inr {| http_error := None; json := inr {| page_issues := Some l |} |} => l
  | _ => []
  end.

(** The ["total"] a reply carries. *)
Definition total_of (r : failure + @response Issue) : option Z :=
  match r with
  | inr {| http_error := None; json := inr data |} => page_total data
  | _ => None
  end.

(** The issues of the replies to the requests [todo], made after [before]. *)
Fixpoint received_from (send : list request -> request -> failure + @response Issue)
    (before todo : list request) : list (list Issue) :=
  match todo with
  | [] => []
  | req :: todo' =>
      issues_of (send before req) :: received_from send (before ++ [req]) todo'
  end.

End Servers.

(** *** Reading an [Authorization] header, as the receiving end does *)

Fixpoint index_of (c : ascii) (l : list ascii) : option nat :=
  match l with
  | [] => None
  | x :: l' => if Ascii.eqb x c then Some 0%nat else S <$> index_of c l'
  end.

(** The six-bit group of a character of the alphabet. *)
Definition sextet_value (c : ascii) : option nat := index_of c alphabet.

(** Base64 decoding of padded input (RFC 4648 section 4). *)
Fixpoint b64decode (cs : list ascii) : option (list ascii) :=
  match cs with
  | [] => Some []
  | c1 :: c2 :: c3 :: c4 :: rest =>
      s1 ← sextet_value c1;
      s2 ← sextet_value c2;
      let b1 := ascii_of_nat (s1 * 4 + s2 / 16) in
      if Ascii.eqb c4 "=" then
        match rest with
        | [] =>
            if Ascii.eqb c3 "=" then Some [b1]
            else s3 ← sextet_value c3;
                 Some [b1; ascii_of_nat (s2 mod 16 * 16 + s3 / 4)]
        | _ => None
        end
      else
        s3 ← sextet_value c3;
        s4 ← sextet_value c4;
        bs ← b64decode rest;
        Some (b1 :: ascii_of_nat (s2 mod 16 * 16 + s3 / 4)
                 :: ascii_of_nat (s3 mod 4 * 64 + s4) :: bs)
  | _ => None
  end%nat.

(** The text up to the first colon, and the text after it. *)
Fixpoint split_colon (cs : list ascii) : option (list ascii * list ascii) :=
  match cs with
  | [] => None
  | c :: cs' =>
      if Ascii.eqb c ":" then Some ([], cs')
      else (fun p => (c :: p.1, p.2)) <$> split_colon cs'
  end.

(** [s] without the prefix [p], if it starts with it. *)
Fixpoint after_prefix (p s : string) : option string :=
  match p, s with
  | EmptyString, _ => Some s
  | String a p', String b s' => if Ascii.eqb a b then after_prefix p' s' else None
  | _, _ => None
  end.

(** The user name and password of a [Basic] authorization (RFC 7617): the
    decoded text is split at its first colon. *)
Definition basic_credentials (value : string) : option (string * string) :=
  b ← after_prefix "Basic " value;
  raw ← b64decode (list_ascii_of_string b);
  p ← split_colon raw;
  Some (string_of_list_ascii p.1, string_of_list_ascii p.2).

(** [n] slashes. *)
Fixpoint slashes (n : nat) : string :=
  match n with
  | O => EmptyString
  | S n' => String "/" (slashes n')
  end.

End ClientSpec.

Module ClientExamples.
Import Client ClientSpec.

Definition jira : JiraAPI :=
  __init__ "https://jira.example.org/" "me@example.org" "secret" None.

(** 150 matching issues, numbered. *)
Definition matches : list nat := seq 0 150.

(** A network that is down. *)
Definition down (log : list request) (req : request) : failure + @response nat :=
  inl (RequestException "Connection refused").

(** A service that hands out one issue per request, whatever is asked, and
    announces three. *)
Definition drip (log : list request) (req : request) : failure + @response nat :=
  inr (mk_response None (inr (mk_page (Some [length log]) (Some 3%Z)))).

End ClientExamples.

(** * [get_transitions] with the order of the keys

    A Python dictionary yields its keys in the order they were first set.
    The script reads the returned mapping in that order (line 170), so here
    the mapping is the list of its items, and lines 86-134 are read once
    more over it. *)

Module Ordered.

(** [d.get(k)]. *)
Fixpoint get (k : string) (d : list (string * list TransitionEvent))
    : option (list TransitionEvent) :=
  match d with
  | [] => None
  | (k', v) :: d' => if String.eqb k' k then Some v else get k d'
  end.

(** [d[k] = v]: a key that is there keeps its place. *)
Fixpoint set (k : string) (v : list TransitionEvent)
    (d : list (string * list TransitionEvent))
    : list (string * list TransitionEvent) :=
  match d with
  | [] => [(k, v)]
  | (k', v') :: d' => if String.eqb k' k then (k', v) :: d' else (k', v') :: set k v d'
  end.

Section GetTransitions.

Variable strptime : string -> option datetime.

Definition append_event (k : string) (ev : TransitionEvent)
    (results : list (string * list TransitionEvent))
    : res (list (string * list TransitionEvent)) :=
  match get k results with
  | Some l => ret (set k (l ++ [ev]) results)
  | None => raise (KeyError k)
  end.

Definition items_body (k : string) (change : ChangelogEntry) (it : FieldChange)
    (st : Z * list (string * list TransitionEvent))
    : res (Z * list (string * list TransitionEvent)) :=
  let '(n, results) := st in
  if String.eqb (field it) "status" then
    do a <- displayName (change_author change);
    do t <- parse_timestamp strptime (change_created change);
    do results' <- append_event k
        {| author := a; timestamp := t; step := n;
           ev_from := fromString it; ev_to := toString it; duration := None |}
        results;
    ret (n + 1, results')
  else ret st.

Definition histories_body (k : string) (change : ChangelogEntry)
    (st : Z * list (string * list TransitionEvent))
    : res (Z * list (string * list TransitionEvent)) :=
  for_each (items_body k change) (items change) st.

Definition backfill_key (k : string) (results : list (string * list TransitionEvent))
    : res (list (string * list TransitionEvent)) :=
  match get k results with
  | Some l => ret (set k (backfill l) results)
  | None => raise (KeyError k)
  end.

Definition issue_body (first_step : string) (issue : IssueRecord)
    (results : list (string * list TransitionEvent))
    : res (list (string * list TransitionEvent)) :=
  let k := key issue in
  let results :=
    match get k results with
    | None => set k [] results
    | Some _ => results
    end in
  do a <- displayName (creator issue);
  do t <- parse_timestamp strptime (created issue);
  do results <- append_event k
      {| author := a; timestamp := t; step := 0;
         ev_from := "Create"; ev_to := first_step; duration := None |}
      results;
  do st <- for_each (histories_body k) (histories issue) (1, results);
  backfill_key k (snd st).

Definition get_transitions (issues : list IssueRecord) (first_step : string)
    : res (list (string * list TransitionEvent)) :=
  for_each (issue_body first_step) issues [].

End GetTransitions.

End Ordered.

(** The keys of a list, each at its first occurrence. *)
Fixpoint first_occurrences (ks : list string) : list string :=
  match ks with
  | [] => []
  | k :: ks' => k :: filter (fun k' => k' <> k) (first_occurrences ks')
  end.

(** ** Notions used to relate the two readings of the result *)

Module OrderedSpec.

Abbreviation to_map d :=
  (list_to_map d : gmap string (list TransitionEvent)) (only parsing).

(** A result seen through a view of its value. *)
Definition rmap {A B} (f : A -> B) (r : res A) : res B :=
  match r with
  | inl e => inl e
  | inr a => inr (f a)
  end.

Definition view (st : Z * list (string * list TransitionEvent))
    : Z * gmap string (list TransitionEvent) :=
  (st.1, list_to_map st.2).

(** The keys after one more record. *)
Definition seen_step (seen : list string) (k : string) : list string :=
  if decide (k ∈ seen) then seen else seen ++ [k].


(** The items of a mapping, its keys taken in a given order. *)
Definition items_in_order (ks : list string)
    (results : gmap string (list TransitionEvent))
    : list (string * list TransitionEvent) :=
  (fun k => (k, default [] (results !! k))) <$> ks.

End OrderedSpec.

(** * The script (lines 136-185)

    The report is modelled from line 152 on; [password] is what line 149
    leaves of the password that was typed.  What is written to the standard
    output is kept as rows of cells and lines of text, before the [csv]
    writer turns the cells into text. *)

Module Script.
Import Client.

Inductive cell :=
| CStr (s : string)
| CInt (n : Z)
| CDatetime (t : datetime)
| CFloat (q : Q).

Inductive line :=
| Row (cells : list cell)
| Message (text : string).

(** The parsed command line. *)
Record arguments := mk_arguments {
  server : string;
  username : string;
  jql : string;
  first_step : string;
  ca_path : option string
}.

(** Line 169. *)
Definition header : list cell :=
  CStr <$> ["Key"; "Author"; "Step"; "Timestamp"; "From"; "To"; "Duration";
            "Count"]%string.

(** Lines 172-181. *)
Definition row (result : string) (transition : TransitionEvent) : list cell :=
  [CStr result; CStr (author transition); CInt (step transition);
   CDatetime (timestamp transition); CStr (ev_from transition);
   CStr (ev_to transition);
   match duration transition with
   | Some d => CFloat d
   | None => CStr EmptyString
   end;
   CInt 1].

(** Lines 170-182. *)
Definition rows (results : list (string * list TransitionEvent)) : list line :=
  concat ((fun item : string * list TransitionEvent =>
             (fun transition => Row (row item.1 transition)) <$> item.2)
          <$> results).

(** Lines 152-157. *)
Definition connect (args : arguments) (password : string) : JiraAPI :=
  __init__ (server args) (username args) password (ca_path args).

Section Main.

Variable send : list request -> request -> failure + @response IssueRecord.
Variable strptime : string -> option datetime.

(** Lines 159-185: the requests made, what is written, and how the script
    ends.  An exception that is not a [RequestException] is not caught. *)
Definition main (fuel : nat) (args : arguments) (password : string)
    : list request * list line * outcome unit :=
  let jira := connect args password in
  match get_issues_by_filter send fuel jira (jql args) None with
  | (log, Returned issues) =>
      match issues with
      | [] => (log, [Row header], Raised (NameError "results"))
      | _ :: _ =>
          match Ordered.get_transitions strptime issues (first_step args) with
          | inr results => (log, Row header :: rows results, Returned tt)
          | inl e => (log, [], Raised (Other e))
          end
      end
  | (log, Raised (RequestException msg)) =>
      (log, [Message ("Error making API request: " ++ msg)], Returned tt)
  | (log, Raised f) => (log, [], Raised f)
  | (log, Unfinished) => (log, [], Unfinished)
  end.

End Main.

End Script.

Module ScriptExamples.
Import Script.

Definition args : arguments :=
  mk_arguments "https://jira.example.org/" "me@example.org" "project = X" "Open" None.

(** Two issues under two keys, then a second record of the first key. *)
Definition found : list IssueRecord :=
  [Examples.issue_B; MoreExamples.issue_multi; LastMatch.issue_later].

(** The service answers with an error status. *)
Definition forbidden (log : list Client.request) (req : Client.request)
    : Client.failure + @Client.response IssueRecord :=
  inr (Client.mk_response (Some "403 Client Error: Forbidden")
         (inl (Client.Other (ValueError "no body")))).

End ScriptExamples.

(** * Results *)

(** ** What the back-fill computes *)

Lemma foldl_ext {A B} (f g : A -> B -> A) (l : list B) (a : A) :
  (forall a b, f a b = g a b) -> foldl f a l = foldl g a l.
Proof.
  intros H. revert a. induction l as [|x l IH]; intros a; simpl; [done|].
  by rewrite H, IH.
Qed.

Lemma foldl_alter_cons {A} (f : A -> A) (y : A) (js : list nat) : forall l,
  foldl (fun l i => alter f i l) (y :: l) (S <$> js)
  = y :: foldl (fun l i => alter f i l) l js.
Proof. induction js as [|j js IH]; intros l; simpl; [done|]. by rewrite <- IH. Qed.

(** Altering every index once, in order, is a map. *)
Lemma foldl_alter_seq {A} (f : A -> A) (l : list A) :
  foldl (fun l i => alter f i l) l (seq 0 (length l)) = f <$> l.
Proof.
  induction l as [|x l IH]; simpl; [done|].
  rewrite <- fmap_S_seq, foldl_alter_cons. by rewrite IH.
Qed.

Lemma strip_set_duration d e : strip (set_duration d e) = strip e.
Proof. reflexivity. Qed.

Lemma strip_strip e : strip (strip e) = strip e.
Proof. reflexivity. Qed.

Lemma strip_eq_fields e e' :
  strip e = strip e' ->
  author e = author e' /\ timestamp e = timestamp e' /\ step e = step e'
  /\ ev_from e = ev_from e' /\ ev_to e = ev_to e'.
Proof. unfold strip. intros H. injection H. auto. Qed.

Lemma strip_id e : duration e = None -> strip e = e.
Proof. destruct e; simpl; intros ->; reflexivity. Qed.

Lemma precedes_strip pf sc p p' :
  strip p = strip p' -> precedes pf sc p = precedes pf sc p'.
Proof.
  intros H. apply strip_eq_fields in H as (_ & _ & Hs & _ & Ht).
  unfold precedes. by rewrite Hs, Ht.
Qed.

Lemma upd_strip pf ts sc p p' e :
  strip p = strip p' -> upd pf ts sc p e = upd pf ts sc p' e.
Proof.
  intros H. unfold upd. rewrite (precedes_strip _ _ _ _ H).
  apply strip_eq_fields in H as (_ & -> & _). reflexivity.
Qed.

Lemma strip_upd pf ts sc p e : strip (upd pf ts sc p e) = strip e.
Proof. unfold upd. by destruct (precedes pf sc p). Qed.

Lemma upd_at_alter pf ts sc f i l j e :
  (forall x, strip (f x) = strip x) ->
  upd_at pf ts sc (alter f i l) j e = upd_at pf ts sc l j e.
Proof.
  intros Hf. unfold upd_at. destruct (decide (i = j)) as [->|Hne].
  - rewrite list_lookup_alter_eq. destruct (l !! j) as [p|]; simpl; [|done].
    apply upd_strip, Hf.
  - by rewrite list_lookup_alter_ne.
Qed.

Lemma strip_upd_at pf ts sc l j e : strip (upd_at pf ts sc l j e) = strip e.
Proof. unfold upd_at. destruct (l !! j); [apply strip_upd | done]. Qed.

Lemma backfill_inner_alter pf ts sc i l j :
  backfill_inner pf ts sc i l j = alter (upd_at pf ts sc l j) i l.
Proof.
  unfold backfill_inner, upd_at, upd. destruct (l !! j) as [p|].
  - destruct (precedes pf sc p); [done|]. by rewrite list_alter_id.
  - by rewrite list_alter_id.
Qed.

(** The inner loop only ever rewrites the dictionary at index [i]. *)
Lemma inner_loop_alter pf ts sc i js : forall l,
  foldl (backfill_inner pf ts sc i) l js
  = alter (fun e => foldl (fun e j => upd_at pf ts sc l j e) e js) i l.
Proof.
  induction js as [|j js IH]; intros l; simpl.
  - by rewrite list_alter_id.
  - rewrite IH, backfill_inner_alter, list_alter_alter_eq.
    apply list_alter_ext; [|done]. intros x _. simpl.
    apply foldl_ext. intros e j'.
    apply upd_at_alter. intros y. apply strip_upd_at.
Qed.

Lemma foldl_upd_at_seq pf ts sc l : forall pre e,
  foldl (fun e j => upd_at pf ts sc (pre ++ l) j e) e (seq (length pre) (length l))
  = foldl (fun e p => upd pf ts sc p e) e l.
Proof.
  induction l as [|x l IH]; intros pre e; simpl; [done|].
  unfold upd_at at 2. rewrite list_lookup_middle by done.
  specialize (IH (pre ++ [x]) (upd pf ts sc x e)).
  rewrite <- (assoc_L (++)) in IH. simpl in IH.
  rewrite length_app in IH. simpl in IH.
  replace (length pre + 1)%nat with (S (length pre)) in IH by lia.
  exact IH.
Qed.

Lemma set_duration_upd pf ts sc p d e :
  upd pf ts sc p (set_duration d e)
  = if precedes pf sc p
    then set_duration (total_days (elapsed ts (timestamp p))) e
    else set_duration d e.
Proof. unfold upd. by destruct (precedes pf sc p). Qed.

(** The scan without a [break]: the last match decides. *)
Lemma foldl_upd_last pf ts sc l e :
  foldl (fun e p => upd pf ts sc p e) e l
  = match last (List.filter (precedes pf sc) l) with
    | Some p => set_duration (total_days (elapsed ts (timestamp p))) e
    | None => e
    end.
Proof.
  induction l as [|x l IH] using rev_ind; [done|].
  rewrite foldl_app, List.filter_app. simpl. rewrite IH.
  unfold upd at 1. destruct (precedes pf sc x).
  - rewrite last_snoc. by destruct (last _).
  - by rewrite app_nil_r.
Qed.

Lemma strip_fill l e : strip (fill l e) = strip e.
Proof. unfold fill. by destruct (predecessor l e). Qed.

Lemma filter_precedes_strip pf sc l l' :
  strip <$> l = strip <$> l' ->
  strip <$> List.filter (precedes pf sc) l = strip <$> List.filter (precedes pf sc) l'.
Proof.
  revert l'. induction l as [|x l IH]; intros [|x' l'] H; try done.
  rewrite !fmap_cons in H. apply (inj2 cons) in H as [Hx Hl]. simpl.
  rewrite (precedes_strip pf sc x x') by done.
  destruct (precedes pf sc x'); simpl; [rewrite Hx; f_equal|]; by apply IH.
Qed.

Lemma last_fmap {A B} (f : A -> B) (l : list A) : last (f <$> l) = f <$> last l.
Proof.
  induction l as [|x l IH] using rev_ind; [done|].
  rewrite fmap_app. simpl. by rewrite !last_snoc.
Qed.

(** The back-fill reads of the other events only what [strip] keeps. *)
Lemma fill_strip_ext l l' e :
  strip <$> l = strip <$> l' -> fill l e = fill l' e.
Proof.
  intros H. unfold fill, predecessor.
  pose proof (filter_precedes_strip (ev_from e) (step e) l l' H) as Hf.
  apply (f_equal last) in Hf. rewrite !last_fmap in Hf.
  destruct (last (List.filter _ l)) as [p|], (last (List.filter _ l')) as [p'|];
    try discriminate; [|done].
  apply (inj Some), strip_eq_fields in Hf as (_ & -> & _). done.
Qed.

Lemma backfill_outer_alter l i : backfill_outer l i = alter (fill l) i l.
Proof.
  unfold backfill_outer. destruct (l !! i) as [s|] eqn:Hs.
  - rewrite inner_loop_alter. apply list_alter_ext; [|done].
    intros x Hx. simplify_eq. rewrite (foldl_upd_at_seq _ _ _ l []).
    by rewrite foldl_upd_last.
  - rewrite (list_alter_ext (fill l) id l l i); [|congruence|done].
    by rewrite list_alter_id.
Qed.

Lemma fmap_strip_alter f (i : nat) (l : list TransitionEvent) :
  (forall x, strip (f x) = strip x) -> strip <$> alter f i l = strip <$> l.
Proof.
  intros Hf. revert i. induction l as [|x l IH]; intros [|i]; [done..| |].
  - change (strip (f x) :: (strip <$> l) = strip x :: (strip <$> l)). by rewrite Hf.
  - change (strip x :: (strip <$> alter f i l) = strip x :: (strip <$> l)).
    by rewrite IH.
Qed.

Lemma outer_loop_alter l0 js : forall l,
  strip <$> l = strip <$> l0 ->
  foldl backfill_outer l js = foldl (fun l i => alter (fill l0) i l) l js.
Proof.
  induction js as [|j js IH]; intros l Hl; simpl; [done|].
  rewrite backfill_outer_alter.
  rewrite (list_alter_ext (fill l) (fill l0) l l j);
    [|intros; by apply fill_strip_ext|done].
  apply IH. rewrite fmap_strip_alter; [done|]. intros; apply strip_fill.
Qed.

(** The back-fill as a whole: every event gets the duration its last
    matching predecessor in the list dictates, or keeps what it had. *)
Lemma backfill_fill l : backfill l = fill l <$> l.
Proof.
  unfold backfill. rewrite (outer_loop_alter l) by done.
  apply foldl_alter_seq.
Qed.

Lemma strip_backfill l : strip <$> backfill l = strip <$> l.
Proof.
  rewrite backfill_fill, <- list_fmap_compose.
  apply list_fmap_ext. intros i x _. apply strip_fill.
Qed.

(** ** What one issue emits *)

Section Emitted.

Variable strptime : string -> option datetime.

Lemma items_loop k change its : forall n results l,
  results !! k = Some l ->
  for_each (items_body strptime k change) its (n, results)
  = do evs <- item_events strptime change its n;
    ret (n + Z.of_nat (length evs), <[k := l ++ evs]> results).
Proof.
  induction its as [|it its IH]; intros n results l Hl; simpl.
  - rewrite app_nil_r, insert_id by done. do 2 f_equal. lia.
  - destruct (String.eqb (field it) "status"); [|by apply IH].
    destruct (displayName (change_author change)) as [e|a]; [done|]. simpl.
    destruct (parse_timestamp strptime (change_created change)) as [e|t]; [done|].
    simpl. unfold append_event. rewrite Hl. simpl.
    rewrite (IH _ _ (l ++ [ {| author := a; timestamp := t; step := n;
                               ev_from := fromString it; ev_to := toString it;
                               duration := None |} ]))
      by apply lookup_insert_eq.
    destruct (item_events strptime change its (n + 1)) as [e|rest]; [done|]. simpl.
    rewrite insert_insert_eq, <- (assoc_L (++)). simpl.
    f_equal. f_equal. lia.
Qed.

Lemma histories_loop k hs : forall n results l,
  results !! k = Some l ->
  for_each (histories_body strptime k) hs (n, results)
  = do evs <- history_events strptime hs n;
    ret (n + Z.of_nat (length evs), <[k := l ++ evs]> results).
Proof.
  induction hs as [|h hs IH]; intros n results l Hl; simpl.
  - rewrite app_nil_r, insert_id by done. do 2 f_equal. lia.
  - unfold histories_body at 1. rewrite (items_loop _ _ _ _ _ l) by done.
    destruct (item_events strptime h (items h) n) as [e|evs]; [done|]. simpl.
    rewrite (IH _ _ (l ++ evs)) by apply lookup_insert_eq.
    destruct (history_events strptime hs _) as [e|rest]; [done|]. simpl.
    rewrite insert_insert_eq, <- (assoc_L (++)), length_app.
    f_equal. f_equal. lia.
Qed.

Lemma issue_body_absorb first_step issue results :
  issue_body strptime first_step issue results
  = do evs <- issue_events strptime first_step issue;
    ret (absorb results (key issue, evs)).
Proof.
  unfold issue_body, issue_events, absorb. simpl.
  destruct (displayName (creator issue)) as [e|a]; [done|]. simpl.
  destruct (parse_timestamp strptime (created issue)) as [e|t]; [done|]. simpl.
  set (ev := {| author := a; timestamp := t; step := 0; ev_from := "Create";
                ev_to := first_step; duration := None |}).
  set (l := default [] (results !! key issue)).
  set (r1 := match results !! key issue with
             | Some _ => results
             | None => <[key issue := []]> results
             end).
  assert (r1 !! key issue = Some l) as H1.
  { subst r1 l. destruct (results !! key issue) eqn:E; [done|].
    by rewrite lookup_insert_eq. }
  assert (forall x, <[key issue := x]> r1 = <[key issue := x]> results) as H2.
  { intros x. subst r1. destruct (results !! key issue); [done|].
    by rewrite insert_insert_eq. }
  unfold append_event. rewrite H1. simpl.
  rewrite (histories_loop _ _ _ _ (l ++ [ev])) by apply lookup_insert_eq.
  destruct (history_events strptime (histories issue) 1) as [e|evs]; [done|]. simpl.
  unfold backfill_key. rewrite insert_insert_eq, lookup_insert_eq. simpl.
  rewrite insert_insert_eq, H2, <- (assoc_L (++)). done.
Qed.

Lemma issues_loop first_step issues : forall results,
  for_each (issue_body strptime first_step) issues results
  = do kevs <- all_events strptime first_step issues;
    ret (foldl absorb results kevs).
Proof.
  induction issues as [|issue issues IH]; intros results; simpl; [done|].
  rewrite issue_body_absorb.
  destruct (issue_events strptime first_step issue) as [e|evs]; [done|]. simpl.
  rewrite IH. by destruct (all_events strptime first_step issues).
Qed.

(** [get_transitions] is the events of every record, absorbed in order. *)
Lemma get_transitions_absorb issues first_step :
  get_transitions strptime issues first_step
  = do kevs <- all_events strptime first_step issues;
    ret (foldl absorb ∅ kevs).
Proof. apply issues_loop. Qed.

End Emitted.

(** ** The returned mapping, key by key *)

Lemma raw_events_snoc_eq k kevs evs :
  raw_events k (kevs ++ [(k, evs)]) = raw_events k kevs ++ evs.
Proof.
  unfold raw_events. rewrite filter_app, filter_cons_True by done.
  rewrite filter_nil, fmap_app, concat_app. simpl. by rewrite app_nil_r.
Qed.

Lemma raw_events_snoc_ne k k' kevs evs :
  k' <> k -> raw_events k (kevs ++ [(k', evs)]) = raw_events k kevs.
Proof.
  intros Hne. unfold raw_events. rewrite filter_app, filter_cons_False by done.
  by rewrite filter_nil, app_nil_r.
Qed.

Lemma raw_events_cons_eq k kevs evs :
  raw_events k ((k, evs) :: kevs) = evs ++ raw_events k kevs.
Proof. unfold raw_events. by rewrite filter_cons_True by done. Qed.

Lemma raw_events_cons_ne k k' kevs evs :
  k' <> k -> raw_events k ((k', evs) :: kevs) = raw_events k kevs.
Proof. intros. unfold raw_events. by rewrite filter_cons_False by done. Qed.

Lemma raw_events_absent k kevs : k ∉ kevs.*1 -> raw_events k kevs = [].
Proof.
  intros Hk. unfold raw_events.
  induction kevs as [|[k' evs] kevs IH]; [done|].
  rewrite fmap_cons, not_elem_of_cons in Hk. destruct Hk as [Hne Hk].
  rewrite filter_cons_False by (simpl; intros ->; by apply Hne). by apply IH.
Qed.

Lemma predecessor_strip l e e' :
  strip e = strip e' -> predecessor l e = predecessor l e'.
Proof.
  intros H. apply strip_eq_fields in H as (_ & _ & Hs & Hf & _).
  unfold predecessor. by rewrite Hs, Hf.
Qed.

Lemma predecessor_app_None l l' e :
  predecessor (l ++ l') e = None -> predecessor l e = None.
Proof.
  unfold predecessor. rewrite List.filter_app, !last_None.
  by intros [-> _]%app_eq_nil.
Qed.

(** Running the back-fill again over a longer list forgets nothing. *)
Lemma fill_fill_app l l' e : fill (l ++ l') (fill l e) = fill (l ++ l') e.
Proof.
  unfold fill at 1 3.
  rewrite (predecessor_strip (l ++ l') (fill l e) e) by apply strip_fill.
  destruct (predecessor (l ++ l') e) as [p|] eqn:Hp.
  - pose proof (strip_fill l e) as Hs.
    apply strip_eq_fields in Hs as (Ha & Ht & Hst & Hf & Hto).
    unfold set_duration. by rewrite Ha, Ht, Hst, Hf, Hto.
  - unfold fill. by rewrite (predecessor_app_None _ _ _ Hp).
Qed.

Lemma backfill_extend l evs :
  backfill ((fill l <$> l) ++ evs) = fill (l ++ evs) <$> (l ++ evs).
Proof.
  rewrite backfill_fill.
  assert (strip <$> (fill l <$> l) ++ evs = strip <$> l ++ evs) as Hs.
  { rewrite !fmap_app. f_equal. rewrite <- list_fmap_compose.
    apply list_fmap_ext. intros; apply strip_fill. }
  rewrite (list_fmap_ext _ (fill (l ++ evs)) _
             (fun _ x _ => fill_strip_ext _ _ x Hs)).
  rewrite !fmap_app. f_equal. rewrite <- list_fmap_compose.
  apply list_fmap_ext. intros; apply fill_fill_app.
Qed.

Lemma absorbed_lookup kevs k :
  foldl absorb ∅ kevs !! k
  = if decide (k ∈ kevs.*1)
    then Some (fill (raw_events k kevs) <$> raw_events k kevs)
    else None.
Proof.
  induction kevs as [|[k' evs] kevs IH] using rev_ind.
  - simpl. by rewrite lookup_empty.
  - rewrite foldl_snoc. unfold absorb at 1. simpl.
    destruct (decide (k' = k)) as [->|Hne].
    + rewrite lookup_insert_eq, raw_events_snoc_eq.
      rewrite decide_True
        by (rewrite fmap_app, elem_of_app; right; apply list_elem_of_singleton; done).
      f_equal. rewrite <- backfill_extend. f_equal. f_equal.
      rewrite IH. destruct (decide (k ∈ kevs.*1)); [done|].
      by rewrite raw_events_absent.
    + rewrite lookup_insert_ne, raw_events_snoc_ne by done.
      rewrite IH. destruct (decide (k ∈ kevs.*1)).
      * rewrite decide_True; [done|]. rewrite fmap_app, elem_of_app. by left.
      * rewrite decide_False; [done|]. rewrite fmap_app, elem_of_app.
        intros [?|H]; [done|]. apply list_elem_of_singleton in H. by apply Hne.
Qed.

Lemma all_events_keys strptime first_step issues kevs :
  all_events strptime first_step issues = inr kevs -> kevs.*1 = key <$> issues.
Proof.
  revert kevs. induction issues as [|issue issues IH]; intros kevs; simpl.
  - by intros [= <-].
  - destruct (issue_events strptime first_step issue) as [e|evs]; [done|]. simpl.
    destruct (all_events strptime first_step issues) as [e|rest]; [done|]. simpl.
    intros [= <-]. simpl. f_equal. by apply IH.
Qed.

(** The shape of a successful result: under each key of the input, the
    events its records emit, back-filled as one list; nothing else. *)
Lemma get_transitions_lookup strptime issues first_step results :
  get_transitions strptime issues first_step = inr results ->
  exists kevs,
    all_events strptime first_step issues = inr kevs /\
    forall k,
      results !! k
      = if decide (k ∈ key <$> issues)
        then Some (fill (raw_events k kevs) <$> raw_events k kevs)
        else None.
Proof.
  rewrite get_transitions_absorb.
  destruct (all_events strptime first_step issues) as [e|kevs] eqn:Hk; [done|].
  simpl. intros [= <-]. exists kevs. split; [done|]. intros k.
  rewrite absorbed_lookup. by rewrite (all_events_keys _ _ _ _ Hk).
Qed.

(** ** Facts about the emitted events *)

Lemma zseq_app n a b : zseq n (a + b) = zseq n a ++ zseq (n + Z.of_nat a) b.
Proof.
  revert n. induction a as [|a IH]; intros n; simpl.
  - f_equal. lia.
  - rewrite IH. do 3 f_equal. lia.
Qed.

Lemma zseq_length n len : length (zseq n len) = len.
Proof. revert n. induction len; intros; simpl; auto. Qed.

Lemma zseq_lookup len : forall n i x, zseq n len !! i = Some x -> x = n + Z.of_nat i.
Proof.
  induction len as [|len IH]; intros n [|i] x H; simplify_eq/=; [lia|].
  apply IH in H. lia.
Qed.

Lemma zseq_ge n len x : x ∈ zseq n len -> n <= x.
Proof.
  intros [i Hi]%list_elem_of_lookup. apply zseq_lookup in Hi. lia.
Qed.

Lemma zseq_seq len : zseq 0 len = Z.of_nat <$> seq 0 len.
Proof.
  assert (forall a, zseq (Z.of_nat a) len = Z.of_nat <$> seq a len) as H.
  { induction len as [|len IH]; intros a; simpl; [done|].
    f_equal. rewrite <- IH. f_equal. lia. }
  apply (H O).
Qed.

Lemma status_items_app l1 l2 :
  status_items (l1 ++ l2) = status_items l1 ++ status_items l2.
Proof. apply List.filter_app. Qed.

Section EmittedFacts.

Variable strptime : string -> option datetime.

Lemma item_events_steps change its : forall n evs,
  item_events strptime change its n = inr evs ->
  step <$> evs = zseq n (length (status_items its)).
Proof.
  induction its as [|it its IH]; intros n evs; simpl.
  - by intros [= <-].
  - destruct (String.eqb (field it) "status"); [|by apply IH].
    destruct (displayName _) as [|a]; [done|]. simpl.
    destruct (parse_timestamp _ _) as [|t]; [done|]. simpl.
    destruct (item_events _ _ _ _) as [|rest] eqn:Hr; [done|]. simpl.
    intros [= <-]. simpl. f_equal. by apply IH.
Qed.

Lemma history_events_steps hs : forall n evs,
  history_events strptime hs n = inr evs ->
  step <$> evs = zseq n (length (status_items (concat (items <$> hs)))).
Proof.
  induction hs as [|h hs IH]; intros n evs; simpl.
  - by intros [= <-].
  - destruct (item_events _ _ _ _) as [|evs1] eqn:H1; [done|]. simpl.
    destruct (history_events _ _ _) as [|rest] eqn:Hr; [done|]. simpl.
    intros [= <-]. apply item_events_steps in H1. apply IH in Hr.
    rewrite fmap_app, status_items_app, length_app, zseq_app, H1, Hr.
    f_equal. f_equal. rewrite <- (length_fmap step evs1), H1, zseq_length. done.
Qed.

(** One record emits steps [0, 1, ..., status_changes]. *)
Lemma issue_events_steps first_step issue evs :
  issue_events strptime first_step issue = inr evs ->
  step <$> evs = zseq 0 (1 + status_changes issue).
Proof.
  unfold issue_events.
  destruct (displayName _) as [|a]; [done|]. simpl.
  destruct (parse_timestamp _ _) as [|t]; [done|]. simpl.
  destruct (history_events _ _ _) as [|rest] eqn:Hr; [done|]. simpl.
  intros [= <-]. simpl. f_equal. by apply history_events_steps in Hr.
Qed.

Lemma issue_events_length first_step issue evs :
  issue_events strptime first_step issue = inr evs ->
  length evs = S (status_changes issue).
Proof.
  intros H%issue_events_steps.
  by rewrite <- (length_fmap step), H, zseq_length.
Qed.

(** The first event a record emits is the synthetic one. *)
Lemma issue_events_head first_step issue evs :
  issue_events strptime first_step issue = inr evs ->
  exists a t rest,
    creator issue = Some a /\ strptime (created issue) = Some t /\
    evs = {| author := a; timestamp := t; step := 0; ev_from := "Create";
             ev_to := first_step; duration := None |} :: rest.
Proof.
  unfold issue_events, displayName, parse_timestamp.
  destruct (creator issue) as [a|]; [|done]. simpl.
  destruct (strptime (created issue)) as [t|]; [|done]. simpl.
  destruct (history_events _ _ _) as [|rest]; [done|]. simpl.
  intros [= <-]. by exists a, t, rest.
Qed.

Lemma item_events_raw change its : forall n evs,
  item_events strptime change its n = inr evs ->
  Forall (fun e => duration e = None) evs.
Proof.
  induction its as [|it its IH]; intros n evs; simpl.
  - by intros [= <-].
  - destruct (String.eqb (field it) "status"); [|by apply IH].
    destruct (displayName _) as [|a]; [done|]. simpl.
    destruct (parse_timestamp _ _) as [|t]; [done|]. simpl.
    destruct (item_events _ _ _ _) as [|rest] eqn:Hr; [done|]. simpl.
    intros [= <-]. constructor; [done|]. by eapply IH.
Qed.

Lemma history_events_raw hs : forall n evs,
  history_events strptime hs n = inr evs ->
  Forall (fun e => duration e = None) evs.
Proof.
  induction hs as [|h hs IH]; intros n evs; simpl.
  - by intros [= <-].
  - destruct (item_events _ _ _ _) as [|evs1] eqn:H1; [done|]. simpl.
    destruct (history_events _ _ _) as [|rest] eqn:Hr; [done|]. simpl.
    intros [= <-]. apply Forall_app. split.
    + by eapply item_events_raw.
    + by eapply IH.
Qed.

(** No emitted event carries a duration before the back-fill. *)
Lemma issue_events_raw first_step issue evs :
  issue_events strptime first_step issue = inr evs ->
  Forall (fun e => duration e = None) evs.
Proof.
  unfold issue_events.
  destruct (displayName _) as [|a]; [done|]. simpl.
  destruct (parse_timestamp _ _) as [|t]; [done|]. simpl.
  destruct (history_events _ _ _) as [|rest] eqn:Hr; [done|]. simpl.
  intros [= <-]. constructor; [done|]. by eapply history_events_raw.
Qed.

Lemma all_events_app first_step pre post kevs :
  all_events strptime first_step (pre ++ post) = inr kevs ->
  exists kpre kpost,
    kevs = kpre ++ kpost /\
    all_events strptime first_step pre = inr kpre /\
    all_events strptime first_step post = inr kpost.
Proof.
  revert kevs. induction pre as [|issue pre IH]; intros kevs; simpl.
  - intros H. by exists [], kevs.
  - destruct (issue_events _ _ _) as [|evs]; [done|]. simpl.
    destruct (all_events _ _ (pre ++ post)) as [|rest] eqn:Hr; [done|]. simpl.
    intros [= <-]. destruct (IH _ eq_refl) as (kpre & kpost & -> & -> & ->).
    by exists ((key issue, evs) :: kpre), kpost.
Qed.

(** The events filed under [k] are those of the records filed under [k]. *)
Lemma all_events_raw_steps first_step issues : forall kevs k,
  all_events strptime first_step issues = inr kevs ->
  step <$> raw_events k kevs
  = concat (block_steps <$> records_for k issues).
Proof.
  induction issues as [|issue issues IH]; intros kevs k; simpl.
  - by intros [= <-].
  - destruct (issue_events _ _ _) as [|evs] eqn:He; [done|]. simpl.
    destruct (all_events _ _ _) as [|rest] eqn:Hr; [done|]. simpl.
    intros [= <-]. unfold records_for.
    destruct (decide (key issue = k)) as [<-|Hk].
    + rewrite raw_events_cons_eq, filter_cons_True by done.
      rewrite fmap_app, fmap_cons, concat_cons. f_equal.
      * by eapply issue_events_steps.
      * by apply IH.
    + rewrite raw_events_cons_ne, filter_cons_False by done. by apply IH.
Qed.

Lemma all_events_raw_None first_step issues : forall kevs k,
  all_events strptime first_step issues = inr kevs ->
  Forall (fun e => duration e = None) (raw_events k kevs).
Proof.
  induction issues as [|issue issues IH]; intros kevs k; simpl.
  - intros [= <-]. constructor.
  - destruct (issue_events _ _ _) as [|evs] eqn:He; [done|]. simpl.
    destruct (all_events _ _ _) as [|rest] eqn:Hr; [done|]. simpl.
    intros [= <-].
    destruct (decide (key issue = k)) as [<-|Hk].
    + rewrite raw_events_cons_eq. apply Forall_app. split.
      * by eapply issue_events_raw.
      * by apply IH.
    + rewrite raw_events_cons_ne by done. by apply IH.
Qed.

End EmittedFacts.

(** ** The predecessor test and the clamp *)

Lemma precedes_spec pf sc p :
  precedes pf sc p = true <-> ev_to p = pf /\ step p = sc - 1.
Proof.
  unfold precedes. rewrite andb_true_iff, String.eqb_eq, Z.eqb_eq.
  split; intros [? ?]; split; auto; lia.
Qed.

Lemma elapsed_max a b : elapsed a b = Z.max (instant a - instant b) 0.
Proof.
  unfold elapsed, dt_gtb, dt_sub. destruct (Z.ltb_spec (instant b) (instant a)); lia.
Qed.

Lemma elapsed_nonneg a b : 0 <= elapsed a b.
Proof. rewrite elapsed_max. lia. Qed.

(** *** Float rounding *)

Lemma round_half_even_spec (x : Q) :
  (Qabs (inject_Z (round_half_even x) - x) <= 1 # 2)%Q.
Proof.
  destruct x as [n d]. unfold round_half_even. simpl Qnum. simpl Qden.
  pose proof (Z.div_mod n (Zpos d) ltac:(done)) as Hdm.
  pose proof (Z.mod_pos_bound n (Zpos d) ltac:(done)) as Hr.
  set (q := n / Zpos d) in *. set (r := n mod Zpos d) in *.
  assert (forall m, 2 * Z.abs (m * Zpos d - n) <= Zpos d ->
                    (Qabs (inject_Z m - (n # d)) <= 1 # 2)%Q) as Hq.
  { intros m Hm. apply Qabs_Qle_condition. unfold Qle, Qminus, Qplus, Qopp, inject_Z.
    simpl. lia. }
  destruct (Z.compare_spec (2 * r) (Zpos d)) as [He|Hl|Hg].
  - destruct (Z.even q); apply Hq; lia.
  - apply Hq. lia.
  - apply Hq. lia.
Qed.

Lemma pow2_pos (e : Z) : (0 < 2 ^ e)%Q.
Proof. by apply Qpower_0_lt. Qed.

Lemma pow2_inject (a : Z) : 0 <= a -> (2 ^ a == inject_Z (2 ^ a))%Q.
Proof. intros Ha. by rewrite Zpower_Qpower. Qed.

(** [2 ^ floor_log2 q <= q] for a positive [q]. *)
Lemma floor_log2_le (q : Q) : (0 < q)%Q -> (2 ^ floor_log2 q <= q)%Q.
Proof.
  intros Hq. unfold floor_log2.
  destruct (Qle_bool _ q) eqn:Hb; [by apply Qle_bool_iff|].
  destruct q as [n d]. simpl Qnum in *. simpl Qden in *.
  assert (0 < n) as Hn by (unfold Qlt in Hq; simpl in Hq; lia).
  pose proof (Z.log2_spec n Hn) as [Ha _].
  pose proof (Z.log2_spec (Zpos d) ltac:(done)) as [_ Hd].
  pose proof (Z.log2_nonneg n) as Ha0.
  pose proof (Z.log2_nonneg (Zpos d)) as Hb0.
  set (a := Z.log2 n) in *. set (b := Z.log2 (Zpos d)) in *.
  replace (a - b - 1) with (a - Z.succ b) by lia.
  rewrite Qpower_minus by done.
  rewrite (pow2_inject a), (pow2_inject (Z.succ b)) by lia.
  apply Qle_shift_div_r.
  - change 0%Q with (inject_Z 0). rewrite <- Zlt_Qlt. lia.
  - unfold Qle, Qmult, inject_Z. simpl. nia.
Qed.

Lemma binary64_pos_error (q : Q) :
  (0 < q)%Q -> (Qabs (binary64_pos q - q) <= q * (1 # 2 ^ 53))%Q.
Proof.
  intros Hq. unfold binary64_pos.
  set (e := floor_log2 q - 52). set (P := (2 ^ e)%Q).
  assert (0 < P)%Q as HP by apply pow2_pos.
  pose proof (round_half_even_spec (q / P)) as Hr.
  set (m := inject_Z (round_half_even (q / P))) in *.
  assert (m * P - q == (m - q / P) * P)%Q as -> by (field; lra).
  rewrite Qabs_Qmult, (Qabs_pos P) by lra.
  assert (2 ^ 52 * P <= q)%Q as Hn.
  { unfold P. rewrite <- Qpower_plus by done.
    replace (52 + e) with (floor_log2 q) by (unfold e; lia).
    by apply floor_log2_le. }
  apply Qle_trans with ((1 # 2) * P)%Q.
  - apply Qmult_le_compat_r; [done|lra].
  - assert ((1 # 2) * P == 2 ^ 52 * P * (1 # 2 ^ 53))%Q as ->.
    { assert ((2:Q) ^ 52 * (1 # 2 ^ 53) == 1 # 2)%Q as H by reflexivity.
      rewrite <- H. ring. }
    apply Qmult_le_compat_r; [done|done].
Qed.

Lemma round_half_even_nonneg (x : Q) : (0 <= x)%Q -> 0 <= round_half_even x.
Proof.
  destruct x as [n d]. unfold Qle, round_half_even. simpl. intros Hn.
  assert (0 <= n / Zpos d) by (apply Z.div_pos; lia).
  destruct (_ ?= _); [destruct (Z.even _)|..]; lia.
Qed.

Lemma binary64_pos_nonneg (q : Q) : (0 < q)%Q -> (0 <= binary64_pos q)%Q.
Proof.
  intros Hq. unfold binary64_pos. apply Qmult_le_0_compat.
  - change 0%Q with (inject_Z 0). rewrite <- Zle_Qle.
    apply round_half_even_nonneg. apply Qle_shift_div_l; [apply pow2_pos|]. lra.
  - apply Qlt_le_weak, pow2_pos.
Qed.

Lemma binary64_nonneg (q : Q) : (0 <= q)%Q -> (0 <= binary64 q)%Q.
Proof.
  intros Hq. unfold binary64. destruct q as [[|n|n] d]; simpl.
  - done.
  - apply binary64_pos_nonneg. done.
  - unfold Qle in Hq. simpl in Hq. lia.
Qed.

Lemma binary64_error (q : Q) :
  (0 <= q)%Q -> (Qabs (binary64 q - q) <= q * (1 # 2 ^ 53))%Q.
Proof.
  intros Hq. unfold binary64. destruct q as [[|n|n] d]; simpl.
  - done.
  - apply binary64_pos_error. done.
  - unfold Qle in Hq. simpl in Hq. lia.
Qed.

Lemma total_days_nonneg td : 0 <= td -> (0 <= total_days td)%Q.
Proof.
  intros H. unfold total_days. apply binary64_nonneg.
  apply Qle_shift_div_l; [done|]. rewrite Qmult_0_l.
  apply binary64_nonneg. apply Qle_shift_div_l; [done|]. rewrite Qmult_0_l.
  change 0%Q with (inject_Z 0). by rewrite <- Zle_Qle.
Qed.

Lemma total_days_zero : (total_days 0 == 0)%Q.
Proof. vm_compute. reflexivity. Qed.

Lemma total_days_in_days td : 0 <= td -> in_days (total_days td) td.
Proof.
  intros H. unfold in_days, total_days.
  assert (0 <= inject_Z td)%Q as Ht
    by (change 0%Q with (inject_Z 0); by rewrite <- Zle_Qle).
  change (inject_Z 1000000) with 1000000%Q.
  change (inject_Z (24 * 3600)) with 86400%Q.
  set (s := (inject_Z td / 1000000)%Q).
  assert (0 <= s)%Q as Hs
    by (apply Qle_shift_div_l; [done|]; by rewrite Qmult_0_l).
  assert (inject_Z td == s * 1000000)%Q as Htd by (unfold s; field).
  pose proof (binary64_error s Hs) as H1.
  pose proof (binary64_nonneg s Hs) as H1p.
  set (r1 := binary64 s) in *.
  set (x := (r1 / 86400)%Q).
  assert (x * 86400 == r1)%Q as Hx by (unfold x; field).
  assert (0 <= x)%Q as Hxp
    by (apply Qle_shift_div_l; [done|]; by rewrite Qmult_0_l).
  pose proof (binary64_error x Hxp) as H2.
  set (r2 := binary64 x) in *.
  apply Qabs_Qle_condition in H1 as [H1a H1b].
  apply Qabs_Qle_condition in H2 as [H2a H2b].
  change (1 # 2 ^ 53) with (1 # 9007199254740992) in *.
  change (1 # 2 ^ 51) with (1 # 2251799813685248).
  rewrite Htd. apply Qabs_Qle_condition. split; lra.
Qed.

Lemma predecessor_Some l e p :
  predecessor l e = Some p ->
  p ∈ l /\ ev_to p = ev_from e /\ step p = step e - 1.
Proof.
  unfold predecessor. intros H%last_Some_elem_of.
  apply list_elem_of_In, List.filter_In in H as [Hin Hp].
  split; [by apply list_elem_of_In|]. by apply precedes_spec.
Qed.

Lemma predecessor_None l e :
  predecessor l e = None <->
  forall p, p ∈ l -> ~ (ev_to p = ev_from e /\ step p = step e - 1).
Proof.
  unfold predecessor. rewrite last_None. split.
  - intros H p Hin Hp. apply precedes_spec in Hp.
    assert (List.In p (List.filter (precedes (ev_from e) (step e)) l)) as Hf.
    { apply List.filter_In. split; [by apply list_elem_of_In | done]. }
    rewrite H in Hf. destruct Hf.
  - intros H. destruct (List.filter _ l) as [|p f] eqn:Hf; [done|].
    assert (List.In p (List.filter (precedes (ev_from e) (step e)) l)) as Hin.
    { rewrite Hf. by left. }
    apply List.filter_In in Hin as [Hin Hp].
    destruct (H p); [by apply list_elem_of_In | by apply precedes_spec].
Qed.

(** Some event of the list passes the test exactly when the scan finds one. *)
Lemma predecessor_is_Some l e :
  is_Some (predecessor l e) <->
  exists p, p ∈ l /\ ev_to p = ev_from e /\ step p = step e - 1.
Proof.
  split.
  - intros [p Hp]. exists p. by apply predecessor_Some.
  - intros (p & Hin & Hp). destruct (predecessor l e) eqn:E; [done|].
    rewrite predecessor_None in E. by destruct (E p Hin).
Qed.

Lemma duration_fill l e :
  duration (fill l e)
  = match predecessor l e with
    | Some p => Some (total_days (elapsed (timestamp e) (timestamp p)))
    | None => duration e
    end.
Proof. unfold fill. by destruct (predecessor l e). Qed.

(** The scan over the back-filled list is the scan over the emitted one. *)
Lemma predecessor_fmap_fill l e :
  predecessor (fill l <$> l) (fill l e) = fill l <$> predecessor l e.
Proof.
  unfold predecessor.
  pose proof (strip_eq_fields _ _ (strip_fill l e)) as (_ & _ & -> & -> & _).
  generalize (fill l) (strip_fill l). intros f Hf.
  rewrite <- last_fmap. f_equal.
  induction l as [|x l' IH]; [done|].
  rewrite fmap_cons. simpl.
  rewrite (precedes_strip _ _ (f x) x) by apply Hf.
  destruct (precedes _ _ x); [rewrite fmap_cons|]; by rewrite IH.
Qed.

(** The events of a back-filled list, seen from the emitted one. *)
Lemma elem_of_filled l e :
  e ∈ fill l <$> l -> exists e0, e0 ∈ l /\ e = fill l e0.
Proof. intros (e0 & -> & H)%list_elem_of_fmap. eauto. Qed.

(** ** Shape of every returned list *)

Lemma fmap_step_fill l (l' : list TransitionEvent) : step <$> (fill l <$> l') = step <$> l'.
Proof.
  rewrite <- list_fmap_compose. apply list_fmap_ext. intros i x _. simpl.
  by pose proof (strip_eq_fields _ _ (strip_fill l x)) as (_ & _ & -> & _).
Qed.

Lemma result_shape strptime issues first_step results k l :
  get_transitions strptime issues first_step = inr results ->
  results !! k = Some l ->
  exists l0,
    l = fill l0 <$> l0 /\
    Forall (fun e => duration e = None) l0 /\
    step <$> l = concat (block_steps <$> records_for k issues) /\
    k ∈ key <$> issues.
Proof.
  intros (kevs & Hk & Hl)%get_transitions_lookup Hr.
  rewrite Hl in Hr. destruct (decide (k ∈ key <$> issues)); [|done].
  injection Hr as <-. exists (raw_events k kevs). split; [done|].
  split; [by eapply all_events_raw_None|]. split; [|done].
  rewrite fmap_step_fill. by eapply all_events_raw_steps.
Qed.

(** The duration of a returned event is dictated by the last event of its
    list that the test accepts; with none, the key stays absent. *)
Lemma result_duration strptime issues first_step results k l e :
  get_transitions strptime issues first_step = inr results ->
  results !! k = Some l -> e ∈ l ->
  duration e
  = (fun p => total_days (elapsed (timestamp e) (timestamp p))) <$> predecessor l e.
Proof.
  intros Hg Hl He.
  destruct (result_shape _ _ _ _ _ _ Hg Hl) as (l0 & -> & Hraw & _).
  apply elem_of_filled in He as (e0 & He0 & ->).
  rewrite predecessor_fmap_fill, duration_fill.
  rewrite Forall_forall in Hraw. rewrite (Hraw _ He0).
  pose proof (strip_eq_fields _ _ (strip_fill l0 e0)) as (_ & -> & _).
  destruct (predecessor l0 e0) as [p|]; [|done]. simpl.
  by pose proof (strip_eq_fields _ _ (strip_fill l0 p)) as (_ & -> & _).
Qed.

Lemma zseq_NoDup len : forall n, NoDup (zseq n len).
Proof.
  induction len as [|len IH]; intros n; simpl; constructor; [|by apply IH].
  intros H%zseq_ge. lia.
Qed.

Lemma NoDup_fmap_inj {A B} (f : A -> B) (l : list A) x y :
  NoDup (f <$> l) -> x ∈ l -> y ∈ l -> f x = f y -> x = y.
Proof.
  intros Hnd [i Hi]%list_elem_of_lookup [j Hj]%list_elem_of_lookup Hf.
  assert (i = j) as ->; [|congruence].
  eapply (NoDup_lookup _ _ _ _ Hnd).
  - by rewrite list_lookup_fmap, Hi.
  - by rewrite list_lookup_fmap, Hj, Hf.
Qed.

(** A key with a single record has pairwise distinct step indices. *)
Lemma single_record_steps strptime issues first_step results k l :
  get_transitions strptime issues first_step = inr results ->
  results !! k = Some l ->
  length (records_for k issues) = 1%nat ->
  exists issue,
    records_for k issues = [issue] /\ step <$> l = block_steps issue.
Proof.
  intros Hg Hl Hone.
  destruct (result_shape _ _ _ _ _ _ Hg Hl) as (l0 & _ & _ & Hs & _).
  destruct (records_for k issues) as [|issue [|]]; try done.
  exists issue. split; [done|]. rewrite Hs. simpl. by rewrite app_nil_r.
Qed.

(** C1. After a successful call, an event of a returned list carries a
    duration exactly when some event of the same list has [to] equal to its
    [from] and a step one below its own; the duration is then
    [max (E.timestamp - P.timestamp, 0)] expressed in days for such a P, and
    for every such P when the key has a single record: the float that
    [total_seconds() / (24 * 3600)] yields for that difference, which is the
    difference in microseconds over 86400000000 to within a relative error
    of [2 ^ -51]; with no such P, or with label matches only at other step
    distances, there is no duration. *)
Theorem duration_iff_predecessor strptime issues first_step results k l e :
  get_transitions strptime issues first_step = inr results ->
  results !! k = Some l ->
  e ∈ l ->
  (is_Some (duration e) <-> exists p, p ∈ l /\ is_predecessor p e)
  /\ (forall d, duration e = Some d ->
        exists p, p ∈ l /\ is_predecessor p e /\
          d = total_days (Z.max (instant (timestamp e) - instant (timestamp p)) 0) /\
          in_days d (Z.max (instant (timestamp e) - instant (timestamp p)) 0))
  /\ ((forall p, p ∈ l -> ~ is_predecessor p e) -> duration e = None)
  /\ (length (records_for k issues) = 1%nat ->
      forall p, p ∈ l -> is_predecessor p e ->
        duration e
        = Some (total_days (Z.max (instant (timestamp e) - instant (timestamp p)) 0))
        /\ exists d, duration e = Some d /\
             in_days d (Z.max (instant (timestamp e) - instant (timestamp p)) 0)).
Proof.
  intros Hg Hl He. pose proof (result_duration _ _ _ _ _ _ _ Hg Hl He) as Hd.
  split; [split|split; [|split]].
  - intros Hsome. apply predecessor_is_Some. rewrite Hd in Hsome.
    by apply fmap_is_Some in Hsome.
  - intros Hex. rewrite Hd. apply fmap_is_Some. by apply predecessor_is_Some.
  - intros d Hsd. rewrite Hd in Hsd.
    destruct (predecessor l e) as [p|] eqn:Hp; [|done].
    injection Hsd as <-. exists p.
    apply predecessor_Some in Hp as (Hin & Hp). rewrite elapsed_max.
    split; [done|]. split; [done|]. split; [done|].
    apply total_days_in_days. lia.
  - intros Hno. rewrite Hd. by apply predecessor_None in Hno as ->.
  - intros Hone p Hin Hp.
    destruct (single_record_steps _ _ _ _ _ _ Hg Hl Hone) as (issue & _ & Hs).
    rewrite Hd. destruct (predecessor l e) as [p'|] eqn:Hp'.
    + apply predecessor_Some in Hp' as (Hin' & _ & Hs').
      assert (p' = p) as ->.
      { apply (NoDup_fmap_inj step l); [|done..|].
        - rewrite Hs. apply zseq_NoDup.
        - destruct Hp as [_ Hp]. congruence. }
      simpl. rewrite elapsed_max. split; [done|].
      eexists. split; [done|]. apply total_days_in_days. lia.
    + rewrite predecessor_None in Hp'. by destruct (Hp' p Hin).
Qed.

(** ** Closed examples *)

Module ExampleRuns.
Import Examples.

Example scenario_A :
  get_transitions RefParser.strptime [issue_A] "Open"
  = inr {[ "X-1"%string := [created_event] ]}.
Proof. vm_compute. reflexivity. Qed.

Example scenario_B :
  get_transitions RefParser.strptime [issue_B] "Open"
  = inr {[ "X-1"%string := [created_event; done_event] ]}.
Proof. vm_compute. reflexivity. Qed.

Example scenario_B_one_day : (total_days 86400000000 == 1)%Q.
Proof. vm_compute. reflexivity. Qed.

End ExampleRuns.

Lemma duration_iff_predecessor_witness :
  let l := [Examples.created_event; Examples.done_event] in
  let e := Examples.done_event in
  let results : gmap string (list TransitionEvent) := {[ "X-1"%string := l ]} in
  get_transitions RefParser.strptime [Examples.issue_B] "Open" = inr results
  /\ results !! "X-1"%string = Some l
  /\ e ∈ l
  /\ (is_Some (duration e) <-> exists p, p ∈ l /\ is_predecessor p e)
  /\ (forall d, duration e = Some d ->
        exists p, p ∈ l /\ is_predecessor p e /\
          d = total_days (Z.max (instant (timestamp e) - instant (timestamp p)) 0) /\
          in_days d (Z.max (instant (timestamp e) - instant (timestamp p)) 0))
  /\ ((forall p, p ∈ l -> ~ is_predecessor p e) -> duration e = None)
  /\ (length (records_for "X-1" [Examples.issue_B]) = 1%nat ->
      forall p, p ∈ l -> is_predecessor p e ->
        duration e
        = Some (total_days (Z.max (instant (timestamp e) - instant (timestamp p)) 0))
        /\ exists d, duration e = Some d /\
             in_days d (Z.max (instant (timestamp e) - instant (timestamp p)) 0)).
Proof.
  intros l e results.
  assert (get_transitions RefParser.strptime [Examples.issue_B] "Open" = inr results)
    as H1 by (vm_compute; reflexivity).
  assert (results !! "X-1"%string = Some l) as H2 by (vm_compute; reflexivity).
  assert (e ∈ l) as H3 by (apply list_elem_of_In; simpl; auto).
  split; [exact H1|]. split; [exact H2|]. split; [exact H3|].
  exact (duration_iff_predecessor _ _ _ _ _ _ _ H1 H2 H3).
Defined.

(** ** Step indices *)

Lemma zseq_Sorted len : forall n, Sorted Z.lt (zseq n len).
Proof.
  induction len as [|len IH]; intros n; simpl; constructor; [apply IH|].
  destruct len; simpl; constructor. lia.
Qed.

Section StepIndices.

Variable strptime : string -> option datetime.

(** C2, amended. For a record that is the only one of the input with its
    key, the returned list is numbered [0, ..., N-1] without gaps, N being
    one plus the number of ["status"] field changes over all entries of its
    changelog: one step per status change, none per entry. *)
Theorem step_indices_single_record issues first_step results issue :
  get_transitions strptime issues first_step = inr results ->
  issue ∈ issues ->
  records_for (key issue) issues = [issue] ->
  exists l, results !! key issue = Some l /\
            step <$> l = Z.of_nat <$> seq 0 (1 + status_changes issue).
Proof.
  intros Hg Hin Hone.
  destruct (get_transitions_lookup _ _ _ _ Hg) as (kevs & Hk & Hl).
  specialize (Hl (key issue)).
  rewrite decide_True in Hl by (apply list_elem_of_fmap; eauto).
  eexists. split; [exact Hl|].
  rewrite <- zseq_seq, fmap_step_fill, (all_events_raw_steps _ _ _ _ _ Hk), Hone.
  change (block_steps issue ++ [] = block_steps issue). apply app_nil_r.
Qed.

End StepIndices.

Module MoreRuns.
Import Examples MoreExamples.

Example twice_result :
  get_transitions RefParser.strptime twice "Open"
  = inr {[ "X-1"%string := [created_event; done_event; created_event; done_event] ]}.
Proof. vm_compute. reflexivity. Qed.

End MoreRuns.

Lemma step_indices_single_record_witness :
  let results : gmap string (list TransitionEvent) :=
    {[ "X-2"%string :=
         [ mk_event "Alice" Examples.t_created 0 "Create" "Open" None;
           mk_event "Bob" Examples.t_changed 1 "Open" "Doing"
             (Some (total_days 86400000000));
           mk_event "Bob" Examples.t_changed 2 "Doing" "Done"
             (Some (total_days 0)) ] ]} in
  get_transitions RefParser.strptime [MoreExamples.issue_multi] "Open" = inr results
  /\ MoreExamples.issue_multi ∈ [MoreExamples.issue_multi]
  /\ records_for "X-2" [MoreExamples.issue_multi] = [MoreExamples.issue_multi]
  /\ exists l, results !! "X-2"%string = Some l /\ step <$> l = [0; 1; 2].
Proof.
  intros results.
  assert (get_transitions RefParser.strptime [MoreExamples.issue_multi] "Open"
          = inr results) as H1 by (vm_compute; reflexivity).
  assert (MoreExamples.issue_multi ∈ [MoreExamples.issue_multi]) as H2
    by (apply list_elem_of_In; simpl; auto).
  assert (records_for "X-2" [MoreExamples.issue_multi] = [MoreExamples.issue_multi])
    as H3 by (vm_compute; reflexivity).
  split; [exact H1|]. split; [exact H2|]. split; [exact H3|].
  exact (step_indices_single_record RefParser.strptime _ _ _ _ H1 H2 H3).
Defined.

(** C2 as stated fails when a key occurs twice: the list under ["X-1"] is
    numbered 0, 1, 0, 1. *)
Lemma steps_contiguous_per_record_fails :
  ~ steps_contiguous_per_record RefParser.strptime MoreExamples.twice "Open".
Proof.
  intros H.
  destruct (H _ Examples.issue_B MoreRuns.twice_result) as (l & Hl & Hs).
  - apply list_elem_of_In. simpl. auto.
  - change (key Examples.issue_B) with "X-1"%string in Hl.
    rewrite lookup_singleton_eq in Hl. injection Hl as <-.
    vm_compute in Hs. discriminate Hs.
Qed.

(** ** The synthetic first event *)

Lemma raw_events_app k kevs1 kevs2 :
  raw_events k (kevs1 ++ kevs2) = raw_events k kevs1 ++ raw_events k kevs2.
Proof. unfold raw_events. by rewrite filter_app, fmap_app, concat_app. Qed.

Lemma records_for_app k l1 l2 :
  records_for k (l1 ++ l2) = records_for k l1 ++ records_for k l2.
Proof. apply filter_app. Qed.

Lemma block_steps_nonneg rs x : x ∈ concat (block_steps <$> rs) -> 0 <= x.
Proof.
  induction rs as [|r rs IH]; [by intros ?%elem_of_nil|].
  rewrite fmap_cons, concat_cons, elem_of_app. intros [H|H]; [|by apply IH].
  by apply zseq_ge in H.
Qed.

(** An event at step 0 has no predecessor among events at steps [>= 0]. *)
Lemma fill_step_zero l e :
  step e = 0 -> (forall p, p ∈ l -> 0 <= step p) -> fill l e = e.
Proof.
  intros He Hl. unfold fill.
  destruct (predecessor l e) as [p|] eqn:Hp; [|done].
  apply predecessor_Some in Hp as (Hin & _ & Hs). specialize (Hl p Hin). lia.
Qed.

Section FirstEvent.

Variable strptime : string -> option datetime.

(** C3. After a successful call, the first event a record contributed to
    the list under its key (the events of earlier records with that key come
    before it, its own status changes right after) has step 0, from
    ["Create"], to [first_step], the creator's display name, the parsed
    creation timestamp and no duration, whatever the changelog holds. *)
Theorem create_event_first issues first_step results pre issue post :
  get_transitions strptime issues first_step = inr results ->
  issues = pre ++ issue :: post ->
  exists a t l1 l2,
    creator issue = Some a /\
    strptime (created issue) = Some t /\
    results !! key issue
    = Some (l1 ++ {| author := a; timestamp := t; step := 0;
                     ev_from := "Create"; ev_to := first_step;
                     duration := None |} :: l2) /\
    step <$> l1 = concat (block_steps <$> records_for (key issue) pre) /\
    step <$> l2 = zseq 1 (status_changes issue)
                  ++ concat (block_steps <$> records_for (key issue) post).
Proof.
  intros Hg ->.
  destruct (get_transitions_lookup _ _ _ _ Hg) as (kevs & Hk & Hl).
  specialize (Hl (key issue)).
  rewrite decide_True in Hl
    by (rewrite fmap_app, elem_of_app; right; rewrite fmap_cons; apply list_elem_of_here).
  pose proof (all_events_raw_steps _ _ _ _ (key issue) Hk) as Hsteps.
  destruct (all_events_app _ _ _ _ _ Hk) as (kpre & kpost & -> & Hpre & Hpost).
  simpl in Hpost.
  destruct (issue_events strptime first_step issue) as [|evs] eqn:He; [done|].
  destruct (all_events strptime first_step post) as [|krest] eqn:Hrest; [done|].
  simpl in Hpost. injection Hpost as <-.
  destruct (issue_events_head _ _ _ _ He) as (a & t & rest & Ha & Ht & ->).
  pose proof (issue_events_steps _ _ _ _ He) as Hev.
  rewrite fmap_cons in Hev. simpl in Hev. injection Hev as Hrest_steps.
  set (c := {| author := a; timestamp := t; step := 0; ev_from := "Create";
               ev_to := first_step; duration := None |}) in *.
  set (l0 := raw_events (key issue) (kpre ++ (key issue, c :: rest) :: krest)) in *.
  assert (l0 = raw_events (key issue) kpre ++ c :: rest ++ raw_events (key issue) krest)
    as Hl0.
  { subst l0. by rewrite raw_events_app, raw_events_cons_eq. }
  exists a, t, (fill l0 <$> raw_events (key issue) kpre),
    (fill l0 <$> rest ++ raw_events (key issue) krest).
  split; [done|]. split; [done|]. split; [|split].
  - rewrite Hl. f_equal. rewrite Hl0 at 2. rewrite fmap_app, fmap_cons.
    f_equal. f_equal. apply fill_step_zero; [done|].
    intros p Hp. apply (block_steps_nonneg (records_for (key issue)
                                              (pre ++ issue :: post))).
    rewrite <- Hsteps. apply list_elem_of_fmap. eauto.
  - rewrite fmap_step_fill. by eapply all_events_raw_steps.
  - rewrite fmap_step_fill, fmap_app, Hrest_steps. f_equal.
    by eapply all_events_raw_steps.
Qed.

End FirstEvent.

Lemma create_event_first_witness :
  let results : gmap string (list TransitionEvent) :=
    {[ "X-1"%string := [Examples.created_event; Examples.done_event;
                        Examples.created_event; Examples.done_event] ]} in
  get_transitions RefParser.strptime MoreExamples.twice "Open" = inr results
  /\ MoreExamples.twice = [Examples.issue_B] ++ Examples.issue_B :: []
  /\ exists a t l1 l2,
       creator Examples.issue_B = Some a /\
       RefParser.strptime (created Examples.issue_B) = Some t /\
       results !! key Examples.issue_B
       = Some (l1 ++ {| author := a; timestamp := t; step := 0;
                        ev_from := "Create"; ev_to := "Open";
                        duration := None |} :: l2) /\
       step <$> l1
       = concat (block_steps <$> records_for (key Examples.issue_B) [Examples.issue_B]) /\
       step <$> l2 = zseq 1 (status_changes Examples.issue_B)
                     ++ concat (block_steps <$> records_for (key Examples.issue_B) []).
Proof.
  intros results. split; [exact MoreRuns.twice_result|]. split; [reflexivity|].
  exact (create_event_first RefParser.strptime _ _ _ [Examples.issue_B]
           Examples.issue_B [] MoreRuns.twice_result eq_refl).
Defined.

(** ** Durations are clamped at zero *)

Section Clamp.

Variable strptime : string -> option datetime.

(** C4. After a successful call every duration is non-negative, and an
    event whose matched predecessor (the one the scan settles on; with a
    single record under the key, any event the test accepts) is stamped
    strictly later than the event itself has duration exactly 0. *)
Theorem duration_nonneg_clamped issues first_step results k l e :
  get_transitions strptime issues first_step = inr results ->
  results !! k = Some l ->
  e ∈ l ->
  (forall d, duration e = Some d -> (0 <= d)%Q)
  /\ (forall p, predecessor l e = Some p ->
        instant (timestamp e) < instant (timestamp p) ->
        exists d, duration e = Some d /\ (d == 0)%Q)
  /\ (length (records_for k issues) = 1%nat ->
      forall p, p ∈ l -> is_predecessor p e ->
        instant (timestamp e) < instant (timestamp p) ->
        exists d, duration e = Some d /\ (d == 0)%Q).
Proof.
  intros Hg Hl He. pose proof (result_duration _ _ _ _ _ _ _ Hg Hl He) as Hd.
  assert (forall p, predecessor l e = Some p ->
            instant (timestamp e) < instant (timestamp p) ->
            exists d, duration e = Some d /\ (d == 0)%Q) as Hclamp.
  { intros p Hp Hlt. rewrite Hd, Hp. simpl. eexists. split; [done|].
    rewrite elapsed_max, Z.max_r by lia. apply total_days_zero. }
  split; [|split; [exact Hclamp|]].
  - intros d Hsd. rewrite Hd in Hsd.
    destruct (predecessor l e) as [p|]; [|done]. injection Hsd as <-.
    apply total_days_nonneg, elapsed_nonneg.
  - intros Hone p Hin Hp Hlt.
    destruct (single_record_steps _ _ _ _ _ _ Hg Hl Hone) as (issue & _ & Hs).
    destruct (predecessor l e) as [p'|] eqn:Hp'.
    + apply (Hclamp p'); [done|].
      apply predecessor_Some in Hp' as (Hin' & _ & Hs').
      assert (p' = p) as ->; [|done].
      apply (NoDup_fmap_inj step l); [|done..|].
      * rewrite Hs. apply zseq_NoDup.
      * destruct Hp as [_ Hp]. congruence.
    + rewrite predecessor_None in Hp'. by destruct (Hp' p Hin).
Qed.

End Clamp.

Module ClampRuns.
Import Examples ClampExample.

Example early_result :
  get_transitions RefParser.strptime [issue_early] "Open"
  = inr {[ "X-3"%string := early_events ]}.
Proof. vm_compute. reflexivity. Qed.

End ClampRuns.

Lemma duration_nonneg_clamped_witness :
  let l := ClampExample.early_events in
  let e := mk_event "Bob" Examples.t_created 1 "Open" "Done" (Some (total_days 0)) in
  let results : gmap string (list TransitionEvent) := {[ "X-3"%string := l ]} in
  get_transitions RefParser.strptime [ClampExample.issue_early] "Open" = inr results
  /\ results !! "X-3"%string = Some l
  /\ e ∈ l
  /\ predecessor l e = Some (mk_event "Alice" Examples.t_changed 0 "Create" "Open" None)
  /\ instant (timestamp e) < instant Examples.t_changed
  /\ (forall d, duration e = Some d -> (0 <= d)%Q)
  /\ exists d, duration e = Some d /\ (d == 0)%Q.
Proof.
  intros l e results.
  assert (results !! "X-3"%string = Some l) as H2 by (vm_compute; reflexivity).
  assert (e ∈ l) as H3 by (apply list_elem_of_In; simpl; auto).
  assert (predecessor l e
          = Some (mk_event "Alice" Examples.t_changed 0 "Create" "Open" None)) as H4
    by (vm_compute; reflexivity).
  assert (instant (timestamp e) < instant Examples.t_changed) as H5
    by (vm_compute; reflexivity).
  split; [exact ClampRuns.early_result|]. split; [exact H2|].
  split; [exact H3|]. split; [exact H4|]. split; [exact H5|].
  destruct (duration_nonneg_clamped RefParser.strptime _ _ _ _ _ _
              ClampRuns.early_result H2 H3) as (Hn & Hc & _).
  split; [exact Hn|]. exact (Hc _ H4 H5).
Defined.

(** ** When the call raises *)

Section Raising.

Variable strptime : string -> option datetime.

Lemma item_events_ok change its : forall n,
  (status_items its <> [] ->
   is_Some (change_author change) /\ is_Some (strptime (change_created change))) ->
  exists evs, item_events strptime change its n = inr evs.
Proof.
  induction its as [|it its IH]; intros n Hwf; simpl; [by eexists|].
  unfold status_items in Hwf. simpl in Hwf.
  destruct (String.eqb (field it) "status"); [|by apply IH].
  destruct Hwf as [[a Ha] [t Ht]]; [done|].
  unfold displayName, parse_timestamp. rewrite Ha, Ht. simpl.
  destruct (IH (n + 1)) as [rest Hr].
  { intros _. unfold is_Some. eauto. }
  unfold parse_timestamp in Hr. rewrite Hr. simpl. by eexists.
Qed.

Lemma item_events_err change its : forall n,
  change_author change = None \/ strptime (change_created change) = None ->
  status_items its <> [] ->
  exists e, item_events strptime change its n = inl e.
Proof.
  intros n Hbad. revert n.
  induction its as [|it its IH]; intros n Hne; simpl; [done|].
  unfold status_items in Hne. simpl in Hne.
  destruct (String.eqb (field it) "status"); [|by apply IH].
  unfold displayName, parse_timestamp.
  destruct Hbad as [-> | ->]; simpl; [by eexists|].
  destruct (change_author change); simpl; by eexists.
Qed.

Lemma item_events_input_error change its : forall n e,
  item_events strptime change its n = inl e -> input_error strptime e.
Proof.
  induction its as [|it its IH]; intros n e; simpl; [done|].
  destruct (String.eqb (field it) "status"); [|by apply IH].
  unfold displayName, parse_timestamp.
  destruct (change_author change); simpl; [|intros [= <-]; by left].
  destruct (strptime (change_created change)) eqn:Hp; simpl.
  - destruct (item_events _ _ _ _) as [e'|] eqn:Hr; [|done]. simpl.
    intros [= <-]. by eapply IH.
  - intros [= <-]. right. eauto.
Qed.

Lemma history_events_ok hs : forall n,
  Forall (well_formed_change strptime) hs ->
  exists evs, history_events strptime hs n = inr evs.
Proof.
  induction hs as [|h hs IH]; intros n Hwf; simpl; [by eexists|].
  apply Forall_cons in Hwf as [Hh Hhs].
  destruct (item_events_ok h (items h) n Hh) as [evs ->]. simpl.
  destruct (IH (n + Z.of_nat (length evs)) Hhs) as [rest ->]. simpl. by eexists.
Qed.

Lemma history_events_err hs : forall n,
  Exists (malformed_change strptime) hs ->
  exists e, history_events strptime hs n = inl e.
Proof.
  induction hs as [|h hs IH]; intros n Hex; [by apply Exists_nil in Hex|].
  simpl. apply Exists_cons in Hex as [Hh|Hhs].
  - destruct Hh as [Hne Hbad].
    destruct (item_events_err h (items h) n Hbad Hne) as [e ->]. by eexists.
  - destruct (item_events _ h _ _) as [|evs]; simpl; [by eexists|].
    destruct (IH (n + Z.of_nat (length evs)) Hhs) as [e ->]. by eexists.
Qed.

Lemma history_events_input_error hs : forall n e,
  history_events strptime hs n = inl e -> input_error strptime e.
Proof.
  induction hs as [|h hs IH]; intros n e; simpl; [done|].
  destruct (item_events _ h _ _) as [e'|evs] eqn:Hi; simpl.
  - intros [= <-]. by eapply item_events_input_error.
  - destruct (history_events _ _ _) as [e'|] eqn:Hr; [|done]. simpl.
    intros [= <-]. by eapply IH.
Qed.

Lemma issue_events_ok first_step issue :
  well_formed_issue strptime issue ->
  exists evs, issue_events strptime first_step issue = inr evs.
Proof.
  intros ([a Ha] & [t Ht] & Hh). unfold issue_events, displayName, parse_timestamp.
  rewrite Ha, Ht. simpl.
  destruct (history_events_ok _ 1 Hh) as [evs ->]. simpl. by eexists.
Qed.

Lemma issue_events_err first_step issue :
  malformed_issue strptime issue ->
  exists e, issue_events strptime first_step issue = inl e.
Proof.
  unfold issue_events, displayName, parse_timestamp.
  intros [-> | [-> | Hh]]; simpl; [by eexists| |].
  - destruct (creator issue); simpl; by eexists.
  - destruct (creator issue); simpl; [|by eexists].
    destruct (strptime (created issue)); simpl; [|by eexists].
    destruct (history_events_err _ 1 Hh) as [e ->]. by eexists.
Qed.

Lemma issue_events_input_error first_step issue e :
  issue_events strptime first_step issue = inl e -> input_error strptime e.
Proof.
  unfold issue_events, displayName, parse_timestamp.
  destruct (creator issue); simpl; [|intros [= <-]; by left].
  destruct (strptime (created issue)) eqn:Hp; simpl; [|intros [= <-]; right; eauto].
  destruct (history_events _ _ _) as [e'|] eqn:Hr; [|done]. simpl.
  intros [= <-]. by eapply history_events_input_error.
Qed.

(** The call returns on every input whose records are well formed. *)
Lemma get_transitions_ok issues first_step :
  Forall (well_formed_issue strptime) issues ->
  exists results, get_transitions strptime issues first_step = inr results.
Proof.
  intros Hwf. rewrite get_transitions_absorb.
  assert (exists kevs, all_events strptime first_step issues = inr kevs) as [kevs ->].
  { induction Hwf as [|issue issues Hi _ IH]; simpl; [by eexists|].
    destruct (issue_events_ok first_step issue Hi) as [evs ->]. simpl.
    destruct IH as [rest ->]. simpl. by eexists. }
  simpl. by eexists.
Qed.

(** C8, amended. If some record lacks the creator's display name or has a
    creation timestamp that does not parse, or has a changelog entry with at
    least one status change whose author's display name is missing or whose
    timestamp does not parse, the call raises: it returns no mapping, and
    the exception is the [KeyError] of the missing name or the [ValueError]
    of a string that does not parse. *)
Theorem malformed_input_raises issues first_step :
  Exists (malformed_issue strptime) issues ->
  exists e, get_transitions strptime issues first_step = inl e /\ input_error strptime e.
Proof.
  intros Hex. rewrite get_transitions_absorb.
  assert (exists e, all_events strptime first_step issues = inl e) as [e He].
  { induction Hex as [issue issues Hi|issue issues _ IH]; simpl.
    - destruct (issue_events_err first_step issue Hi) as [e ->]. by eexists.
    - destruct (issue_events _ _ issue); simpl; [by eexists|].
      destruct IH as [e ->]. by eexists. }
  rewrite He. exists e. split; [done|].
  clear Hex. revert e He. induction issues as [|issue issues IH]; intros e; simpl; [done|].
  destruct (issue_events _ _ issue) as [e'|evs] eqn:Hi; simpl.
  - intros [= <-]. by eapply issue_events_input_error.
  - destruct (all_events _ _ issues) as [e'|]; [|done]. simpl.
    intros [= <-]. by apply IH.
Qed.

End Raising.

Section Orphans.

Variable strptime : string -> option datetime.

(** C5. On an input whose records are well formed the call returns, and in
    what it returns an event for which no event of its list has [to] equal
    to its [from] at the step just below carries no duration: a missing
    predecessor is not an error. *)
Theorem orphan_has_no_duration issues first_step :
  Forall (well_formed_issue strptime) issues ->
  exists results,
    get_transitions strptime issues first_step = inr results /\
    forall k l e,
      results !! k = Some l -> e ∈ l ->
      (forall p, p ∈ l -> ~ is_predecessor p e) ->
      duration e = None.
Proof.
  intros Hwf. destruct (get_transitions_ok _ _ first_step Hwf) as [results Hg].
  exists results. split; [done|]. intros k l e Hl He Hno.
  rewrite (result_duration _ _ _ _ _ _ _ Hg Hl He).
  by apply predecessor_None in Hno as ->.
Qed.

End Orphans.

Module RaisingRuns.
Import Examples RaisingExamples.

Example orphan_result :
  get_transitions RefParser.strptime [issue_orphan] "Open"
  = inr {[ "X-4"%string :=
             [ mk_event "Alice" t_created 0 "Create" "Open" None;
               mk_event "Bob" t_changed 1 "Review" "Done" None ] ]}.
Proof. vm_compute. reflexivity. Qed.

Example far_result :
  get_transitions RefParser.strptime [issue_far] "Open"
  = inr {[ "X-5"%string :=
             [ mk_event "Alice" t_created 0 "Create" "Open" None;
               mk_event "Bob" t_changed 1 "Review" "Doing" None;
               mk_event "Bob" t_changed 2 "Open" "Done" None ] ]}.
Proof. vm_compute. reflexivity. Qed.

Example unread_result :
  get_transitions RefParser.strptime [issue_unread] "Open"
  = inr {[ "X-6"%string := [ mk_event "Alice" t_created 0 "Create" "Open" None ] ]}.
Proof. vm_compute. reflexivity. Qed.

Example bad_result :
  get_transitions RefParser.strptime [issue_bad] "Open" = inl (ValueError "yesterday").
Proof. vm_compute. reflexivity. Qed.

End RaisingRuns.

Lemma orphan_has_no_duration_witness :
  Forall (well_formed_issue RefParser.strptime) [RaisingExamples.issue_orphan]
  /\ exists results,
       get_transitions RefParser.strptime [RaisingExamples.issue_orphan] "Open"
       = inr results /\
       forall k l e,
         results !! k = Some l -> e ∈ l ->
         (forall p, p ∈ l -> ~ is_predecessor p e) ->
         duration e = None.
Proof.
  assert (Forall (well_formed_issue RefParser.strptime) [RaisingExamples.issue_orphan])
    as H.
  { constructor; [|constructor].
    split; [by eexists|]. split; [by eexists|].
    constructor; [|constructor]. intros _. split; by eexists. }
  split; [exact H|].
  exact (orphan_has_no_duration RefParser.strptime _ "Open" H).
Defined.

Lemma malformed_input_raises_witness :
  Exists (malformed_issue RefParser.strptime) [RaisingExamples.issue_bad]
  /\ exists e,
       get_transitions RefParser.strptime [RaisingExamples.issue_bad] "Open" = inl e
       /\ input_error RefParser.strptime e.
Proof.
  assert (Exists (malformed_issue RefParser.strptime) [RaisingExamples.issue_bad])
    as H.
  { constructor. right. right. constructor. split; [done|]. by right. }
  split; [exact H|].
  exact (malformed_input_raises RefParser.strptime _ "Open" H).
Defined.

(** C8 as stated fails on an entry that has no status change: its
    timestamp and its author are never read. *)
Lemma raises_on_any_bad_field_fails :
  ~ raises_on_any_bad_field RefParser.strptime [RaisingExamples.issue_unread] "Open".
Proof.
  intros H. destruct H as [e He].
  - exists RaisingExamples.issue_unread. split; [apply list_elem_of_here|].
    right. right. eexists. split; [apply list_elem_of_here|]. by left.
  - rewrite RaisingRuns.unread_result in He. discriminate He.
Qed.

(** ** Keys, order and repeated keys *)

Lemma filter_zero_zseq len : forall n,
  0 < n -> filter (fun s => s = 0) (zseq n len) = [].
Proof.
  induction len as [|len IH]; intros n Hn; simpl; [done|].
  rewrite filter_cons_False by lia. apply IH. lia.
Qed.

Lemma filter_zero_blocks rs :
  length (filter (fun s => s = 0) (concat (block_steps <$> rs))) = length rs.
Proof.
  induction rs as [|r rs IH]; [done|].
  rewrite fmap_cons, concat_cons, filter_app, length_app, IH.
  change (block_steps r) with (0 :: zseq 1 (status_changes r)).
  rewrite filter_cons_True by done. by rewrite filter_zero_zseq.
Qed.

Lemma blocks_repeat rs :
  (2 <= length rs)%nat -> ~ NoDup (concat (block_steps <$> rs)).
Proof.
  destruct rs as [|r1 [|r2 rs]]; simpl; [lia..|]. intros _ Hnd.
  apply NoDup_cons_1_1 in Hnd. apply Hnd.
  rewrite elem_of_app. right. apply list_elem_of_here.
Qed.

Lemma records_for_nonempty k issues :
  k ∈ key <$> issues -> records_for k issues <> [].
Proof.
  intros (issue & -> & Hin)%list_elem_of_fmap Hnil.
  assert (issue ∈ records_for (key issue) issues) as H
    by (by apply list_elem_of_filter).
  rewrite Hnil in H. by apply elem_of_nil in H.
Qed.

Section Entries.

Variable strptime : string -> option datetime.

Lemma issue_events_step_zero first_step issue evs e :
  issue_events strptime first_step issue = inr evs ->
  e ∈ evs -> step e = 0 ->
  ev_from e = "Create"%string /\ ev_to e = first_step.
Proof.
  intros He Hin Hz.
  pose proof (issue_events_steps _ _ _ _ He) as Hs.
  destruct (issue_events_head _ _ _ _ He) as (a & t & rest & _ & _ & ->).
  rewrite fmap_cons in Hs. simpl in Hs. injection Hs as Hs.
  apply elem_of_cons in Hin as [->|Hin]; [done|].
  assert (step e ∈ zseq (0 + 1) (status_changes issue)) as Hge.
  { rewrite <- Hs. apply list_elem_of_fmap. eauto. }
  apply zseq_ge in Hge. lia.
Qed.

Lemma all_events_step_zero first_step issues : forall kevs k e,
  all_events strptime first_step issues = inr kevs ->
  e ∈ raw_events k kevs -> step e = 0 ->
  ev_from e = "Create"%string /\ ev_to e = first_step.
Proof.
  induction issues as [|issue issues IH]; intros kevs k e; simpl.
  - intros [= <-]. by intros ?%elem_of_nil.
  - destruct (issue_events _ _ _) as [|evs] eqn:He; [done|]. simpl.
    destruct (all_events _ _ _) as [|rest] eqn:Hr; [done|]. simpl.
    intros [= <-]. destruct (decide (key issue = k)) as [<-|Hk].
    + rewrite raw_events_cons_eq, elem_of_app. intros [Hin|Hin] Hz.
      * by eapply issue_events_step_zero.
      * by eapply IH.
    + rewrite raw_events_cons_ne by done. by apply IH.
Qed.

(** The emitted events under [k], record by record. *)
Lemma all_events_records first_step issues : forall kevs k,
  all_events strptime first_step issues = inr kevs ->
  exists evss,
    Forall2 (fun issue evs => issue_events strptime first_step issue = inr evs)
            (records_for k issues) evss /\
    raw_events k kevs = concat evss.
Proof.
  induction issues as [|issue issues IH]; intros kevs k; simpl.
  - intros [= <-]. exists []. split; [constructor | done].
  - destruct (issue_events _ _ _) as [|evs] eqn:He; [done|]. simpl.
    destruct (all_events _ _ _) as [|rest] eqn:Hr; [done|]. simpl.
    intros [= <-]. destruct (IH rest k eq_refl) as (evss & HF & Hc).
    unfold records_for. destruct (decide (key issue = k)) as [<-|Hk].
    + rewrite raw_events_cons_eq, filter_cons_True by done.
      exists (evs :: evss). split; [by constructor|]. by rewrite Hc.
    + rewrite raw_events_cons_ne, filter_cons_False by done. by exists evss.
Qed.

Lemma strip_filled l0 :
  Forall (fun e => duration e = None) l0 -> strip <$> (fill l0 <$> l0) = l0.
Proof.
  intros Hraw. rewrite <- list_fmap_compose. rewrite <- (list_fmap_id l0) at 3.
  apply list_fmap_ext. intros i x Hx. simpl. rewrite strip_fill.
  apply strip_id. rewrite Forall_forall in Hraw. apply Hraw.
  by eapply list_elem_of_lookup_2.
Qed.

(** C6, amended. The call on the empty sequence returns the empty mapping.
    A returned mapping has exactly the keys of the input; each value is
    non-empty and holds, in encounter order, the step indices
    [0, ..., status_changes] of each record with that key, so that it is in
    strictly ascending order of step when a single record carries the key. *)
Theorem result_entries first_step :
  get_transitions strptime [] first_step = inr ∅
  /\ forall issues results,
       get_transitions strptime issues first_step = inr results ->
       dom results = list_to_set (key <$> issues) /\
       forall k l,
         results !! k = Some l ->
         l <> [] /\
         step <$> l = concat (block_steps <$> records_for k issues) /\
         (length (records_for k issues) = 1%nat -> Sorted Z.lt (step <$> l)).
Proof.
  split; [done|]. intros issues results Hg. split.
  - destruct (get_transitions_lookup _ _ _ _ Hg) as (kevs & _ & Hl).
    apply set_eq. intros k.
    rewrite elem_of_dom, elem_of_list_to_set, Hl.
    destruct (decide (k ∈ key <$> issues)) as [Hin|Hin].
    + split; [done|]. intros _. by eexists.
    + split; [|done]. by intros [? ?].
  - intros k l Hl.
    destruct (result_shape _ _ _ _ _ _ Hg Hl) as (l0 & _ & _ & Hs & Hin).
    split; [|split; [done|]].
    + intros ->. apply records_for_nonempty in Hin.
      destruct (records_for k issues); [done|]. discriminate Hs.
    + intros Hone.
      destruct (single_record_steps _ _ _ _ _ _ Hg Hl Hone) as (issue & _ & ->).
      apply zseq_Sorted.
Qed.

(** C9. After a successful call the list under a key is the concatenation,
    in encounter order, of what each record with that key emits: the step
    indices restart at 0 for each record, there is one step-0 event per
    record and each is a ["Create"] event; with two or more records the
    steps repeat and are not [0, ..., n-1] for any [n]. *)
Theorem repeated_key_concatenates issues first_step results k l :
  get_transitions strptime issues first_step = inr results ->
  results !! k = Some l ->
  (exists evss,
      Forall2 (fun issue evs => issue_events strptime first_step issue = inr evs)
              (records_for k issues) evss /\
      strip <$> l = concat evss)
  /\ step <$> l = concat (block_steps <$> records_for k issues)
  /\ length (filter (fun s => s = 0) (step <$> l)) = length (records_for k issues)
  /\ (forall e, e ∈ l -> step e = 0 ->
        ev_from e = "Create"%string /\ ev_to e = first_step)
  /\ ((2 <= length (records_for k issues))%nat ->
      ~ NoDup (step <$> l) /\ forall n, step <$> l <> zseq 0 n).
Proof.
  intros Hg Hl.
  destruct (get_transitions_lookup _ _ _ _ Hg) as (kevs & Hk & Hlk).
  destruct (result_shape _ _ _ _ _ _ Hg Hl) as (l0 & Hl0 & _ & Hs & Hin).
  rewrite Hlk, decide_True in Hl by done. injection Hl as <-.
  pose proof (all_events_raw_None _ _ _ _ k Hk) as Hraw.
  split; [|split; [done|split; [|split]]].
  - destruct (all_events_records _ _ _ k Hk) as (evss & HF & Hc).
    exists evss. split; [done|]. by rewrite strip_filled.
  - rewrite Hs. apply filter_zero_blocks.
  - intros e (e0 & He0 & ->)%elem_of_filled Hz.
    pose proof (strip_eq_fields _ _ (strip_fill (raw_events k kevs) e0))
      as (_ & _ & Hst & -> & ->).
    rewrite Hst in Hz. by eapply all_events_step_zero.
  - intros Htwo. assert (~ NoDup (step <$> (fill (raw_events k kevs) <$> raw_events k kevs)))
      as Hnd by (rewrite Hs; by apply blocks_repeat).
    split; [done|]. intros n Hn. apply Hnd. rewrite Hn. apply zseq_NoDup.
Qed.

End Entries.

Lemma result_entries_witness :
  let results : gmap string (list TransitionEvent) :=
    {[ "X-1"%string := [Examples.created_event; Examples.done_event] ]} in
  get_transitions RefParser.strptime [Examples.issue_B] "Open" = inr results
  /\ dom results = list_to_set (key <$> [Examples.issue_B])
  /\ forall k l,
       results !! k = Some l ->
       l <> [] /\
       step <$> l = concat (block_steps <$> records_for k [Examples.issue_B]) /\
       (length (records_for k [Examples.issue_B]) = 1%nat -> Sorted Z.lt (step <$> l)).
Proof.
  intros results. split; [exact ExampleRuns.scenario_B|].
  exact (proj2 (result_entries RefParser.strptime "Open") _ _ ExampleRuns.scenario_B).
Defined.

(** C6 as stated fails when a key occurs twice: the steps under ["X-1"]
    read 0, 1, 0, 1. *)
Lemma entries_sorted_by_step_fails :
  ~ entries_sorted_by_step RefParser.strptime MoreExamples.twice "Open".
Proof.
  intros H. destruct (H _ MoreRuns.twice_result) as [_ Hs].
  destruct (Hs "X-1"%string _ (lookup_singleton_eq _ _)) as [_ Hsorted].
  vm_compute in Hsorted.
  inversion Hsorted as [|? ? Hs1 _]. inversion Hs1 as [|? ? _ Hrel].
  inversion Hrel as [|? ? Hle]. by apply Hle.
Qed.

Lemma repeated_key_concatenates_witness :
  let l := [Examples.created_event; Examples.done_event;
            Examples.created_event; Examples.done_event] in
  let results : gmap string (list TransitionEvent) := {[ "X-1"%string := l ]} in
  get_transitions RefParser.strptime MoreExamples.twice "Open" = inr results
  /\ results !! "X-1"%string = Some l
  /\ (2 <= length (records_for "X-1" MoreExamples.twice))%nat
  /\ step <$> l = [0; 1; 0; 1]
  /\ ~ NoDup (step <$> l).
Proof.
  intros l results.
  assert (results !! "X-1"%string = Some l) as H2 by apply lookup_singleton_eq.
  assert (2 <= length (records_for "X-1" MoreExamples.twice))%nat as H3
    by (vm_compute; lia).
  split; [exact MoreRuns.twice_result|]. split; [exact H2|]. split; [exact H3|].
  destruct (repeated_key_concatenates RefParser.strptime _ _ _ _ _
              MoreRuns.twice_result H2) as (_ & Hs & _ & _ & Hrep).
  split; [exact Hs|]. exact (proj1 (Hrep H3)).
Defined.

(** ** Reasoning about the store *)

Module HeapFacts.
Import Heap HeapSpec.
Local Open Scope nat_scope.

Lemma hoare_ret {A} (P : heap -> Prop) (a : A) Q E :
  (forall h, P h -> Q a h) -> hoare P (mret a) Q E.
Proof. intros H h HP. by apply H. Qed.

Lemma hoare_raise {A} (P : heap -> Prop) e (Q : A -> heap -> Prop) E :
  (forall h, P h -> E e h) -> hoare P (mraise e) Q E.
Proof. intros H h HP. by apply H. Qed.

Lemma hoare_bind {A B} P (m : M A) (k : A -> M B) R Q E :
  hoare P m R E -> (forall a, hoare (R a) (k a) Q E) -> hoare P (mbind m k) Q E.
Proof.
  intros Hm Hk h HP. unfold mbind. specialize (Hm h HP).
  destruct (m h) as [h' [e|a]]; [done|]. by apply Hk.
Qed.

Lemma hoare_conseq {A} (P P' : heap -> Prop) (m : M A) (Q Q' : A -> heap -> Prop) E :
  (forall h, P' h -> P h) -> (forall a h, Q a h -> Q' a h) ->
  hoare P m Q E -> hoare P' m Q' E.
Proof.
  intros HP HQ Hm h Hh. specialize (Hm h (HP h Hh)).
  destruct (m h) as [h' [e|a]]; [done|]. by apply HQ.
Qed.

Lemma hoare_for_ {A} (I : heap -> Prop) (xs : list A) body E :
  (forall x, x ∈ xs -> hoare I (body x) (fun _ => I) E) ->
  hoare I (for_ xs body) (fun _ => I) E.
Proof.
  induction xs as [|x xs IH]; intros Hb; simpl.
  - by apply hoare_ret.
  - eapply hoare_bind.
    + apply Hb. apply list_elem_of_here.
    + intros u. apply IH. intros y Hy. apply Hb. by apply list_elem_of_further.
Qed.

Lemma hoare_for_with {A S} (I : heap -> Prop) (xs : list A) body (st : S) E :
  (forall x st, x ∈ xs -> hoare I (body x st) (fun _ => I) E) ->
  hoare I (for_with xs body st) (fun _ => I) E.
Proof.
  revert st. induction xs as [|x xs IH]; intros st Hb; simpl.
  - by apply hoare_ret.
  - eapply hoare_bind.
    + apply Hb. apply list_elem_of_here.
    + intros st'. apply IH. intros y st'' Hy. apply Hb. by apply list_elem_of_further.
Qed.

Lemma hoare_reads {A} (P : heap -> Prop) (m : M A) F E :
  reads m F -> (forall e h, P h -> E e h) ->
  hoare P m (fun a h => P h /\ F a h) E.
Proof.
  intros Hm HE h HP. destruct (Hm h) as (r & -> & HF).
  destruct r; [by apply HE | done].
Qed.

Lemma reads_deref v :
  reads (deref v) (fun o h => exists l, v = VRef l /\ h !! l = Some o).
Proof.
  intros h. unfold deref. destruct v; try by eexists.
  destruct (h !! l) eqn:Hl; eexists; (split; [done|]); simpl; eauto.
Qed.

Lemma reads_getitem v k :
  reads (getitem v k)
        (fun x h => exists l d, v = VRef l /\ h !! l = Some (ODict d) /\ d !! k = Some x).
Proof.
  intros h. unfold getitem, mbind. destruct (reads_deref v h) as (r & -> & Hr).
  destruct r as [e|[d|vs]]; try by eexists.
  destruct Hr as (l & -> & Hl).
  destruct (d !! k) eqn:Hk; eexists; (split; [done|]); simpl; eauto.
Qed.

Lemma reads_contains v k :
  reads (contains v k)
        (fun b h => exists l d, v = VRef l /\ h !! l = Some (ODict d) /\
                                b = bool_decide (is_Some (d !! k))).
Proof.
  intros h. unfold contains, mbind. destruct (reads_deref v h) as (r & -> & Hr).
  destruct r as [e|[d|vs]]; try by eexists.
  destruct Hr as (l & -> & Hl). eexists; (split; [done|]); simpl; eauto.
Qed.

Lemma reads_elements v :
  reads (elements v) (fun vs h => exists l, v = VRef l /\ h !! l = Some (OList vs)).
Proof.
  intros h. unfold elements, mbind. destruct (reads_deref v h) as (r & -> & Hr).
  destruct r as [e|[d|vs]]; by eexists.
Qed.

Lemma reads_as_key v : reads (as_key v) (fun s _ => v = VStr s).
Proof. intros h. destruct v; by eexists. Qed.

Lemma reads_py_eq a b : reads (py_eq a b) (fun _ _ => True).
Proof. intros h. destruct a, b; by eexists. Qed.

Lemma reads_py_succ a : reads (py_succ a) (fun _ _ => True).
Proof. intros h. destruct a; by eexists. Qed.

Lemma reads_py_strptime strptime v : reads (py_strptime strptime v) (fun _ _ => True).
Proof.
  intros h. unfold py_strptime. destruct v; try by eexists.
  destruct (strptime s); by eexists.
Qed.

Lemma reads_py_duration a b : reads (py_duration a b) (fun _ _ => True).
Proof. intros h. destruct a, b; by eexists. Qed.

(** *** What the call owns *)

Lemma unchanged_refl h : unchanged h h.
Proof. by intros l o. Qed.

Lemma unchanged_trans h0 h1 h2 : unchanged h0 h1 -> unchanged h1 h2 -> unchanged h0 h2.
Proof. intros H1 H2 l o Hl. by apply H2, H1. Qed.

Lemma unchanged_alloc h o : unchanged h (h ++ [o]).
Proof. intros l o' Hl. by apply lookup_app_l_Some. Qed.

Lemma unchanged_insert h0 h (l : loc) o :
  unchanged h0 h -> length h0 <= l -> unchanged h0 (<[l := o]> h).
Proof.
  intros Hu Hl l' o' Hl'. rewrite list_lookup_insert_ne; [by apply Hu|].
  apply lookup_lt_Some in Hl'. lia.
Qed.

Lemma owned_unchanged h0 r h : owned h0 r h -> unchanged h0 h.
Proof. by intros [? _]. Qed.

Lemma owned_init h0 : owned h0 (length h0) (h0 ++ [ODict ∅]).
Proof.
  split; [apply unchanged_alloc|]. split; [done|]. split.
  - exists ∅. split; [by apply list_lookup_middle|]. intros k v Hk.
    by rewrite lookup_empty in Hk.
  - intros ll vs Hlt Hll. apply lookup_lt_Some in Hll.
    rewrite length_app in Hll. simpl in Hll. lia.
Qed.

Lemma owned_alloc h0 r h o :
  owned h0 r h -> (forall vs, o = OList vs -> vs = []) ->
  owned h0 r (h ++ [o]) /\ r < length h.
Proof.
  intros (Hu & Hr & (d & Hd & Hvals) & Hlists) Ho.
  assert (r < length h) as Hlt by (by apply lookup_lt_Some in Hd).
  split; [|done]. split; [|split; [done|split]].
  - eapply unchanged_trans; [done|apply unchanged_alloc].
  - exists d. split; [by apply lookup_app_l_Some | done].
  - intros ll vs Hll Hlk x Hx.
    destruct (decide (ll < length h)) as [Hin|Hout].
    + rewrite lookup_app_l in Hlk by done. by eapply Hlists.
    + assert (ll = length h) as ->.
      { apply lookup_lt_Some in Hlk. rewrite length_app in Hlk. simpl in Hlk. lia. }
      rewrite list_lookup_middle in Hlk by done. injection Hlk as ->.
      rewrite (Ho vs eq_refl) in Hx. by apply elem_of_nil in Hx.
Qed.

Lemma owned_setitem_results h0 r h d k (ll : loc) :
  owned h0 r h -> h !! r = Some (ODict d) -> r < ll ->
  owned h0 r (<[r := ODict (<[k := VRef ll]> d)]> h).
Proof.
  intros (Hu & Hr & (d' & Hd & Hvals) & Hlists) Hd' Hll.
  assert (d' = d) as -> by congruence.
  assert (r < length h) as Hlt by (by apply lookup_lt_Some in Hd).
  split; [by apply unchanged_insert|]. split; [done|]. split.
  - eexists. split; [by apply list_lookup_insert_eq|]. intros k' v.
    rewrite lookup_insert. case_decide; [|by apply Hvals].
    intros [= <-]. eauto.
  - intros ll' vs Hlt' Hlk. rewrite list_lookup_insert_ne in Hlk by lia.
    by eapply Hlists.
Qed.

Lemma owned_append h0 r h (ll l : loc) vs :
  owned h0 r h -> r < ll -> r < l -> h !! ll = Some (OList vs) ->
  owned h0 r (<[ll := OList (vs ++ [VRef l])]> h).
Proof.
  intros (Hu & Hr & (d & Hd & Hvals) & Hlists) Hll Hl Hvs.
  split; [apply unchanged_insert; [done|lia]|]. split; [done|]. split.
  - exists d. split; [|done]. rewrite list_lookup_insert_ne by lia. done.
  - intros ll' vs' Hlt' Hlk x Hx. destruct (decide (ll' = ll)) as [->|Hne].
    + rewrite list_lookup_insert_eq in Hlk by (by apply lookup_lt_Some in Hvs).
      injection Hlk as <-. apply elem_of_app in Hx as [Hx|Hx].
      * by eapply Hlists.
      * apply list_elem_of_singleton in Hx as ->. eauto.
    + rewrite list_lookup_insert_ne in Hlk by done. by eapply Hlists.
Qed.

Lemma owned_setitem_event h0 r h (l : loc) d d' :
  owned h0 r h -> r < l -> h !! l = Some (ODict d) ->
  owned h0 r (<[l := ODict d']> h).
Proof.
  intros (Hu & Hr & (dr & Hd & Hvals) & Hlists) Hl Hdl.
  split; [apply unchanged_insert; [done|lia]|]. split; [done|]. split.
  - exists dr. split; [|done]. rewrite list_lookup_insert_ne by lia. done.
  - intros ll vs Hlt Hlk x Hx. destruct (decide (ll = l)) as [->|Hne].
    + rewrite list_lookup_insert_eq in Hlk by (by apply lookup_lt_Some in Hdl).
      done.
    + rewrite list_lookup_insert_ne in Hlk by done. by eapply Hlists.
Qed.

End HeapFacts.

(** ** The call leaves the objects it was given alone *)

Module Frame.
Import Heap HeapSpec HeapFacts.
Local Open Scope nat_scope.

Section Frame.

Variable strptime : string -> option datetime.
Variable h0 : heap.
Variable r : loc.

Local Abbreviation inv := (owned h0 r).
Local Abbreviation exc := (fun _ : exn => unchanged h0).

Lemma hoare_pure_pre {A} (phi : Prop) (P : heap -> Prop) (m : M A) Q E :
  (phi -> hoare P m Q E) -> hoare (fun h => P h /\ phi) m Q E.
Proof. intros H h [HP Hphi]. by apply H. Qed.

Lemma hoare_read {A} (m : M A) F :
  reads m F -> hoare inv m (fun _ => inv) exc.
Proof.
  intros Hm h HP. destruct (Hm h) as (x & -> & _).
  destruct x; [by eapply owned_unchanged | done].
Qed.

Lemma hoare_getitem_results k :
  hoare inv (getitem (VRef r) k)
        (fun v h => inv h /\ exists ll, v = VRef ll /\ r < ll) exc.
Proof.
  intros h HP. destruct (reads_getitem (VRef r) k h) as (x & -> & Hx).
  destruct x as [e|v]; [by eapply owned_unchanged|]. split; [done|].
  destruct Hx as (l & d & [= <-] & Hd & Hk).
  destruct HP as (_ & _ & (d' & Hd' & Hvals) & _).
  assert (d' = d) as -> by congruence. by eapply Hvals.
Qed.

Lemma hoare_elements_owned ll :
  r < ll ->
  hoare inv (elements (VRef ll))
        (fun vs h => inv h /\ forall x, x ∈ vs -> exists l, x = VRef l /\ r < l) exc.
Proof.
  intros Hll h HP. destruct (reads_elements (VRef ll) h) as (x & -> & Hx).
  destruct x as [e|vs]; [by eapply owned_unchanged|]. split; [done|].
  destruct Hx as (l & [= <-] & Hl).
  destruct HP as (_ & _ & _ & Hlists). by eapply Hlists.
Qed.

Lemma hoare_alloc o :
  (forall vs, o = OList vs -> vs = []) ->
  hoare inv (alloc o) (fun v h => inv h /\ exists l, v = VRef l /\ r < l) exc.
Proof.
  intros Ho h HP. unfold alloc.
  destruct (owned_alloc _ _ _ _ HP Ho) as [Hinv Hlt]. split; [done|]. eauto.
Qed.

Lemma hoare_setitem_results k ll :
  r < ll -> hoare inv (setitem (VRef r) k (VRef ll)) (fun _ => inv) exc.
Proof.
  intros Hll h HP. unfold setitem.
  destruct (h !! r) as [[d|vs]|] eqn:Hr; try by eapply owned_unchanged.
  by apply owned_setitem_results.
Qed.

Lemma hoare_append ll l :
  r < ll -> r < l -> hoare inv (append (VRef ll) (VRef l)) (fun _ => inv) exc.
Proof.
  intros Hll Hl h HP. unfold append.
  destruct (h !! ll) as [[d|vs]|] eqn:Hr; try by eapply owned_unchanged.
  by apply owned_append.
Qed.

Lemma hoare_setitem_event l k x :
  r < l -> hoare inv (setitem (VRef l) k x) (fun _ => inv) exc.
Proof.
  intros Hl h HP. unfold setitem.
  destruct (h !! l) as [[d|vs]|] eqn:Hr; try by eapply owned_unchanged.
  by eapply owned_setitem_event.
Qed.

Tactic Notation "hread" ident(x) :=
  eapply hoare_bind;
  [ eapply hoare_read;
    first [ apply reads_getitem | apply reads_py_eq | apply reads_py_succ
          | apply reads_py_strptime | apply reads_py_duration | apply reads_as_key
          | apply reads_elements | apply reads_contains ]
  | intros x ].

Ltac hdone := apply hoare_ret; intros; assumption.

Lemma inner_body_owned l ps ct sc inner :
  r < l ->
  hoare inv (inner_body (VRef l) ps ct sc inner) (fun _ => inv) exc.
Proof.
  intros Hl. unfold inner_body. hread d. hread same.
  destruct same; [|hdone]. hread n. hread n1. hread next.
  destruct next; [|hdone]. hread previous_timestamp. hread days.
  by apply hoare_setitem_event.
Qed.

Lemma outer_body_owned key l :
  r < l ->
  hoare inv (outer_body (VRef r) key (VRef l)) (fun _ => inv) exc.
Proof.
  intros Hl. unfold outer_body.
  hread previous_state. hread current_timestamp. hread step_count.
  hread k. hread lst. hread evs.
  apply hoare_for_. intros x _. by apply inner_body_owned.
Qed.

Lemma items_body_owned key change items n :
  hoare inv (items_body strptime (VRef r) key change items n) (fun _ => inv) exc.
Proof.
  unfold items_body. hread fld. hread is_status.
  destruct is_status; [|hdone]. hread k.
  eapply hoare_bind; [apply hoare_getitem_results|]. intros lst.
  apply hoare_pure_pre. intros (ll & -> & Hll).
  hread author. hread a. hread created. hread t. hread f. hread d.
  eapply hoare_bind; [by apply hoare_alloc|]. intros ev.
  apply hoare_pure_pre. intros (l & -> & Hl).
  eapply hoare_bind; [by apply hoare_append|]. intros u. hdone.
Qed.

Lemma histories_body_owned key change n :
  hoare inv (histories_body strptime (VRef r) key change n) (fun _ => inv) exc.
Proof.
  unfold histories_body. hread its. hread its'.
  apply hoare_for_with. intros x st _. apply items_body_owned.
Qed.

Lemma issue_body_owned first_step issue :
  hoare inv (issue_body strptime (VRef r) first_step issue) (fun _ => inv) exc.
Proof.
  unfold issue_body. hread key. hread k. hread present.
  eapply hoare_bind with (R := fun _ => inv).
  { destruct present; [hdone|].
    eapply hoare_bind; [apply hoare_alloc; by intros vs [= <-]|]. intros fresh.
    apply hoare_pure_pre. intros (ll & -> & Hll).
    by apply hoare_setitem_results. }
  intros u.
  eapply hoare_bind; [apply hoare_getitem_results|]. intros lst.
  apply hoare_pure_pre. intros (ll & -> & Hll).
  hread fields. hread creator. hread a. hread fields'. hread created. hread t.
  eapply hoare_bind; [by apply hoare_alloc|]. intros ev.
  apply hoare_pure_pre. intros (l & -> & Hl).
  eapply hoare_bind; [by apply hoare_append|]. intros u'.
  hread changelog. hread hs. hread hs'.
  eapply hoare_bind.
  { apply hoare_for_with. intros x st _. apply histories_body_owned. }
  intros n.
  eapply hoare_bind; [apply hoare_getitem_results|]. intros lst.
  apply hoare_pure_pre. intros (ll' & -> & Hll').
  eapply hoare_bind; [by apply hoare_elements_owned|]. intros evs.
  apply hoare_pure_pre. intros Hevs.
  apply hoare_for_. intros x Hx. destruct (Hevs x Hx) as (lx & -> & Hlx).
  by apply outer_body_owned.
Qed.

End Frame.

Lemma get_transitions_owned strptime self issues first_step h0 :
  hoare (fun h => h = h0)
        (get_transitions strptime self issues first_step)
        (fun v h => unchanged h0 h /\ v = VRef (length h0))
        (fun _ => unchanged h0).
Proof.
  unfold get_transitions. eapply hoare_bind with
    (R := fun v h => owned h0 (length h0) h /\ v = VRef (length h0)).
  { intros h ->. split; [apply owned_init | done]. }
  intros results. apply hoare_pure_pre. intros ->.
  eapply hoare_bind; [eapply hoare_read, reads_elements|]. intros its.
  eapply hoare_bind.
  { apply hoare_for_. intros x _. apply issue_body_owned. }
  intros u. apply hoare_ret. intros h Hh. split; [|done].
  by eapply owned_unchanged.
Qed.

(** C10. Whatever the store holds and whether the call returns or raises,
    every object that existed before the call (the issues list, the issue
    records, the changelog entries and their items among them) is the same
    after it, and what is returned is a dictionary created by the call. *)
Theorem input_not_mutated strptime self issues first_step h h' res :
  get_transitions strptime self issues first_step h = (h', res) ->
  (forall l o, h !! l = Some o -> h' !! l = Some o)
  /\ (forall v, res = inr v -> v = VRef (length h) /\ h !! length h = None).
Proof.
  intros Hrun.
  pose proof (get_transitions_owned strptime self issues first_step h h eq_refl) as H.
  rewrite Hrun in H. destruct res as [e|v].
  - split; [exact H | done].
  - destruct H as [Hu ->]. split; [exact Hu|]. intros v [= <-].
    split; [done|]. by apply lookup_ge_None.
Qed.

End Frame.

Module HeapRuns.
Import Heap HeapExamples.

Example run_B :
  get_transitions RefParser.strptime (VRef 10) (VRef 9) (VStr "Open") store_B
  = (store_B ++ added_B, inr (VRef 11)).
Proof. vm_compute. reflexivity. Qed.

End HeapRuns.

Lemma input_not_mutated_witness :
  Heap.get_transitions RefParser.strptime (Heap.VRef 10) (Heap.VRef 9)
    (Heap.VStr "Open") HeapExamples.store_B
  = (HeapExamples.store_B ++ HeapExamples.added_B, inr (Heap.VRef 11))
  /\ (forall l o, HeapExamples.store_B !! l = Some o ->
                  (HeapExamples.store_B ++ HeapExamples.added_B) !! l = Some o)
  /\ (forall v, (inr (Heap.VRef 11) : res Heap.value) = inr v ->
        v = Heap.VRef (length HeapExamples.store_B)
        /\ HeapExamples.store_B !! length HeapExamples.store_B = None).
Proof.
  split; [exact HeapRuns.run_B|].
  exact (Frame.input_not_mutated RefParser.strptime _ _ _ _ _ _ HeapRuns.run_B).
Defined.

(** ** The store version computes the same mapping *)

Module Refinement.
Import Heap HeapSpec HeapFacts.
Local Open Scope nat_scope.

(** *** How the store holds the records and the events *)

Lemma is_dict_unchanged h h' v d : unchanged h h' -> is_dict h v d -> is_dict h' v d.
Proof. intros Hu (l & -> & Hl). exists l. split; [done|]. by apply Hu. Qed.

Lemma is_list_unchanged h h' v vs : unchanged h h' -> is_list h v vs -> is_list h' v vs.
Proof. intros Hu (l & -> & Hl). exists l. split; [done|]. by apply Hu. Qed.

Lemma repr_name_unchanged h h' v o :
  unchanged h h' -> repr_name h v o -> repr_name h' v o.
Proof. intros Hu (d & Hd & Hk). exists d. eauto using is_dict_unchanged. Qed.

Lemma repr_item_unchanged h h' v it :
  unchanged h h' -> repr_item h v it -> repr_item h' v it.
Proof. intros Hu (d & Hd & Hk). exists d. eauto using is_dict_unchanged. Qed.

Lemma event_literal_obj a t n f d :
  event_literal (VStr a) (VDatetime t) (VInt n) (VStr f) (VStr d)
  = event_obj {| author := a; timestamp := t; step := n; ev_from := f; ev_to := d;
                 duration := None |}.
Proof. reflexivity. Qed.

Lemma event_obj_dict e : exists d,
  event_obj e = ODict d /\
  d !! "to" = Some (VStr (ev_to e)) /\
  d !! "from" = Some (VStr (ev_from e)) /\
  d !! "step" = Some (VInt (step e)) /\
  d !! "timestamp" = Some (VDatetime (timestamp e)).
Proof.
  unfold event_obj, event_base. eexists. split; [done|].
  destruct (duration e); repeat split; by simplify_map_eq.
Qed.

Lemma event_obj_set_duration q e d :
  event_obj e = ODict d ->
  event_obj (set_duration q e) = ODict (<["duration" := VFloat q]> d).
Proof.
  unfold event_obj. intros [= <-]. simpl. f_equal.
  destruct (duration e); [by rewrite insert_insert_eq | done].
Qed.

(** *** The three writes of the method *)

Lemma lookup_alloc_insert (h : heap) o (w : nat) o' (l : nat) x :
  h !! l = Some x -> l <> w -> (<[w := o']> (h ++ [o])) !! l = Some x.
Proof.
  intros Hl Hne. rewrite list_lookup_insert_ne by done. by apply lookup_app_l_Some.
Qed.

Lemma lookup_alloc_insert_new (h : heap) o (w : nat) o' :
  length h <> w -> (<[w := o']> (h ++ [o])) !! length h = Some o.
Proof.
  intros Hne. rewrite list_lookup_insert_ne by done. by apply list_lookup_middle.
Qed.

Lemma Forall2_impl_l {A B} (P P' : A -> B -> Prop) (Q : A -> Prop) l k :
  Forall2 P l k -> Forall Q l ->
  (forall x y, Q x -> P x y -> P' x y) -> Forall2 P' l k.
Proof.
  intros HF. induction HF as [|x y l k Hxy HF IH]; intros HQ Himp; [constructor|].
  apply Forall_cons in HQ as [Hx HQ]. constructor; [by apply Himp | by apply IH].
Qed.

Lemma Forall2_lookup_lt {B} (h : heap) (P : nat -> B -> object) locs (evs : list B) :
  Forall2 (fun l e => h !! l = Some (P l e)) locs evs ->
  Forall (fun l => l < length h) locs.
Proof.
  induction 1 as [|l e locs evs Hl _ IH]; constructor; [|done].
  by apply lookup_lt_Some in Hl.
Qed.

Lemma inv_init h0 : inv h0 (length h0) ∅ ∅ (h0 ++ [ODict ∅]).
Proof.
  constructor.
  - apply unchanged_alloc.
  - done.
  - by apply list_lookup_middle.
  - done.
  - intros k ll locs Hk. by rewrite lookup_empty in Hk.
  - intros k k' ll locs ll' locs' _ Hk. by rewrite lookup_empty in Hk.
Qed.

Section Writes.

Variables (h0 : heap) (r : nat).
Variables (R : gmap string (nat * list nat)).
Variables (results : gmap string (list TransitionEvent)) (h : heap).
Hypothesis Hinv : inv h0 r R results h.

Lemma inv_r_lt : r < length h.
Proof. destruct Hinv. by eapply lookup_lt_Some. Qed.

Lemma inv_lookup k ll locs :
  R !! k = Some (ll, locs) ->
  r < ll /\ ll < length h /\ h !! ll = Some (OList (VRef <$> locs)) /\
  Forall (fun l => r < l /\ l < length h /\ l <> ll) locs /\ NoDup locs /\
  exists evs, results !! k = Some evs /\
              Forall2 (fun l e => h !! l = Some (event_obj e)) locs evs.
Proof.
  intros HR. destruct (inv_list _ _ _ _ _ Hinv _ _ _ HR)
    as (Hll & Hlst & Hlocs & Hnd & evs & Hres & HF).
  split; [done|]. split; [by eapply lookup_lt_Some|]. split; [done|].
  split; [|split; [done|by exists evs]].
  rewrite Forall_forall in Hlocs. apply Forall_forall. intros l Hl.
  split; [by apply Hlocs|].
  apply list_elem_of_lookup in Hl as [i Hi].
  destruct (Forall2_lookup_l _ _ _ _ _ HF Hi) as (e & _ & He).
  split; [by eapply lookup_lt_Some|]. intros ->. unfold event_obj in He. congruence.
Qed.

(** [results[key] = []] for a key that is not there yet. *)
Lemma inv_new_key k :
  R !! k = None ->
  inv h0 r (<[k := (length h, [])]> R) (<[k := []]> results)
      (<[r := ODict (<[k := VRef (length h)]> (list_refs R))]> (h ++ [OList []])).
Proof.
  intros Hk. pose proof inv_r_lt as Hr. destruct Hinv as [Hu Hf Hres Hd Hl Hs].
  constructor.
  - apply unchanged_insert; [|done].
    eapply unchanged_trans; [done|apply unchanged_alloc].
  - done.
  - rewrite list_lookup_insert_eq by (rewrite length_app; simpl; lia).
    unfold list_refs. by rewrite fmap_insert.
  - intros k'. rewrite !lookup_insert. case_decide; [done|]. apply Hd.
  - intros k' ll locs. rewrite lookup_insert. case_decide as Hkk.
    + intros [= <- <-]. subst k'. split; [done|].
      split; [apply lookup_alloc_insert_new; lia|].
      split; [constructor|]. split; [constructor|].
      exists []. split; [by rewrite lookup_insert_eq | constructor].
    + intros HR. destruct (inv_lookup _ _ _ HR)
        as (Hll & Hlt & Hlst & Hlocs & Hnd & evs & Hev & HF).
      split; [done|]. split; [apply lookup_alloc_insert; [done|lia]|].
      split; [eapply Forall_impl; [exact Hlocs|]; by intros l (? & _)|].
      split; [done|]. exists evs. split; [by rewrite lookup_insert_ne|].
      eapply Forall2_impl_l; [exact HF|exact Hlocs|].
      intros l e (Hrl & _) Hle. apply lookup_alloc_insert; [done|lia].
  - intros k1 k2 ll locs ll' locs' Hne. rewrite !lookup_insert.
    repeat case_decide; subst; try done.
    + intros [= <- <-] HR. destruct (inv_lookup _ _ _ HR) as (_ & Hlt & _).
      split; [lia|]. by intros l ?%elem_of_nil.
    + intros HR [= <- <-]. destruct (inv_lookup _ _ _ HR) as (_ & Hlt & _).
      split; [lia|]. intros l _. apply not_elem_of_nil.
    + by apply Hs.
Qed.

Lemma list_refs_insert_same k ll locs locs' :
  R !! k = Some (ll, locs) -> list_refs (<[k := (ll, locs')]> R) = list_refs R.
Proof.
  intros HR. unfold list_refs. rewrite fmap_insert. apply insert_id.
  by rewrite lookup_fmap, HR.
Qed.

(** [results[key].append({...})]. *)
Lemma inv_append k ll locs evs e :
  R !! k = Some (ll, locs) -> results !! k = Some evs ->
  inv h0 r (<[k := (ll, locs ++ [length h])]> R) (<[k := evs ++ [e]]> results)
      (<[ll := OList ((VRef <$> locs) ++ [VRef (length h)])]> (h ++ [event_obj e])).
Proof.
  intros HR Hev. pose proof inv_r_lt as Hr.
  destruct (inv_lookup _ _ _ HR) as (Hll & Hlt & Hlst & Hlocs & Hnd & evs' & Hev' & HF).
  assert (evs' = evs) as -> by congruence.
  destruct Hinv as [Hu Hf Hres Hd Hl Hs].
  constructor.
  - apply unchanged_insert; [|lia].
    eapply unchanged_trans; [done|apply unchanged_alloc].
  - done.
  - rewrite (list_refs_insert_same _ _ _ _ HR). apply lookup_alloc_insert; [done|lia].
  - intros k'. rewrite !lookup_insert. case_decide; [done|]. apply Hd.
  - intros k' ll' locs'. rewrite lookup_insert. case_decide as Hkk.
    + intros [= <- <-]. subst k'. split; [done|]. split.
      { rewrite list_lookup_insert_eq by (rewrite length_app; simpl; lia).
        by rewrite fmap_app. }
      split. { apply Forall_app. split; [|repeat constructor; lia].
               eapply Forall_impl; [exact Hlocs|]. by intros l (? & _). }
      split. { apply NoDup_app. split; [done|]. split; [|apply NoDup_singleton].
               intros l Hl' ->%list_elem_of_singleton.
               rewrite Forall_forall in Hlocs. destruct (Hlocs _ Hl') as (_ & ? & _). lia. }
      exists (evs ++ [e]). split; [by rewrite lookup_insert_eq|].
      apply Forall2_app.
      * eapply Forall2_impl_l; [exact HF|exact Hlocs|].
        intros l e' (_ & _ & Hne) Hle. by apply lookup_alloc_insert.
      * repeat constructor. apply lookup_alloc_insert_new. lia.
    + intros HR'. destruct (Hs _ _ _ _ _ _ Hkk HR HR') as [Hne Hdis].
      destruct (Hl _ _ _ HR') as (Hll' & Hlst' & Hlocs' & Hnd' & evs2 & Hev2 & HF').
      split; [done|]. split; [by apply lookup_alloc_insert|].
      split; [done|]. split; [done|]. exists evs2.
      split; [by rewrite lookup_insert_ne|].
      eapply Forall2_impl; [exact HF'|]. intros l e' Hle.
      apply lookup_alloc_insert; [done|]. intros ->. unfold event_obj in Hle. congruence.
  - intros k1 k2 ll1 locs1 ll2 locs2 Hne. rewrite !lookup_insert.
    repeat case_decide; subst; try done.
    + intros [= <- <-] HR2. destruct (Hs _ _ _ _ _ _ Hne HR HR2) as [Hne' Hdis].
      split; [done|]. intros l [Hl'| ->%list_elem_of_singleton]%elem_of_app; [by apply Hdis|].
      destruct (Hl _ _ _ HR2) as (_ & _ & _ & _ & evs2 & _ & HF2).
      apply Forall2_lookup_lt in HF2. rewrite Forall_forall in HF2.
      intros Hin. specialize (HF2 _ Hin). lia.
    + intros HR1 [= <- <-]. destruct (Hs _ _ _ _ _ _ Hne HR1 HR) as [Hne' Hdis].
      split; [done|]. intros l Hl' [Hin| ->%list_elem_of_singleton]%elem_of_app.
      * by apply (Hdis l).
      * destruct (Hl _ _ _ HR1) as (_ & _ & _ & _ & evs1 & _ & HF1).
        apply Forall2_lookup_lt in HF1. rewrite Forall_forall in HF1.
        specialize (HF1 _ Hl'). lia.
    + by apply Hs.
Qed.

(** [step["duration"] = ...] on the event at index [i] of the list of [k]. *)
Lemma inv_set_duration k ll locs evs i l e q :
  R !! k = Some (ll, locs) -> results !! k = Some evs ->
  locs !! i = Some l -> evs !! i = Some e ->
  inv h0 r R (<[k := alter (set_duration q) i evs]> results)
      (<[l := event_obj (set_duration q e)]> h).
Proof.
  intros HR Hev Hli Hei. pose proof inv_r_lt as Hr.
  destruct (inv_lookup _ _ _ HR) as (Hll & Hlt & Hlst & Hlocs & Hnd & evs' & Hev' & HF).
  assert (evs' = evs) as -> by congruence.
  assert (r < l /\ l < length h /\ l <> ll) as (Hrl & Hlh & Hlne).
  { rewrite Forall_forall in Hlocs. apply Hlocs. by eapply list_elem_of_lookup_2. }
  destruct Hinv as [Hu Hf Hres Hd Hl Hs].
  constructor.
  - apply unchanged_insert; [done|lia].
  - done.
  - rewrite list_lookup_insert_ne by lia. done.
  - intros k' HR'. rewrite lookup_insert_ne; [by apply Hd|]. intros ->. congruence.
  - intros k' ll' locs' HR'. destruct (decide (k = k')) as [<-|Hkk].
    + assert (ll' = ll /\ locs' = locs) as [-> ->] by (split; congruence).
      split; [done|]. split; [by rewrite list_lookup_insert_ne|].
      split; [eapply Forall_impl; [exact Hlocs|]; by intros ? (? & _)|].
      split; [done|]. eexists. split; [by rewrite lookup_insert_eq|].
      apply Forall2_same_length_lookup. split.
      { rewrite length_alter. by eapply Forall2_length. }
      intros j x y Hx Hy. destruct (decide (j = i)) as [->|Hji].
      * rewrite list_lookup_alter_eq, Hei in Hy. injection Hy as <-.
        assert (x = l) as -> by congruence. by apply list_lookup_insert_eq.
      * rewrite list_lookup_alter_ne in Hy by done.
        rewrite list_lookup_insert_ne.
        { by eapply (Forall2_lookup_lr _ _ _ _ _ _ HF). }
        intros <-. apply Hji. by eapply (NoDup_lookup locs).
    + destruct (Hs _ _ _ _ _ _ Hkk HR HR') as [Hne Hdis].
      destruct (Hl _ _ _ HR') as (Hll' & Hlst' & Hlocs' & Hnd' & evs2 & Hev2 & HF').
      split; [done|]. split.
      { rewrite list_lookup_insert_ne; [done|]. intros ->.
        destruct (Forall2_lookup_l _ _ _ _ _ HF Hli) as (e' & _ & He').
        unfold event_obj in He'. congruence. }
      split; [done|]. split; [done|]. exists evs2.
      split; [by rewrite lookup_insert_ne|].
      apply Forall2_same_length_lookup. split; [by eapply Forall2_length|].
      intros j x y Hx Hy. rewrite list_lookup_insert_ne.
      { by eapply (Forall2_lookup_lr _ _ _ _ _ _ HF'). }
      intros <-. eapply Hdis; by eapply list_elem_of_lookup_2.
  - done.
Qed.

End Writes.

(** *** Running the statements on a store of known shape *)

Lemma run_bind {A B} (m : M A) (k : A -> M B) h h' a :
  m h = (h', inr a) -> mbind m k h = k a h'.
Proof. intros H. unfold mbind. by rewrite H. Qed.

Lemma run_bind_err {A B} (m : M A) (k : A -> M B) h h' e :
  m h = (h', inl e) -> mbind m k h = (h', inl e).
Proof. intros H. unfold mbind. by rewrite H. Qed.

Lemma run_getitem (h : heap) (l : nat) d k x :
  h !! l = Some (ODict d) -> d !! k = Some x -> getitem (VRef l) k h = (h, inr x).
Proof. intros Hl Hk. unfold getitem, mbind, deref. rewrite Hl. simpl. by rewrite Hk. Qed.

Lemma run_getitem_missing (h : heap) (l : nat) d k :
  h !! l = Some (ODict d) -> d !! k = None ->
  getitem (VRef l) k h = (h, inl (KeyError k)).
Proof. intros Hl Hk. unfold getitem, mbind, deref. rewrite Hl. simpl. by rewrite Hk. Qed.

Lemma run_getitem_dict h v d k x :
  is_dict h v d -> d !! k = Some x -> getitem v k h = (h, inr x).
Proof. intros (l & -> & Hl). by apply run_getitem. Qed.

Lemma run_elements h v vs : is_list h v vs -> elements v h = (h, inr vs).
Proof. intros (l & -> & Hl). unfold elements, mbind, deref. by rewrite Hl. Qed.

Lemma run_contains (h : heap) (l : nat) d k :
  h !! l = Some (ODict d) ->
  contains (VRef l) k h = (h, inr (bool_decide (is_Some (d !! k)))).
Proof. intros Hl. unfold contains, mbind, deref. by rewrite Hl. Qed.

Lemma run_setitem (h : heap) (l : nat) d k x :
  h !! l = Some (ODict d) ->
  setitem (VRef l) k x h = (<[l := ODict (<[k := x]> d)]> h, inr tt).
Proof. intros Hl. unfold setitem. by rewrite Hl. Qed.

Lemma run_append (h : heap) (l : nat) vs x :
  h !! l = Some (OList vs) ->
  append (VRef l) x h = (<[l := OList (vs ++ [x])]> h, inr tt).
Proof. intros Hl. unfold append. by rewrite Hl. Qed.

Lemma for_fold_run {X S} (I : S -> heap -> Prop) (f : S -> X -> S)
    (Rel : X -> value -> Prop) (body : value -> M unit) xs ys :
  Forall2 Rel xs ys ->
  (forall x y s h, Rel x y -> I s h ->
     exists h', body y h = (h', inr tt) /\ I (f s x) h') ->
  forall s h, I s h ->
    exists h', for_ ys body h = (h', inr tt) /\ I (foldl f s xs) h'.
Proof.
  intros HF Hbody. induction HF as [|x y xs ys Hxy _ IH]; intros s h HI; simpl.
  - by exists h.
  - destruct (Hbody x y s h Hxy HI) as (h1 & Hrun & HI1).
    rewrite (run_bind _ _ _ _ _ Hrun). by apply IH.
Qed.

Lemma indices_refs (locs : list nat) : forall pre,
  Forall2 (fun j y => exists lj, y = VRef lj /\ (pre ++ locs) !! j = Some lj)
          (seq (length pre) (length locs)) (VRef <$> locs).
Proof.
  induction locs as [|l locs IH]; intros pre; simpl; constructor.
  - exists l. split; [done|]. by apply list_lookup_middle.
  - specialize (IH (pre ++ [l])). rewrite <- (assoc_L (++)) in IH. simpl in IH.
    rewrite length_app in IH. simpl in IH.
    by replace (length pre + 1) with (S (length pre)) in IH by lia.
Qed.

Section Backfill.

Variables (h0 : heap) (r : nat).
Variables (R : gmap string (nat * list nat)) (k : string) (ll : nat) (locs : list nat).
Hypothesis HR : R !! k = Some (ll, locs).

Lemma at_key_events results evs h :
  at_key h0 r R k results evs h ->
  h !! r = Some (ODict (list_refs R)) /\
  h !! ll = Some (OList (VRef <$> locs)) /\
  Forall2 (fun l e => h !! l = Some (event_obj e)) locs evs.
Proof.
  intros Hinv. split; [by destruct Hinv|].
  destruct (inv_list _ _ _ _ _ Hinv _ _ _ HR) as (_ & Hl & _ & _ & evs' & Hev & HF).
  rewrite lookup_insert_eq in Hev. injection Hev as <-. done.
Qed.

Lemma inner_body_run results evs h i l j lj pf ts n :
  at_key h0 r R k results evs h ->
  locs !! i = Some l -> locs !! j = Some lj ->
  exists h',
    inner_body (VRef l) (VStr pf) (VDatetime ts) (VInt n) (VRef lj) h = (h', inr tt) /\
    at_key h0 r R k results (backfill_inner pf ts n i evs j) h'.
Proof.
  intros Hinv Hi Hj. destruct (at_key_events _ _ _ Hinv) as (_ & _ & HF).
  destruct (Forall2_lookup_l _ _ _ _ _ HF Hi) as (ei & Hei & Hhi).
  destruct (Forall2_lookup_l _ _ _ _ _ HF Hj) as (ej & Hej & Hhj).
  destruct (event_obj_dict ej) as (dj & Hdj & Hto & _ & Hstep & Hts).
  rewrite Hdj in Hhj.
  unfold backfill_inner, precedes. rewrite Hej. unfold inner_body.
  rewrite (run_bind _ _ _ _ _ (run_getitem _ _ _ _ _ Hhj Hto)).
  change (py_eq (VStr (ev_to ej)) (VStr pf)) with (@mret bool (String.eqb (ev_to ej) pf)).
  rewrite (run_bind _ _ h h _ eq_refl).
  destruct (String.eqb (ev_to ej) pf); simpl; [|by exists h].
  rewrite (run_bind _ _ _ _ _ (run_getitem _ _ _ _ _ Hhj Hstep)).
  change (py_succ (VInt (step ej))) with (@mret value (VInt (step ej + 1))).
  rewrite (run_bind _ _ h h _ eq_refl).
  change (py_eq (VInt (step ej + 1)) (VInt n)) with (@mret bool (step ej + 1 =? n)%Z).
  rewrite (run_bind _ _ h h _ eq_refl).
  destruct (step ej + 1 =? n)%Z; [|by exists h].
  rewrite (run_bind _ _ _ _ _ (run_getitem _ _ _ _ _ Hhj Hts)).
  change (py_duration (VDatetime ts) (VDatetime (timestamp ej)))
    with (@mret value (VFloat (total_days (elapsed ts (timestamp ej))))).
  rewrite (run_bind _ _ h h _ eq_refl).
  destruct (event_obj_dict ei) as (di & Hdi & _).
  rewrite Hdi in Hhi. rewrite (run_setitem _ _ _ _ _ Hhi).
  eexists. split; [done|]. unfold at_key.
  rewrite <- (event_obj_set_duration _ _ _ Hdi).
  pose proof (inv_set_duration _ _ _ _ _ Hinv k ll locs evs i l ei
                (total_days (elapsed ts (timestamp ej))) HR
                (lookup_insert_eq _ _ _) Hi Hei) as H.
  by rewrite insert_insert_eq in H.
Qed.

Lemma inner_loop_run results evs h i l pf ts n :
  at_key h0 r R k results evs h ->
  locs !! i = Some l ->
  exists h',
    for_ (VRef <$> locs) (inner_body (VRef l) (VStr pf) (VDatetime ts) (VInt n)) h
    = (h', inr tt) /\
    at_key h0 r R k results (foldl (backfill_inner pf ts n i) evs (seq 0 (length locs))) h'.
Proof.
  intros Hinv Hi.
  apply (for_fold_run (at_key h0 r R k results) (backfill_inner pf ts n i) _ _ _ _
           (indices_refs locs [])); [|done].
  intros j y s h1 (lj & -> & Hj) Hs. by eapply inner_body_run.
Qed.

Lemma outer_body_run results evs h i l :
  at_key h0 r R k results evs h ->
  locs !! i = Some l ->
  exists h',
    outer_body (VRef r) (VStr k) (VRef l) h = (h', inr tt) /\
    at_key h0 r R k results (backfill_outer evs i) h'.
Proof.
  intros Hinv Hi. destruct (at_key_events _ _ _ Hinv) as (Hr & Hll & HF).
  destruct (Forall2_lookup_l _ _ _ _ _ HF Hi) as (ei & Hei & Hhi).
  destruct (event_obj_dict ei) as (di & Hdi & _ & Hfrom & Hstep & Hts).
  rewrite Hdi in Hhi. unfold outer_body, backfill_outer. rewrite Hei.
  rewrite (run_bind _ _ _ _ _ (run_getitem _ _ _ _ _ Hhi Hfrom)).
  rewrite (run_bind _ _ _ _ _ (run_getitem _ _ _ _ _ Hhi Hts)).
  rewrite (run_bind _ _ _ _ _ (run_getitem _ _ _ _ _ Hhi Hstep)).
  change (as_key (VStr k)) with (@mret string k).
  rewrite (run_bind _ _ h h _ eq_refl).
  assert (list_refs R !! k = Some (VRef ll)) as Hk
    by (unfold list_refs; by rewrite lookup_fmap, HR).
  rewrite (run_bind _ _ _ _ _ (run_getitem _ _ _ _ _ Hr Hk)).
  rewrite (run_bind _ _ _ _ _ (run_elements h (VRef ll) _ (ex_intro _ ll (conj eq_refl Hll)))).
  rewrite <- (Forall2_length _ _ _ HF). by apply inner_loop_run.
Qed.

(** Lines 120-132 on the store: the back-fill of the list under [k]. *)
Lemma outer_loop_run results evs h :
  at_key h0 r R k results evs h ->
  exists h',
    for_ (VRef <$> locs) (outer_body (VRef r) (VStr k)) h = (h', inr tt) /\
    at_key h0 r R k results (backfill evs) h'.
Proof.
  intros Hinv. destruct (at_key_events _ _ _ Hinv) as (_ & _ & HF).
  unfold backfill. rewrite <- (Forall2_length _ _ _ HF).
  apply (for_fold_run (at_key h0 r R k results) backfill_outer _ _ _ _
           (indices_refs locs [])); [|done].
  intros i y s h1 (l & -> & Hi) Hs. by eapply outer_body_run.
Qed.

End Backfill.

(** *** Emitting the events *)

Section Emission.

Variable strptime : string -> option datetime.
Variables (h0 : heap) (r : nat).

Lemma for_with_agrees {X S T} (I : S -> T -> heap -> Prop) (Rel : X -> value -> Prop)
    (body : value -> T -> M T) (fa : X -> S -> res S) xs ys :
  Forall2 Rel xs ys ->
  (forall x y s t h, Rel x y -> I s t h -> agrees h0 I (body y t h) (fa x s)) ->
  forall s t h, I s t h -> agrees h0 I (for_with ys body t h) (for_each fa xs s).
Proof.
  intros HF Hbody. induction HF as [|x y xs ys Hxy _ IH]; intros s t h HI; simpl.
  - done.
  - specialize (Hbody x y s t h Hxy HI). unfold mbind, bind.
    destruct (body y t h) as [h1 [e|t1]], (fa x s) as [e'|s1]; try done.
    by apply IH.
Qed.

Lemma for_agrees {X S} (I : S -> heap -> Prop) (Rel : X -> value -> Prop)
    (body : value -> M unit) (fa : X -> S -> res S) xs ys :
  Forall2 Rel xs ys ->
  (forall x y s h, Rel x y -> I s h ->
     agrees h0 (fun s (_ : unit) => I s) (body y h) (fa x s)) ->
  forall s h, I s h ->
    agrees h0 (fun s (_ : unit) => I s) (for_ ys body h) (for_each fa xs s).
Proof.
  intros HF Hbody. induction HF as [|x y xs ys Hxy _ IH]; intros s h HI; simpl.
  - done.
  - specialize (Hbody x y s h Hxy HI). unfold mbind, bind.
    destruct (body y h) as [h1 [e|t1]], (fa x s) as [e'|s1]; try done.
    by apply IH.
Qed.

Lemma inv_key_present R results h k :
  inv h0 r R results h -> is_Some (results !! k) ->
  exists ll locs evs,
    R !! k = Some (ll, locs) /\ results !! k = Some evs /\
    h !! ll = Some (OList (VRef <$> locs)) /\
    list_refs R !! k = Some (VRef ll).
Proof.
  intros Hinv [evs Hev]. destruct (R !! k) as [[ll locs]|] eqn:HR.
  - destruct (inv_list _ _ _ _ _ Hinv _ _ _ HR) as (_ & Hl & _ & _ & evs' & Hev' & _).
    exists ll, locs, evs. repeat split; try done.
    unfold list_refs. by rewrite lookup_fmap, HR.
  - apply (inv_dom _ _ _ _ _ Hinv) in HR. congruence.
Qed.

Lemma status_items_nonempty (its : list FieldChange) it :
  it ∈ its -> field it = "status"%string -> status_items its <> [].
Proof.
  intros Hin Hst Hnil.
  assert (List.In it (status_items its)) as H.
  { apply List.filter_In. split; [by apply list_elem_of_In|].
    by apply String.eqb_eq. }
  rewrite Hnil in H. destruct H.
Qed.

Lemma Forall2_with_elem {X Y} (P : X -> Y -> Prop) (xs : list X) (ys : list Y) :
  Forall2 P xs ys -> Forall2 (fun x y => P x y /\ x ∈ xs) xs ys.
Proof.
  assert (forall xs0 : list X, (forall x, x ∈ xs -> x ∈ xs0) ->
            Forall2 P xs ys -> Forall2 (fun x y => P x y /\ x ∈ xs0) xs ys) as H.
  { intros xs0 Hsub HF. induction HF as [|x y xs ys Hxy HF IH]; constructor.
    - split; [done|]. apply Hsub, list_elem_of_here.
    - apply IH. intros z Hz. by apply Hsub, list_elem_of_further. }
  by apply H.
Qed.

Lemma items_body_agrees k vchange change vit it s t h :
  repr_change h0 vchange change -> repr_item h0 vit it -> it ∈ items change ->
  emitting h0 r k s t h ->
  agrees h0 (emitting h0 r k)
         (Heap.items_body strptime (VRef r) (VStr k) vchange vit t h)
         (Fn.items_body strptime k change it s).
Proof.
  intros Hchange Hitem Hin. destruct s as [n results]. intros (-> & Hk & R & Hinv).
  simpl in *. pose proof (inv_unchanged _ _ _ _ _ Hinv) as Hu.
  destruct Hitem as (dit & Hdit & Hfield & Hft).
  apply (is_dict_unchanged _ _ _ _ Hu) in Hdit.
  destruct Hchange as (dc & vi & vs & Hdc & _ & _ & _ & Hread).
  apply (is_dict_unchanged _ _ _ _ Hu) in Hdc.
  destruct (inv_key_present _ _ _ _ Hinv Hk) as (ll & locs & evs & HR & Hev & Hll & Hrefs).
  unfold Heap.items_body, Fn.items_body.
  rewrite (run_bind _ _ _ _ _ (run_getitem_dict _ _ _ _ _ Hdit Hfield)).
  change (py_eq (VStr (field it)) (VStr "status"))
    with (@mret bool (String.eqb (field it) "status")).
  rewrite (run_bind _ _ h h _ eq_refl).
  destruct (String.eqb (field it) "status") eqn:Hstatus.
  2: { split; [done|]. split; [done|]. by exists R. }
  apply String.eqb_eq in Hstatus. destruct (Hft Hstatus) as [Hfrom Hto].
  destruct (Hread (status_items_nonempty _ _ Hin Hstatus))
    as (va & Hauthor & Hname & Hcreated).
  destruct Hname as (da & Hda & Hdisplay).
  apply (is_dict_unchanged _ _ _ _ Hu) in Hda.
  change (as_key (VStr k)) with (@mret string k).
  rewrite (run_bind _ _ h h _ eq_refl).
  rewrite (run_bind _ _ _ _ _
             (run_getitem _ _ _ _ _ (inv_results _ _ _ _ _ Hinv) Hrefs)).
  rewrite (run_bind _ _ _ _ _ (run_getitem_dict _ _ _ _ _ Hdc Hauthor)).
  destruct Hda as (la & -> & Hla).
  destruct (change_author change) as [a|]; simpl in Hdisplay; simpl.
  2: { rewrite (run_bind_err _ _ _ _ _ (run_getitem_missing _ _ _ _ Hla Hdisplay)).
       done. }
  rewrite (run_bind _ _ _ _ _ (run_getitem _ _ _ _ _ Hla Hdisplay)).
  rewrite (run_bind _ _ _ _ _ (run_getitem_dict _ _ _ _ _ Hdc Hcreated)).
  unfold parse_timestamp, py_strptime.
  destruct (strptime (change_created change)) as [ts|]; cbv beta iota.
  2: { by rewrite (run_bind_err _ _ h h _ eq_refl). }
  rewrite (run_bind _ _ h h _ eq_refl).
  rewrite (run_bind _ _ _ _ _ (run_getitem_dict _ _ _ _ _ Hdit Hfrom)).
  rewrite (run_bind _ _ _ _ _ (run_getitem_dict _ _ _ _ _ Hdit Hto)).
  rewrite event_literal_obj.
  rewrite (run_bind _ _ h _ _ eq_refl).
  rewrite (run_bind _ _ _ _ _
             (run_append _ _ _ _ (lookup_app_l_Some _ _ _ _ Hll))).
  unfold append_event. rewrite Hev.
  split; [done|]. split; [by apply lookup_insert_is_Some'; left|].
  eexists. by eapply inv_append.
Qed.

Lemma histories_body_agrees k vchange change s t h :
  repr_change h0 vchange change ->
  emitting h0 r k s t h ->
  agrees h0 (emitting h0 r k)
         (Heap.histories_body strptime (VRef r) (VStr k) vchange t h)
         (Fn.histories_body strptime k change s).
Proof.
  intros Hchange Hs. pose proof Hchange as Hc.
  destruct Hc as (dc & vi & vs & Hdc & Hitems & Hvi & HF & _).
  destruct Hs as (Ht & Hk & R & Hinv).
  pose proof (inv_unchanged _ _ _ _ _ Hinv) as Hu.
  apply (is_dict_unchanged _ _ _ _ Hu) in Hdc.
  apply (is_list_unchanged _ _ _ _ Hu) in Hvi.
  unfold Heap.histories_body, Fn.histories_body.
  rewrite (run_bind _ _ _ _ _ (run_getitem_dict _ _ _ _ _ Hdc Hitems)).
  rewrite (run_bind _ _ _ _ _ (run_elements _ _ _ Hvi)).
  apply (for_with_agrees (emitting h0 r k)
           (fun it v => repr_item h0 v it /\ it ∈ items change)).
  - apply Forall2_with_elem. by apply Forall2_flip.
  - intros it v s' t' h' [Hit Hin] Hs'. by apply items_body_agrees.
  - split; [done|]. split; [done|]. by exists R.
Qed.

Lemma issue_body_agrees fs vissue issue results h :
  repr_issue h0 vissue issue ->
  holding h0 r results h ->
  agrees h0 (fun s (_ : unit) => holding h0 r s)
         (Heap.issue_body strptime (VRef r) (VStr fs) vissue h)
         (Fn.issue_body strptime fs issue results).
Proof.
  intros Hissue (R & Hinv). pose proof (inv_unchanged _ _ _ _ _ Hinv) as Hu.
  destruct Hissue as (d & vf & df & vc & vcl & dcl & vh & vhs & Hd & Hkey & Hfields
                      & Hdf & Hcreator & Hname & Hcreated & Hchangelog & Hdcl
                      & Hhist & Hvh & HF).
  destruct Hname as (dn & Hdn & Hdisplay).
  unfold Heap.issue_body, Fn.issue_body, bind, ret, displayName, parse_timestamp.
  rewrite (run_bind _ _ _ _ _
             (run_getitem_dict _ _ _ _ _ (is_dict_unchanged _ _ _ _ Hu Hd) Hkey)).
  change (as_key (VStr (key issue))) with (@mret string (key issue)).
  rewrite (run_bind _ _ h h _ eq_refl).
  rewrite (run_bind _ _ _ _ _ (run_contains _ _ _ _ (inv_results _ _ _ _ _ Hinv))).
  set (k := key issue) in *.
  set (results1 := match results !! k with
                   | Some _ => results
                   | None => <[k := []]> results
                   end).
  match goal with
  | |- agrees h0 _ (mbind _ ?K _) _ => set (rest := K)
  end.
  assert (exists h1 R1,
            mbind (if bool_decide (is_Some (list_refs R !! k)) then mret tt
                   else mbind (alloc (OList []))
                          (fun fresh => setitem (VRef r) k fresh)) rest h
            = rest tt h1 /\
            inv h0 r R1 results1 h1 /\ is_Some (results1 !! k))
    as (h1 & R1 & -> & Hinv1 & Hk1).
  { destruct (R !! k) as [[ll locs]|] eqn:HR.
    - destruct (inv_list _ _ _ _ _ Hinv _ _ _ HR) as (_ & _ & _ & _ & evs & Hev & _).
      exists h, R. subst results1. rewrite Hev.
      rewrite bool_decide_true by (unfold list_refs; by rewrite lookup_fmap, HR).
      done.
    - pose proof (inv_dom _ _ _ _ _ Hinv _ HR) as Hnone.
      rewrite bool_decide_false
        by (unfold list_refs; rewrite lookup_fmap, HR; by intros [? ?]).
      subst results1. rewrite Hnone.
      eexists _, _. split; [|split; [by apply inv_new_key|by rewrite lookup_insert_eq]].
      unfold mbind at 1 2. unfold alloc.
      rewrite (run_setitem _ _ _ _ _
                 (lookup_app_l_Some _ _ _ _ (inv_results _ _ _ _ _ Hinv))).
      done. }
  clear Hinv Hu R. subst rest. cbv beta.
  pose proof (inv_unchanged _ _ _ _ _ Hinv1) as Hu.
  destruct (inv_key_present _ _ _ _ Hinv1 Hk1) as (ll & locs & evs & HR & Hev & Hll & Hrefs).
  rewrite (run_bind _ _ _ _ _
             (run_getitem _ _ _ _ _ (inv_results _ _ _ _ _ Hinv1) Hrefs)).
  rewrite (run_bind _ _ _ _ _
             (run_getitem_dict _ _ _ _ _ (is_dict_unchanged _ _ _ _ Hu Hd) Hfields)).
  rewrite (run_bind _ _ _ _ _
             (run_getitem_dict _ _ _ _ _ (is_dict_unchanged _ _ _ _ Hu Hdf) Hcreator)).
  destruct (is_dict_unchanged _ _ _ _ Hu Hdn) as (ln & -> & Hln).
  destruct (creator issue) as [a|]; simpl in Hdisplay; cbv beta iota.
  2: { rewrite (run_bind_err _ _ _ _ _ (run_getitem_missing _ _ _ _ Hln Hdisplay)).
       done. }
  rewrite (run_bind _ _ _ _ _ (run_getitem _ _ _ _ _ Hln Hdisplay)).
  rewrite (run_bind _ _ _ _ _
             (run_getitem_dict _ _ _ _ _ (is_dict_unchanged _ _ _ _ Hu Hd) Hfields)).
  rewrite (run_bind _ _ _ _ _
             (run_getitem_dict _ _ _ _ _ (is_dict_unchanged _ _ _ _ Hu Hdf) Hcreated)).
  unfold py_strptime.
  destruct (strptime (created issue)) as [ts|]; cbv beta iota.
  2: { by rewrite (run_bind_err _ _ h1 h1 _ eq_refl). }
  rewrite (run_bind _ _ h1 h1 _ eq_refl).
  rewrite event_literal_obj.
  rewrite (run_bind _ _ h1 _ _ eq_refl).
  rewrite (run_bind _ _ _ _ _
             (run_append _ _ _ _ (lookup_app_l_Some _ _ _ _ Hll))).
  unfold append_event. rewrite Hev.
  set (ev := {| author := a; timestamp := ts; step := 0; ev_from := "Create";
                ev_to := fs; duration := None |}).
  pose proof (inv_append _ _ _ _ _ Hinv1 k ll locs evs ev HR Hev) as Hinv2.
  set (h2 := <[ll := OList ((VRef <$> locs) ++ [VRef (length h1)])]>
               (h1 ++ [event_obj ev])) in *.
  set (results2 := <[k := evs ++ [ev]]> results1) in *.
  pose proof (inv_unchanged _ _ _ _ _ Hinv2) as Hu2.
  rewrite (run_bind _ _ _ _ _
             (run_getitem_dict _ _ _ _ _ (is_dict_unchanged _ _ _ _ Hu2 Hd) Hchangelog)).
  rewrite (run_bind _ _ _ _ _
             (run_getitem_dict _ _ _ _ _ (is_dict_unchanged _ _ _ _ Hu2 Hdcl) Hhist)).
  rewrite (run_bind _ _ _ _ _
             (run_elements _ _ _ (is_list_unchanged _ _ _ _ Hu2 Hvh))).
  assert (emitting h0 r k (1%Z, results2) 1%Z h2) as Hem.
  { split; [done|]. split; [by apply lookup_insert_is_Some'; left|]. by eexists. }
  pose proof (for_with_agrees (emitting h0 r k) (fun c v => repr_change h0 v c)
                (Heap.histories_body strptime (VRef r) (VStr k))
                (Fn.histories_body strptime k) (histories issue) vhs
                (proj2 (Forall2_flip _ _ _) HF)
                (fun c v s t h' Hc Hs => histories_body_agrees k v c s t h' Hc Hs)
                _ _ _ Hem) as Hloop.
  unfold ret. cbv beta iota. fold ev. fold results2. unfold mbind at 1.
  unfold agrees in Hloop.
  destruct (for_with vhs _ 1%Z h2) as [h3 [e|n3]],
           (for_each _ (histories issue) (1%Z, results2)) as [e'|[n3' results3]];
    try done.
  destruct Hloop as (_ & Hk3 & R3 & Hinv3). simpl in Hk3, Hinv3.
  destruct (inv_key_present _ _ _ _ Hinv3 Hk3)
    as (ll3 & locs3 & evs3 & HR3 & Hev3 & Hll3 & Hrefs3).
  rewrite (run_bind _ _ _ _ _
             (run_getitem _ _ _ _ _ (inv_results _ _ _ _ _ Hinv3) Hrefs3)).
  rewrite (run_bind _ _ _ _ _
             (run_elements h3 (VRef ll3) _ (ex_intro _ ll3 (conj eq_refl Hll3)))).
  unfold backfill_key. simpl snd. rewrite Hev3.
  assert (at_key h0 r R3 k results3 evs3 h3) as Hat
    by (unfold at_key; by rewrite insert_id).
  destruct (outer_loop_run h0 r R3 k ll3 locs3 HR3 results3 evs3 h3 Hat)
    as (h4 & -> & Hat4).
  by exists R3.
Qed.

End Emission.

Lemma repr_change_unchanged h h' v c :
  unchanged h h' -> repr_change h v c -> repr_change h' v c.
Proof.
  intros Hu (d & vi & vs & Hd & Hi & Hvi & HF & Hread).
  exists d, vi, vs.
  split; [by eapply is_dict_unchanged|]. split; [done|].
  split; [by eapply is_list_unchanged|]. split.
  - eapply Forall2_impl; [exact HF|]. eauto using repr_item_unchanged.
  - intros Hne. destruct (Hread Hne) as (va & Ha & Hn & Hc).
    exists va. eauto using repr_name_unchanged.
Qed.

Lemma repr_issue_unchanged h h' v i :
  unchanged h h' -> repr_issue h v i -> repr_issue h' v i.
Proof.
  intros Hu (d & vf & df & vc & vcl & dcl & vh & vhs & Hd & Hkey & Hfields
             & Hdf & Hcreator & Hname & Hcreated & Hchangelog & Hdcl
             & Hhist & Hvh & HF).
  exists d, vf, df, vc, vcl, dcl, vh, vhs.
  repeat split; eauto using is_dict_unchanged, is_list_unchanged, repr_name_unchanged.
  eapply Forall2_impl; [exact HF|]. eauto using repr_change_unchanged.
Qed.

Lemma repr_issues_unchanged h h' v issues :
  unchanged h h' -> repr_issues h v issues -> repr_issues h' v issues.
Proof.
  intros Hu (vs & Hvs & HF). exists vs. split; [by eapply is_list_unchanged|].
  eapply Forall2_impl; [exact HF|]. eauto using repr_issue_unchanged.
Qed.

Lemma inv_represents h0 r R results h :
  inv h0 r R results h -> represents h (VRef r) results.
Proof.
  intros Hinv. exists (list_refs R). split.
  - exists r. split; [done|]. by destruct Hinv.
  - intros k. unfold list_refs. rewrite lookup_fmap.
    destruct (R !! k) as [[ll locs]|] eqn:HR.
    + destruct (inv_list _ _ _ _ _ Hinv _ _ _ HR) as (_ & Hl & _ & _ & evs & -> & HF).
      exists (VRef ll), (VRef <$> locs). split; [done|]. split; [by exists ll|].
      apply Forall2_fmap_l. eapply Forall2_impl; [exact HF|]. eauto.
    + by rewrite (inv_dom _ _ _ _ _ Hinv _ HR).
Qed.

Lemma represents_unchanged h h' v results :
  unchanged h h' -> represents h v results -> represents h' v results.
Proof.
  intros Hu (d & Hd & Hk). exists d. split; [by eapply is_dict_unchanged|].
  intros k. specialize (Hk k). destruct (results !! k) as [evs|]; [|done].
  destruct Hk as (vl & vs & Hvl & Hvs & HF). exists vl, vs.
  split; [done|]. split; [by eapply is_list_unchanged|].
  eapply Forall2_impl; [exact HF|]. intros x e (l & -> & Hl). eauto.
Qed.

(** The store version returns what the functional version computes, and
    raises what it raises. *)
Theorem get_transitions_refines strptime self vissues issues fs h0 :
  repr_issues h0 vissues issues ->
  agrees h0
    (fun results v h =>
       v = VRef (length h0) /\ exists R, inv h0 (length h0) R results h)
    (Heap.get_transitions strptime self vissues (VStr fs) h0)
    (Fn.get_transitions strptime issues fs).
Proof.
  intros Hissues. unfold Heap.get_transitions, Fn.get_transitions.
  rewrite (run_bind _ _ h0 _ _ eq_refl).
  destruct Hissues as (vs & Hvs & HF).
  rewrite (run_bind _ _ _ _ _
             (run_elements _ _ _ (is_list_unchanged _ _ _ _ (unchanged_alloc _ _) Hvs))).
  pose proof (for_agrees h0 (holding h0 (length h0)) (fun i v => repr_issue h0 v i)
                (Heap.issue_body strptime (VRef (length h0)) (VStr fs))
                (Fn.issue_body strptime fs) issues vs
                (proj2 (Forall2_flip _ _ _) HF)
                (fun i v s h Hi Hs => issue_body_agrees strptime h0 _ fs v i s h Hi Hs)
                ∅ (h0 ++ [ODict ∅]) (ex_intro _ ∅ (inv_init h0))) as Hloop.
  unfold mbind. unfold agrees in *.
  destruct (for_ vs _ (h0 ++ [ODict ∅])) as [h1 [e|u]],
           (for_each _ issues ∅) as [e'|results]; try done.
Qed.

(** On a store that holds the records as typed data, two calls in a row
    return two distinct dictionaries that read as the mapping the functional
    version computes; or both raise the exception it raises. *)
Lemma repeated_call_refines strptime self self' vissues issues fs h h1 h2 o1 o2 :
  repr_issues h vissues issues ->
  Heap.get_transitions strptime self vissues (VStr fs) h = (h1, o1) ->
  Heap.get_transitions strptime self' vissues (VStr fs) h1 = (h2, o2) ->
  match Fn.get_transitions strptime issues fs with
  | inr results =>
      exists v1 v2, o1 = inr v1 /\ o2 = inr v2 /\ v1 <> v2 /\
        represents h1 v1 results /\
        represents h2 v1 results /\ represents h2 v2 results
  | inl e => o1 = inl e /\ o2 = inl e
  end.
Proof.
  intros Hissues Hrun1 Hrun2.
  pose proof (get_transitions_refines strptime self vissues issues fs h Hissues) as H1.
  rewrite Hrun1 in H1. unfold agrees in H1.
  assert (unchanged h h1) as Hu1.
  { destruct o1, (Fn.get_transitions strptime issues fs); try done.
    - by destruct H1.
    - destruct H1 as (_ & R & Hinv). by destruct Hinv. }
  pose proof (get_transitions_refines strptime self' vissues issues fs h1
                (repr_issues_unchanged _ _ _ _ Hu1 Hissues)) as H2.
  rewrite Hrun2 in H2. unfold agrees in H2.
  destruct (Fn.get_transitions strptime issues fs) as [e|results].
  - destruct o1 as [e1|]; [|done]. destruct o2 as [e2|]; [|done].
    destruct H1 as [-> _], H2 as [-> _]. done.
  - destruct o1 as [|v1]; [done|]. destruct o2 as [|v2]; [done|].
    destruct H1 as (-> & R1 & Hinv1), H2 as (-> & R2 & Hinv2).
    exists (VRef (length h)), (VRef (length h1)).
    split; [done|]. split; [done|].
    assert (length h < length h1) as Hlt.
    { pose proof (inv_results _ _ _ _ _ Hinv1) as Hr. by apply lookup_lt_Some in Hr. }
    split; [intros [= Heq]; lia|].
    split; [by eapply inv_represents|].
    split; [|by eapply inv_represents].
    eapply represents_unchanged; [|by eapply inv_represents].
    by destruct Hinv2.
Qed.

End Refinement.

(** ** Two calls in a row, on any store *)

Module Relocation.
Import Heap HeapSpec Relocate.
Local Open Scope nat_scope.

Lemma below_mono n m v : n <= m -> below n v -> below m v.
Proof. destruct v; simpl; try done. lia. Qed.

Lemma refs_below_mono n m o : n <= m -> refs_below n o -> refs_below m o.
Proof.
  intros Hnm. destruct o as [d|vs]; simpl.
  - intros H. eapply map_Forall_impl; [exact H|]. intros k v. by apply below_mono.
  - intros H. eapply Forall_impl; [exact H|]. intros v. by apply below_mono.
Qed.

Lemma closed_lookup h l o : closed h -> h !! l = Some o -> refs_below (length h) o.
Proof. intros Hc Hl. by eapply (proj1 (Forall_lookup _ _) Hc). Qed.

Lemma closed_alloc h o : closed h -> refs_below (length h) o -> closed (h ++ [o]).
Proof.
  intros Hc Ho. unfold closed. rewrite length_app. simpl.
  apply Forall_app. split.
  - eapply Forall_impl; [exact Hc|]. intros o'. apply refs_below_mono. lia.
  - constructor; [|constructor]. eapply refs_below_mono; [|exact Ho]. lia.
Qed.

Lemma closed_insert h (l : nat) o :
  closed h -> refs_below (length h) o -> closed (<[l := o]> h).
Proof.
  intros Hc Ho. unfold closed. rewrite length_insert.
  apply Forall_insert; done.
Qed.

Section Shift.

Variable n0 : nat.
Variable A : list object.

Local Abbreviation sh := (sh n0 A).
Local Abbreviation shv := (shv n0 A).
Local Abbreviation sho := (sho n0 A).
Local Abbreviation rel := (rel n0 A).
Local Abbreviation sim := (sim n0 A).
Local Abbreviation Rv := (Rv n0 A).
Local Abbreviation Rvs := (Rvs n0 A).

Lemma shv_below v : below n0 v -> shv v = v.
Proof.
  destruct v as [| | | | |l]; simpl; try done. intros Hl.
  unfold Relocate.sh. by rewrite (proj2 (Nat.ltb_lt _ _) Hl).
Qed.

Lemma sho_below o : refs_below n0 o -> sho o = o.
Proof.
  destruct o as [d|vs]; simpl; intros H; f_equal.
  - rewrite <- (map_fmap_id d) at 2. apply map_fmap_ext.
    intros k v Hk. apply shv_below. by apply (H k v).
  - rewrite <- (list_fmap_id vs) at 2. apply list_fmap_ext.
    intros i v Hi. apply shv_below.
    by apply (proj1 (Forall_lookup _ _) H i v).
Qed.

Lemma rel_length hl hr : rel hl hr -> length hr = length hl + length A.
Proof.
  intros (_ & Hn & ->). rewrite !length_app, !length_fmap, length_take, length_drop.
  lia.
Qed.

Lemma rel_lookup hl hr (l : nat) : rel hl hr -> hr !! sh l = sho <$> hl !! l.
Proof.
  intros (_ & Hn & ->). unfold Relocate.sh. destruct (Nat.ltb_spec l n0) as [Hl|Hl].
  - rewrite lookup_app_l by (rewrite length_fmap, length_take; lia).
    by rewrite list_lookup_fmap, lookup_take_lt.
  - rewrite lookup_app_r by (rewrite length_fmap, length_take; lia).
    rewrite length_fmap, length_take, Nat.min_l by done.
    rewrite lookup_app_r by lia.
    rewrite list_lookup_fmap, lookup_drop. do 2 f_equal. lia.
Qed.

Lemma rel_alloc hl hr o :
  rel hl hr -> refs_below (length hl) o -> rel (hl ++ [o]) (hr ++ [sho o]).
Proof.
  intros (Hc & Hn & ->) Ho. split; [by apply closed_alloc|].
  split; [rewrite length_app; lia|].
  rewrite take_app_le, drop_app_le by done.
  by rewrite fmap_app, <- !app_assoc.
Qed.

Lemma rel_insert hl hr (l : nat) o :
  rel hl hr -> refs_below (length hl) o ->
  rel (<[l := o]> hl) (<[sh l := sho o]> hr).
Proof.
  intros (Hc & Hn & ->) Ho. split; [by apply closed_insert|].
  split; [by rewrite length_insert|].
  unfold Relocate.sh. destruct (Nat.ltb_spec l n0) as [Hl|Hl].
  - rewrite insert_app_l by (rewrite length_fmap, length_take; lia).
    rewrite take_insert_lt, drop_insert_lt by lia.
    by rewrite list_fmap_insert.
  - rewrite insert_app_r_alt by (rewrite length_fmap, length_take; lia).
    rewrite length_fmap, length_take, Nat.min_l by done.
    rewrite insert_app_r_alt by lia.
    rewrite take_insert_ge by lia. rewrite drop_insert_ge by lia.
    rewrite list_fmap_insert. do 3 f_equal. lia.
Qed.

Lemma sim_ret {T} n (R : nat -> T -> T -> Prop) x y :
  (forall m, n <= m -> R m x y) -> sim n R (mret x) (mret y).
Proof. intros H hl hr Hrel Hn. simpl. split; [done|]. split; [done|]. by apply H. Qed.

Lemma sim_raise {T} n (R : nat -> T -> T -> Prop) e :
  sim n R (mraise e) (mraise e).
Proof. intros hl hr Hrel Hn. simpl. split; [done|by split]. Qed.

Lemma sim_bind {T U} n (R : nat -> T -> T -> Prop) (S : nat -> U -> U -> Prop)
    (m m' : M T) (k k' : T -> M U) :
  sim n R m m' ->
  (forall n1 x y, n <= n1 -> R n1 x y -> sim n1 S (k x) (k' y)) ->
  sim n S (mbind m k) (mbind m' k').
Proof.
  intros Hm Hk hl hr Hrel Hn. unfold mbind.
  destruct (Hm hl hr Hrel Hn) as (Hrel1 & Hlen & HR).
  destruct (m hl) as [hl1 [e|x]], (m' hr) as [hr1 [e'|y]]; simpl in *; try done.
  assert (n <= length hl1) as Hn1 by lia.
  destruct (Hk (length hl1) x y Hn1 HR hl1 hr1 Hrel1 (Nat.le_refl _))
    as (Hrel2 & Hlen2 & HS).
  split; [done|]. split; [lia|done].
Qed.

Lemma sim_weaken {T} n n' (R : nat -> T -> T -> Prop) m m' :
  n <= n' -> sim n R m m' -> sim n' R m m'.
Proof. intros Hnn H hl hr Hrel Hn. apply H; [done|lia]. Qed.

Lemma sim_alloc n o :
  refs_below n o -> sim n Rv (alloc o) (alloc (sho o)).
Proof.
  intros Ho hl hr Hrel Hn. unfold alloc. simpl.
  assert (refs_below (length hl) o) as Ho' by (by eapply refs_below_mono).
  split; [by apply rel_alloc|]. rewrite length_app. simpl. split; [lia|].
  split; [|simpl; lia]. rewrite (rel_length _ _ Hrel). simpl. f_equal.
  unfold Relocate.sh. destruct Hrel as (_ & Hn0 & _).
  by rewrite (proj2 (Nat.ltb_ge _ _) Hn0).
Qed.

Lemma sim_deref n v :
  sim n (fun m o o' => o' = sho o /\ refs_below m o) (deref v) (deref (shv v)).
Proof.
  intros hl hr Hrel Hn. unfold deref.
  destruct v as [| | | | |l]; simpl; try (split; [done|by split]).
  rewrite (rel_lookup _ _ l Hrel).
  destruct (hl !! l) as [o|] eqn:Hl; simpl; [|split; [done|by split]].
  split; [done|]. split; [done|]. split; [done|].
  destruct Hrel as (Hc & _). by eapply closed_lookup.
Qed.

Lemma sim_getitem n v k : sim n Rv (getitem v k) (getitem (shv v) k).
Proof.
  unfold getitem. eapply sim_bind; [apply sim_deref|].
  intros n1 o o' Hn1 [-> Ho]. destruct o as [d|vs]; simpl; [|apply sim_raise].
  rewrite lookup_fmap. destruct (d !! k) as [x|] eqn:Hx; simpl; [|apply sim_raise].
  apply sim_ret. intros m Hm. split; [done|].
  eapply below_mono; [exact Hm|]. by apply (Ho k x).
Qed.

Lemma sim_contains n v k : sim n Req (contains v k) (contains (shv v) k).
Proof.
  unfold contains. eapply sim_bind; [apply sim_deref|].
  intros n1 o o' Hn1 [-> Ho]. destruct o as [d|vs]; simpl; [|apply sim_raise].
  rewrite lookup_fmap. apply sim_ret. intros m Hm. unfold Req.
  by destruct (d !! k).
Qed.

Lemma sim_elements n v : sim n Rvs (elements v) (elements (shv v)).
Proof.
  unfold elements. eapply sim_bind; [apply sim_deref|].
  intros n1 o o' Hn1 [-> Ho]. destruct o as [d|vs]; simpl; [apply sim_raise|].
  apply sim_ret. intros m Hm. split; [done|].
  eapply Forall_impl; [exact Ho|]. intros x. by apply below_mono.
Qed.

Lemma sim_setitem n v k x :
  below n x -> sim n Req (setitem v k x) (setitem (shv v) k (shv x)).
Proof.
  intros Hx hl hr Hrel Hn. unfold setitem.
  destruct v as [| | | | |l]; simpl; try (split; [done|by split]).
  rewrite (rel_lookup _ _ l Hrel).
  destruct (hl !! l) as [[d|vs]|] eqn:Hl; simpl; try (split; [done|by split]).
  rewrite length_insert. split; [|by split].
  replace (ODict (<[k:=shv x]> (shv <$> d))) with (sho (ODict (<[k:=x]> d)))
    by (simpl; by rewrite fmap_insert).
  apply rel_insert; [done|]. simpl. apply map_Forall_insert_2.
  - eapply below_mono; [exact Hn|done].
  - destruct Hrel as (Hc & _). by apply (closed_lookup _ _ _ Hc Hl).
Qed.

Lemma sim_append n v x :
  below n x -> sim n Req (append v x) (append (shv v) (shv x)).
Proof.
  intros Hx hl hr Hrel Hn. unfold append.
  destruct v as [| | | | |l]; simpl; try (split; [done|by split]).
  rewrite (rel_lookup _ _ l Hrel).
  destruct (hl !! l) as [[d|vs]|] eqn:Hl; simpl; try (split; [done|by split]).
  rewrite length_insert. split; [|by split].
  replace (OList ((shv <$> vs) ++ [shv x])) with (sho (OList (vs ++ [x])))
    by (simpl; by rewrite fmap_app).
  apply rel_insert; [done|]. simpl. apply Forall_app. split.
  - destruct Hrel as (Hc & _). by apply (closed_lookup _ _ _ Hc Hl).
  - constructor; [|constructor]. eapply below_mono; [exact Hn|done].
Qed.

Lemma sim_as_key n v : sim n Req (as_key v) (as_key (shv v)).
Proof. destruct v; simpl; first [apply sim_raise | by apply sim_ret]. Qed.

Lemma sim_py_eq n a b : sim n Req (py_eq a b) (py_eq (shv a) (shv b)).
Proof. destruct a, b; simpl; first [apply sim_raise | by apply sim_ret]. Qed.

Lemma sim_py_succ n a : sim n Rv (py_succ a) (py_succ (shv a)).
Proof. destruct a; simpl; first [apply sim_raise | by apply sim_ret]. Qed.

Lemma sim_py_strptime strptime n v :
  sim n Rv (py_strptime strptime v) (py_strptime strptime (shv v)).
Proof.
  destruct v as [| |s| | |]; simpl; try apply sim_raise.
  destruct (strptime s); [by apply sim_ret | apply sim_raise].
Qed.

Lemma sim_py_duration n c p :
  sim n Rv (py_duration c p) (py_duration (shv c) (shv p)).
Proof. destruct c, p; simpl; first [apply sim_raise | by apply sim_ret]. Qed.

Lemma sim_alloc_event n a t c f d :
  below n a -> below n t -> below n c -> below n f -> below n d ->
  sim n Rv (alloc (event_literal a t c f d))
           (alloc (event_literal (shv a) (shv t) (shv c) (shv f) (shv d))).
Proof.
  intros Ha Ht Hc Hf Hd.
  replace (event_literal (shv a) (shv t) (shv c) (shv f) (shv d))
    with (sho (event_literal a t c f d))
    by (unfold event_literal; simpl; by rewrite !fmap_insert, fmap_empty).
  apply sim_alloc. unfold event_literal. simpl.
  repeat (apply map_Forall_insert_2; [done|]). apply map_Forall_empty.
Qed.

Lemma sim_for_with {S} n (xs : list value) (body body' : value -> S -> M S) :
  (forall n1 x st, n <= n1 -> below n1 x ->
     sim n1 Req (body x st) (body' (shv x) st)) ->
  Forall (below n) xs ->
  forall st, sim n Req (for_with xs body st) (for_with (shv <$> xs) body' st).
Proof.
  intros Hb. revert n Hb. induction xs as [|x xs IH]; intros n Hb Hxs st; simpl.
  - by apply sim_ret.
  - apply Forall_cons in Hxs as [Hx Hxs].
    eapply sim_bind; [by apply Hb|]. intros n1 st1 st1' Hn1 Heq; unfold Relocate.Req in Heq; subst st1'.
    apply IH.
    + intros n2 y st2 Hn2 Hy. apply Hb; [lia|done].
    + eapply Forall_impl; [exact Hxs|]. intros y. by apply below_mono.
Qed.

Lemma sim_for_ n (xs : list value) (body body' : value -> M unit) :
  (forall n1 x, n <= n1 -> below n1 x -> sim n1 Req (body x) (body' (shv x))) ->
  Forall (below n) xs ->
  sim n Req (for_ xs body) (for_ (shv <$> xs) body').
Proof.
  intros Hb. revert n Hb. induction xs as [|x xs IH]; intros n Hb Hxs; simpl.
  - by apply sim_ret.
  - apply Forall_cons in Hxs as [Hx Hxs].
    eapply sim_bind; [by apply Hb|]. intros n1 u u' Hn1 _.
    apply IH.
    + intros n2 y Hn2 Hy. apply Hb; [lia|done].
    + eapply Forall_impl; [exact Hxs|]. intros y. by apply below_mono.
Qed.

Section Method.

Variable strptime : string -> option datetime.

Ltac next L := eapply sim_bind; [apply L|].
Ltac older := eapply below_mono; [|eassumption]; lia.

Lemma items_body_reloc n results key change items step :
  sim n Req (Heap.items_body strptime results key change items step)
            (Heap.items_body strptime (shv results) (shv key) (shv change)
               (shv items) step).
Proof.
  unfold Heap.items_body.
  next sim_getitem. intros n1 fld ? H1 [-> Hfld].
  next (sim_py_eq n1 fld (VStr "status")). intros n2 b b' H2 Heq; unfold Relocate.Req in Heq; subst b'.
  destruct b; [|by apply sim_ret].
  next sim_as_key. intros n3 k k' H3 Heq; unfold Relocate.Req in Heq; subst k'.
  next sim_getitem. intros n4 lst ? H4 [-> Hlst].
  next sim_getitem. intros n5 author ? H5 [-> Hauthor].
  next sim_getitem. intros n6 a ? H6 [-> Ha].
  next sim_getitem. intros n7 created ? H7 [-> Hcreated].
  next sim_py_strptime. intros n8 t ? H8 [-> Ht].
  next sim_getitem. intros n9 f ? H9 [-> Hf].
  next sim_getitem. intros n10 d ? H10 [-> Hd].
  next (sim_alloc_event n10 a t (VInt step) f d); [older|older|done|older|done|].
  intros n11 ev ? H11 [-> Hev].
  next sim_append; [done|]. intros n12 u ? H12 _.
  by apply sim_ret.
Qed.

Lemma histories_body_reloc n results key change step :
  sim n Req (Heap.histories_body strptime results key change step)
            (Heap.histories_body strptime (shv results) (shv key) (shv change) step).
Proof.
  unfold Heap.histories_body.
  next sim_getitem. intros n1 its ? H1 [-> Hits].
  next sim_elements. intros n2 xs ? H2 [-> Hxs].
  apply sim_for_with; [|done]. intros n3 x st H3 Hx. apply items_body_reloc.
Qed.

Lemma inner_body_reloc n step previous_state current_timestamp step_count inner_step :
  sim n Req
    (inner_body step previous_state current_timestamp step_count inner_step)
    (inner_body (shv step) (shv previous_state) (shv current_timestamp)
       (shv step_count) (shv inner_step)).
Proof.
  unfold inner_body.
  next sim_getitem. intros n1 d ? H1 [-> Hd].
  next sim_py_eq. intros n2 same same' H2 Heq; unfold Relocate.Req in Heq; subst same'.
  destruct same; [|by apply sim_ret].
  next sim_getitem. intros n3 m ? H3 [-> Hm].
  next sim_py_succ. intros n4 m1 ? H4 [-> Hm1].
  next sim_py_eq. intros n5 nxt nxt' H5 Heq; unfold Relocate.Req in Heq; subst nxt'.
  destruct nxt; [|by apply sim_ret].
  next sim_getitem. intros n6 pt ? H6 [-> Hpt].
  next sim_py_duration. intros n7 days ? H7 [-> Hdays].
  by apply sim_setitem.
Qed.

Lemma outer_body_reloc n results key step :
  sim n Req (outer_body results key step)
            (outer_body (shv results) (shv key) (shv step)).
Proof.
  unfold outer_body.
  next sim_getitem. intros n1 ps ? H1 [-> Hps].
  next sim_getitem. intros n2 ct ? H2 [-> Hct].
  next sim_getitem. intros n3 sc ? H3 [-> Hsc].
  next sim_as_key. intros n4 k k' H4 Heq; unfold Relocate.Req in Heq; subst k'.
  next sim_getitem. intros n5 lst ? H5 [-> Hlst].
  next sim_elements. intros n6 evs ? H6 [-> Hevs].
  apply sim_for_; [|done]. intros n7 x H7 Hx. apply inner_body_reloc.
Qed.

Lemma issue_body_reloc n results first_step issue :
  below n first_step ->
  sim n Req (Heap.issue_body strptime results first_step issue)
            (Heap.issue_body strptime (shv results) (shv first_step) (shv issue)).
Proof.
  intros Hfs. unfold Heap.issue_body.
  next sim_getitem. intros n1 key ? H1 [-> Hkey].
  next sim_as_key. intros n2 k k' H2 Heq; unfold Relocate.Req in Heq; subst k'.
  next sim_contains. intros n3 present present' H3 Heq; unfold Relocate.Req in Heq; subst present'.
  eapply sim_bind with (R := Req).
  { destruct present; [by apply sim_ret|].
    next (sim_alloc n3 (OList [])); [constructor|].
    intros n4 fresh ? H4 [-> Hfresh]. by apply sim_setitem. }
  intros n4 u ? H4 _.
  next sim_getitem. intros n5 lst ? H5 [-> Hlst].
  next sim_getitem. intros n6 fields ? H6 [-> Hfields].
  next sim_getitem. intros n7 creator ? H7 [-> Hcreator].
  next sim_getitem. intros n8 a ? H8 [-> Ha].
  next sim_getitem. intros n9 fields2 ? H9 [-> Hfields2].
  next sim_getitem. intros n10 created ? H10 [-> Hcreated].
  next sim_py_strptime. intros n11 t ? H11 [-> Ht].
  next (sim_alloc_event n11 a t (VInt 0) (VStr "Create") first_step);
    [older|done|done|done|older|].
  intros n12 ev ? H12 [-> Hev].
  next sim_append; [done|]. intros n13 u2 ? H13 _.
  next sim_getitem. intros n14 changelog ? H14 [-> Hcl].
  next sim_getitem. intros n15 hs ? H15 [-> Hhs].
  next sim_elements. intros n16 hs2 ? H16 [-> Hhs2].
  eapply sim_bind with (R := Req).
  { apply sim_for_with; [|done]. intros n17 x st H17 Hx. apply histories_body_reloc. }
  intros n17 st ? H17 _.
  next sim_getitem. intros n18 lst2 ? H18 [-> Hlst2].
  next sim_elements. intros n19 evs ? H19 [-> Hevs].
  apply sim_for_; [|done]. intros n20 x H20 Hx. apply outer_body_reloc.
Qed.

Lemma get_transitions_reloc n self self' issues first_step :
  below n first_step ->
  sim n Rv (Heap.get_transitions strptime self issues first_step)
           (Heap.get_transitions strptime self' (shv issues) (shv first_step)).
Proof.
  intros Hfs. unfold Heap.get_transitions.
  next (sim_alloc n (ODict ∅)); [apply map_Forall_empty|].
  intros n1 results ? H1 [-> Hresults].
  next sim_elements. intros n2 its ? H2 [-> Hits].
  eapply sim_bind with (R := Req).
  { apply sim_for_; [|done]. intros n3 x H3 Hx. apply issue_body_reloc. older. }
  intros n3 u ? H3 _. apply sim_ret. intros m Hm. split; [done|]. older.
Qed.

End Method.

Lemma reify_shift hl hr :
  rel hl hr -> forall depth v, reify depth hr (shv v) = reify depth hl v.
Proof.
  intros Hrel. induction depth as [|depth IH]; intros [| | | | |l]; simpl; try done.
  rewrite (rel_lookup _ _ l Hrel).
  destruct (hl !! l) as [[d|vs]|]; simpl; [| |done]; f_equal.
  - rewrite <- map_fmap_compose. apply map_fmap_ext. intros k v _. apply IH.
  - rewrite <- list_fmap_compose. apply list_fmap_ext. intros i v _. apply IH.
Qed.

End Shift.

Lemma reify_extend h B :
  closed h ->
  forall depth v, below (length h) v -> reify depth (h ++ B) v = reify depth h v.
Proof.
  intros Hc. induction depth as [|depth IH]; intros [| | | | |l]; simpl; try done.
  intros Hl. rewrite lookup_app_l by done.
  destruct (h !! l) as [[d|vs]|] eqn:Ho; [| |done]; f_equal.
  - apply map_fmap_ext. intros k v Hk. apply IH.
    by apply (closed_lookup _ _ _ Hc Ho k v).
  - apply list_fmap_ext. intros i v Hi. apply IH.
    by apply (proj1 (Forall_lookup _ _) (closed_lookup _ _ _ Hc Ho) i v).
Qed.

Lemma unchanged_prefix h h1 : unchanged h h1 -> h1 = h ++ drop (length h) h1.
Proof.
  intros Hu. rewrite <- (take_drop (length h) h1) at 1. f_equal.
  apply list_eq. intros i. destruct (h !! i) as [o|] eqn:Hi.
  - rewrite lookup_take_lt by (by eapply lookup_lt_Some). by apply Hu.
  - apply lookup_ge_None in Hi. by rewrite lookup_take_ge.
Qed.

(** C7. Two calls in a row with the same issues and first step, on any two
    instances and whatever the store holds, end the same way: both raise the
    same exception, or they return two distinct dictionaries that, read back
    from the store to any depth, are the same data; the second call leaves
    what the first returned as it was.  The store is any store without
    dangling references. *)
Theorem repeated_call_same_result strptime self self' issues first_step
    h h1 h2 o1 o2 :
  closed h -> below (length h) issues -> below (length h) first_step ->
  Heap.get_transitions strptime self issues first_step h = (h1, o1) ->
  Heap.get_transitions strptime self' issues first_step h1 = (h2, o2) ->
  match o1, o2 with
  | inr v1, inr v2 =>
      v1 <> v2 /\
      forall depth,
        reify depth h2 v1 = reify depth h1 v1 /\
        reify depth h2 v2 = reify depth h2 v1
  | inl e1, inl e2 => e1 = e2
  | _, _ => False
  end.
Proof.
  intros Hc Hi Hf Hrun1 Hrun2.
  pose proof (Frame.get_transitions_owned strptime self issues first_step h h eq_refl)
    as Ho.
  rewrite Hrun1 in Ho.
  assert (unchanged h h1) as Hu by (destruct o1; [exact Ho|exact (proj1 Ho)]).
  set (A := drop (length h) h1).
  assert (h1 = h ++ A) as Hh1 by (by apply unchanged_prefix).
  assert (sho (length h) A <$> h = h) as Hsame.
  { transitivity (id <$> h); [|apply list_fmap_id].
    apply list_fmap_ext. intros i o Ho'. apply sho_below. by eapply closed_lookup. }
  assert (rel (length h) A h h1) as Hrel.
  { split; [done|]. split; [done|].
    by rewrite firstn_all, drop_all, Hsame, app_nil_r. }
  pose proof (get_transitions_reloc (length h) A strptime (length h) self self'
                issues first_step Hf h h1 Hrel (Nat.le_refl _)) as Hsim.
  rewrite (shv_below _ _ issues Hi), (shv_below _ _ first_step Hf) in Hsim.
  rewrite Hrun1, Hrun2 in Hsim. simpl in Hsim.
  destruct Hsim as (Hrel2 & _ & HR).
  destruct o1 as [e1|v1], o2 as [e2|v2]; try done.
  destruct HR as [-> Hv1]. destruct Ho as [_ ->]. simpl in Hv1.
  destruct Hrel2 as (Hc1 & _ & Hh2).
  assert (h2 = h1 ++ (sho (length h) A <$> A)) as Hext.
  { rewrite Hh2. rewrite Hh1 at 1 2.
    rewrite take_app_length, drop_app_length, Hsame. by rewrite Hh1, <- app_assoc. }
  split.
  - simpl. unfold sh. rewrite Nat.ltb_irrefl. intros [= Heq].
    assert (length h1 = length h + length A) by (by rewrite Hh1, length_app).
    lia.
  - intros depth.
    assert (reify depth h2 (VRef (length h)) = reify depth h1 (VRef (length h))) as H1
      by (rewrite Hext; by apply reify_extend).
    split; [exact H1|]. rewrite H1.
    apply reify_shift. rewrite Hext, Hh1.
    split; [by rewrite <- Hh1|]. split; [rewrite length_app; lia|].
    by rewrite take_app_length, drop_app_length, Hsame, <- app_assoc.
Qed.

End Relocation.


Module HeapRuns2.
Import Heap HeapSpec HeapExamples.

(** The second call is made on another instance. *)
Example run_B_again :
  get_transitions RefParser.strptime VNone (VRef 9) (VStr "Open") (store_B ++ added_B)
  = ((store_B ++ added_B) ++ added_B2, inr (VRef 15)).
Proof. vm_compute. reflexivity. Qed.

Ltac repr_solve :=
  repeat first
    [ progress unfold repr_issues, repr_issue, repr_change, repr_item, repr_name,
        is_dict, is_list
    | intro | eexists | split | apply Forall2_cons | apply Forall2_nil
    | reflexivity | vm_compute; reflexivity ].

Lemma store_B_issues : repr_issues store_B (VRef 9) [Examples.issue_B].
Proof. repr_solve. Defined.

End HeapRuns2.

Lemma repeated_call_same_result_witness :
  let h1 := HeapExamples.store_B ++ HeapExamples.added_B in
  let h2 := h1 ++ HeapExamples.added_B2 in
  Relocate.closed HeapExamples.store_B
  /\ Heap.get_transitions RefParser.strptime (Heap.VRef 10) (Heap.VRef 9)
       (Heap.VStr "Open") HeapExamples.store_B = (h1, inr (Heap.VRef 11))
  /\ Heap.get_transitions RefParser.strptime Heap.VNone (Heap.VRef 9)
       (Heap.VStr "Open") h1 = (h2, inr (Heap.VRef 15))
  /\ Heap.VRef 11 <> Heap.VRef 15
  /\ forall depth,
       Relocate.reify depth h2 (Heap.VRef 11) = Relocate.reify depth h1 (Heap.VRef 11) /\
       Relocate.reify depth h2 (Heap.VRef 15) = Relocate.reify depth h2 (Heap.VRef 11).
Proof.
  intros h1 h2.
  assert (Relocate.closed HeapExamples.store_B) as Hc.
  { unfold Relocate.closed. apply Forall_lookup. intros l o Hl.
    do 11 (destruct l as [|l]; [injection Hl as <-; unfold HeapExamples.dict; simpl;
        first [ repeat (apply map_Forall_insert_2; [simpl; lia || exact I|]);
                apply map_Forall_empty
              | repeat (constructor; [simpl; lia|]); constructor ]|]).
    discriminate Hl. }
  assert (Relocate.below (length HeapExamples.store_B) (Heap.VRef 9)) as Hi
    by (simpl; lia).
  assert (Relocate.below (length HeapExamples.store_B) (Heap.VStr "Open")) as Hf
    by exact I.
  split; [exact Hc|]. split; [exact HeapRuns.run_B|].
  split; [exact HeapRuns2.run_B_again|].
  exact (Relocation.repeated_call_same_result RefParser.strptime _ _ _ _ _ _ _ _ _
           Hc Hi Hf HeapRuns.run_B HeapRuns2.run_B_again).
Defined.


Module LastMatchRuns.
Import Examples LastMatch.

(** Both step-0 events pass the test for the status change; the scan
    settles on the later one, so the duration is 0 days and not 1. *)
Example last_match_wins :
  get_transitions RefParser.strptime [issue_A; issue_later] "Open"
  = inr {[ "X-1"%string :=
             [ created_event;
               mk_event "Alice" t_changed 0 "Create" "Open" None;
               mk_event "Bob" t_changed 1 "Open" "Done" (Some (total_days 0)) ] ]}.
Proof. vm_compute. reflexivity. Qed.

End LastMatchRuns.

(** * Further results *)

(** ** More about [get_transitions] *)

Section MoreTransitions.

Variable strptime : string -> option datetime.

Lemma item_events_well_formed change its : forall n evs,
  item_events strptime change its n = inr evs ->
  status_items its <> [] ->
  is_Some (change_author change) /\ is_Some (strptime (change_created change)).
Proof.
  induction its as [|it its IH]; intros n evs; simpl; [done|].
  unfold status_items. simpl. fold (status_items its).
  destruct (String.eqb (field it) "status"); [|by apply IH].
  unfold displayName, parse_timestamp.
  destruct (change_author change) as [a|]; [|done]. simpl.
  destruct (strptime (change_created change)) as [t|]; [|done].
  intros _ _. split; by eexists.
Qed.

Lemma history_events_well_formed hs : forall n evs,
  history_events strptime hs n = inr evs ->
  Forall (well_formed_change strptime) hs.
Proof.
  induction hs as [|h hs IH]; intros n evs; simpl; [constructor|].
  destruct (item_events _ h _ _) as [|evs1] eqn:H1; [done|]. simpl.
  destruct (history_events _ _ _) as [|rest] eqn:Hr; [done|]. intros _.
  constructor; [|by eapply IH]. intros Hne. by eapply item_events_well_formed.
Qed.

Lemma issue_events_well_formed first_step issue evs :
  issue_events strptime first_step issue = inr evs ->
  well_formed_issue strptime issue.
Proof.
  unfold issue_events, displayName, parse_timestamp, well_formed_issue.
  destruct (creator issue) as [a|]; [|done]. simpl.
  destruct (strptime (created issue)) as [t|]; [|done]. simpl.
  destruct (history_events _ _ _) as [|rest] eqn:Hr; [done|]. intros _.
  split; [by eexists|]. split; [by eexists|]. by eapply history_events_well_formed.
Qed.

Lemma all_events_well_formed first_step issues : forall kevs,
  all_events strptime first_step issues = inr kevs ->
  Forall (well_formed_issue strptime) issues.
Proof.
  induction issues as [|issue issues IH]; intros kevs; simpl; [constructor|].
  destruct (issue_events _ _ issue) as [|evs] eqn:He; [done|]. simpl.
  destruct (all_events _ _ issues) as [|rest] eqn:Hr; [done|]. intros _.
  constructor; [by eapply issue_events_well_formed | by eapply IH].
Qed.

Lemma get_transitions_well_formed issues first_step results :
  get_transitions strptime issues first_step = inr results ->
  Forall (well_formed_issue strptime) issues.
Proof.
  rewrite get_transitions_absorb.
  destruct (all_events strptime first_step issues) as [|kevs] eqn:Hk; [done|].
  intros _. by eapply all_events_well_formed.
Qed.

(** X1. The call returns exactly when every record has the creator's display
    name and a creation timestamp that parses and, in each changelog entry
    with a status change, the author's display name and a timestamp that
    parses; on any other input it raises. *)
Theorem returns_iff_well_formed issues first_step :
  (exists results, get_transitions strptime issues first_step = inr results)
  <-> Forall (well_formed_issue strptime) issues.
Proof.
  split; [|apply get_transitions_ok].
  intros [results Hg]. by eapply get_transitions_well_formed.
Qed.

Lemma all_events_records_for first_step k issues : forall kevs,
  all_events strptime first_step issues = inr kevs ->
  all_events strptime first_step (records_for k issues)
  = inr (filter (fun p => p.1 = k) kevs).
Proof.
  induction issues as [|issue issues IH]; intros kevs; simpl.
  - by intros [= <-].
  - destruct (issue_events _ _ issue) as [|evs] eqn:He; [done|]. simpl.
    destruct (all_events _ _ issues) as [|rest] eqn:Hr; [done|]. simpl.
    intros [= <-]. unfold records_for in *.
    destruct (decide (key issue = k)) as [Hk|Hk].
    + rewrite !filter_cons_True by done. simpl. rewrite He. simpl.
      by rewrite (IH rest eq_refl).
    + rewrite !filter_cons_False by done. by apply IH.
Qed.

Lemma raw_events_filter_eq k (kevs : list (string * list TransitionEvent)) :
  raw_events k (filter (fun p => p.1 = k) kevs) = raw_events k kevs.
Proof.
  induction kevs as [|[k' evs] kevs IH]; [done|].
  destruct (decide (k' = k)) as [->|Hk].
  - rewrite filter_cons_True by done. by rewrite !raw_events_cons_eq, IH.
  - rewrite filter_cons_False by done. by rewrite raw_events_cons_ne.
Qed.

Lemma keys_filter_eq k (kevs : list (string * list TransitionEvent)) k' :
  k' ∈ (filter (fun p => p.1 = k) kevs).*1 <-> k' = k /\ k ∈ kevs.*1.
Proof.
  rewrite !list_elem_of_fmap. split.
  - intros ([k1 evs] & -> & Hin). apply list_elem_of_filter in Hin as [Hk Hin].
    simpl in *. split; [done|]. exists (k1, evs). by split.
  - intros [-> ([k1 evs] & Hk & Hin)]. simpl in Hk. subst k1.
    exists (k, evs). split; [done|]. by apply list_elem_of_filter.
Qed.

(** X2. What the call returns under a key depends only on the records that
    carry that key: run on those records alone, the call returns the same
    list under that key, and nothing under any other key. *)
Theorem per_key_independent issues first_step results k :
  get_transitions strptime issues first_step = inr results ->
  exists results',
    get_transitions strptime (records_for k issues) first_step = inr results' /\
    results' !! k = results !! k /\
    forall k', k' <> k -> results' !! k' = None.
Proof.
  rewrite !get_transitions_absorb.
  destruct (all_events strptime first_step issues) as [|kevs] eqn:Hk; [done|].
  rewrite (all_events_records_for _ _ _ _ Hk). simpl. intros [= <-].
  eexists. split; [done|]. split.
  - rewrite !absorbed_lookup, raw_events_filter_eq.
    destruct (decide (k ∈ kevs.*1)) as [Hin|Hin].
    + rewrite decide_True; [done|]. by apply keys_filter_eq.
    + rewrite decide_False; [done|]. by intros [_ ?]%keys_filter_eq.
  - intros k' Hne. rewrite absorbed_lookup.
    rewrite decide_False; [done|]. by intros [? _]%keys_filter_eq.
Qed.

Lemma status_pairs_cons h hs :
  status_pairs (h :: hs)
  = ((fun it => (h, it)) <$> status_items (items h)) ++ status_pairs hs.
Proof. done. Qed.

Lemma item_events_contents c its : forall n evs,
  item_events strptime c its n = inr evs ->
  length evs = length (status_items its) /\
  forall (i : nat) it, status_items its !! i = Some it ->
    exists e, evs !! i = Some e /\ records_change strptime c it (n + Z.of_nat i) e.
Proof.
  induction its as [|it its IH]; intros n evs; simpl.
  - intros [= <-]. split; [done|]. intros i it'. by rewrite lookup_nil.
  - unfold status_items. simpl. fold (status_items its).
    destruct (String.eqb (field it) "status"); [|by apply IH].
    unfold displayName, parse_timestamp.
    destruct (change_author c) as [a|] eqn:Ha; [|done]. simpl.
    destruct (strptime (change_created c)) as [t|] eqn:Ht; [|done]. simpl.
    destruct (item_events _ _ _ _) as [|rest] eqn:Hr; [done|]. simpl.
    intros [= <-]. destruct (IH _ _ Hr) as [Hlen Hrest]. split.
    + simpl. by rewrite Hlen.
    + intros [|i] it'; simpl.
      * intros [= <-]. eexists. split; [done|].
        repeat split; simpl; try done. lia.
      * intros Hi. destruct (Hrest i it' Hi) as (e & He & Hc).
        exists e. split; [done|].
        destruct Hc as (? & ? & Hs & ? & ?). repeat split; try done. lia.
Qed.

Lemma history_events_contents hs : forall n evs,
  history_events strptime hs n = inr evs ->
  length evs = length (status_pairs hs) /\
  forall (i : nat) c it, status_pairs hs !! i = Some (c, it) ->
    exists e, evs !! i = Some e /\ records_change strptime c it (n + Z.of_nat i) e.
Proof.
  induction hs as [|h hs IH]; intros n evs; simpl.
  - intros [= <-]. split; [done|]. intros i c it. by rewrite lookup_nil.
  - destruct (item_events _ h _ _) as [|evs1] eqn:H1; [done|]. simpl.
    destruct (history_events _ _ _) as [|rest] eqn:Hr; [done|]. simpl.
    intros [= <-]. rewrite status_pairs_cons.
    destruct (item_events_contents _ _ _ _ H1) as [Hl1 Hc1].
    destruct (IH _ _ Hr) as [Hl2 Hc2]. split.
    + by rewrite !length_app, length_fmap, Hl1, Hl2.
    + intros i c it Hi. apply lookup_app_Some in Hi as [Hi|[Hge Hi]].
      * apply list_lookup_fmap_Some in Hi as (it' & [= -> ->] & Hi).
        destruct (Hc1 i it' Hi) as (e & He & Hc).
        exists e. split; [|done]. by apply lookup_app_l_Some.
      * rewrite length_fmap, <- Hl1 in Hi, Hge.
        destruct (Hc2 _ c it Hi) as (e & He & Hc).
        exists e. split.
        -- rewrite lookup_app_r by lia. done.
        -- destruct Hc as (? & ? & Hs & ? & ?). repeat split; try done. lia.
Qed.

Lemma issue_events_emits first_step issue evs :
  issue_events strptime first_step issue = inr evs ->
  emits strptime first_step issue evs.
Proof.
  unfold issue_events, displayName, parse_timestamp.
  destruct (creator issue) as [a|] eqn:Ha; [|done]. simpl.
  destruct (strptime (created issue)) as [t|] eqn:Ht; [|done]. simpl.
  destruct (history_events _ _ _) as [|rest] eqn:Hr; [done|]. simpl.
  intros [= <-]. destruct (history_events_contents _ _ _ Hr) as [Hl Hc].
  split; [simpl; by rewrite Hl|]. split.
  - eexists. split; [done|]. by repeat split.
  - intros i c it Hi. destruct (Hc i c it Hi) as (e & He & Hce).
    exists e. split; [done|].
    destruct Hce as (? & ? & Hs & ? & ?). repeat split; try done. lia.
Qed.

Lemma emits_fmap first_step issue block (f : TransitionEvent -> TransitionEvent) :
  (forall x, strip (f x) = strip x) ->
  emits strptime first_step issue block ->
  emits strptime first_step issue (f <$> block).
Proof.
  intros Hf (Hl & (e0 & H0 & Hc0) & Hrest).
  assert (forall x, author (f x) = author x /\ timestamp (f x) = timestamp x /\
                    step (f x) = step x /\ ev_from (f x) = ev_from x /\
                    ev_to (f x) = ev_to x) as Hfields
    by (intros x; apply strip_eq_fields, Hf).
  split; [by rewrite length_fmap|]. split.
  - exists (f e0). split; [by rewrite list_lookup_fmap, H0|].
    unfold records_creation in *.
    destruct (Hfields e0) as (-> & -> & -> & -> & ->). exact Hc0.
  - intros i c it Hi. destruct (Hrest i c it Hi) as (e & He & Hc).
    exists (f e). split; [by rewrite list_lookup_fmap, He|].
    unfold records_change in *.
    destruct (Hfields e) as (-> & -> & -> & -> & ->). exact Hc.
Qed.

Lemma fmap_concat {A B} (f : A -> B) (ls : list (list A)) :
  f <$> concat ls = concat ((fun l : list A => f <$> l) <$> ls).
Proof.
  induction ls as [|l ls IH]; [done|]. simpl. by rewrite fmap_app, IH.
Qed.

(** X3. The list returned under a key is made of one block per record
    carrying that key, in input order; a block holds the synthetic event
    (creator, creation time, step 0, from "Create" to the first step) and
    then, for the i-th status change of the record's changelog, an event with
    that entry's author and time, step i, and the change's from and to. *)
Theorem rows_of_key issues first_step results k :
  get_transitions strptime issues first_step = inr results ->
  k ∈ key <$> issues ->
  exists blocks,
    results !! k = Some (concat blocks) /\
    Forall2 (emits strptime first_step) (records_for k issues) blocks.
Proof.
  intros Hg Hin.
  destruct (get_transitions_lookup _ _ _ _ Hg) as (kevs & Hk & Hlook).
  destruct (all_events_records _ _ _ _ k Hk) as (evss & HF & Hraw).
  exists ((fun l : list TransitionEvent => fill (raw_events k kevs) <$> l) <$> evss).
  split.
  - rewrite Hlook, decide_True by done. by rewrite <- fmap_concat, <- Hraw.
  - apply Forall2_fmap_r. eapply Forall2_impl; [exact HF|].
    intros issue evs He. apply emits_fmap; [intros; apply strip_fill|].
    by apply issue_events_emits.
Qed.

End MoreTransitions.

Lemma filter_none_after (P : TransitionEvent -> bool) (l : list TransitionEvent) :
  (forall (j : nat) p, l !! j = Some p -> P p = false) -> List.filter P l = [].
Proof.
  induction l as [|x l IH]; intros H; [done|]. simpl.
  rewrite (H 0%nat x eq_refl). apply IH. intros j p Hj. by apply (H (S j)).
Qed.

(** The scan settles on the last event of the list that passes its test. *)
Lemma predecessor_last l e (j : nat) p :
  l !! j = Some p -> is_predecessor p e ->
  (forall (j' : nat) p', (j < j')%nat -> l !! j' = Some p' -> ~ is_predecessor p' e) ->
  predecessor l e = Some p.
Proof.
  intros Hj Hp Hlast. unfold predecessor.
  rewrite <- (take_drop_middle l j p Hj), List.filter_app. simpl.
  rewrite (proj2 (precedes_spec _ _ _) Hp).
  rewrite (filter_none_after _ (drop (S j) l)).
  - by rewrite last_snoc.
  - intros j' p' Hj'. rewrite lookup_drop in Hj'.
    destruct (precedes (ev_from e) (step e) p') eqn:Hpr; [|done].
    apply precedes_spec in Hpr. destruct (Hlast (S j + j')%nat p'); [lia|done..].
Qed.

(** X4. For any list of events, the back-fill of lines 120-132 keeps every
    event at its index with its author, timestamp, step, from and to.  An
    event for which no event of the list has [to] equal to its [from] and a
    step one below its own keeps the duration it had, if any.  Otherwise its
    duration is set from the last such event P of the list: to
    [max (E.timestamp - P.timestamp, 0)] expressed in days, the float that
    [total_seconds() / (24 * 3600)] yields, which is the difference in
    microseconds over 86400000000 to within a relative error of [2 ^ -51]. *)
Theorem backfill_pointwise (l : list TransitionEvent) (i : nat) e :
  l !! i = Some e ->
  exists e',
    backfill l !! i = Some e' /\
    author e' = author e /\ timestamp e' = timestamp e /\ step e' = step e /\
    ev_from e' = ev_from e /\ ev_to e' = ev_to e /\
    ((forall p, p ∈ l -> ~ is_predecessor p e) -> duration e' = duration e) /\
    (forall (j : nat) p,
       l !! j = Some p -> is_predecessor p e ->
       (forall (j' : nat) p',
          (j < j')%nat -> l !! j' = Some p' -> ~ is_predecessor p' e) ->
       let gap := Z.max (instant (timestamp e) - instant (timestamp p)) 0 in
       exists d, duration e' = Some d /\ d = total_days gap /\ in_days d gap).
Proof.
  intros Hi. exists (fill l e). rewrite backfill_fill, list_lookup_fmap, Hi.
  split; [done|].
  destruct (strip_eq_fields _ _ (strip_fill l e)) as (Ha & Ht & Hs & Hf & Hto).
  do 5 (split; [done|]). split.
  - intros Hno. apply predecessor_None in Hno. unfold fill. by rewrite Hno.
  - intros j p Hj Hp Hlast gap. unfold fill.
    rewrite (predecessor_last _ _ _ _ Hj Hp Hlast). simpl.
    eexists. split; [done|]. rewrite elapsed_max. split; [done|].
    apply total_days_in_days. unfold gap. lia.
Qed.

(** X5. Back-filling a list that was already back-filled and then extended
    gives what back-filling the extended list at once gives; with nothing
    appended, running the back-fill twice changes nothing. *)
Theorem backfill_incremental (l evs : list TransitionEvent) :
  backfill (backfill l ++ evs) = backfill (l ++ evs)
  /\ backfill (backfill l) = backfill l.
Proof.
  assert (forall evs, backfill (backfill l ++ evs) = backfill (l ++ evs)) as H.
  { intros evs'. rewrite (backfill_fill l), backfill_extend.
    by rewrite <- backfill_fill. }
  split; [apply H|]. specialize (H []). by rewrite !app_nil_r in H.
Qed.

Lemma per_key_independent_witness :
  exists results results',
    get_transitions RefParser.strptime
      [Examples.issue_B; MoreExamples.issue_multi; LastMatch.issue_later] "Open"
    = inr results /\
    get_transitions RefParser.strptime
      (records_for "X-1" [Examples.issue_B; MoreExamples.issue_multi;
                          LastMatch.issue_later]) "Open"
    = inr results' /\
    results' !! "X-1"%string = results !! "X-1"%string /\
    forall k', k' <> "X-1"%string -> results' !! k' = None.
Proof.
  destruct (get_transitions RefParser.strptime
              [Examples.issue_B; MoreExamples.issue_multi; LastMatch.issue_later]
              "Open") as [e|results] eqn:H.
  - exfalso. vm_compute in H. discriminate H.
  - destruct (per_key_independent RefParser.strptime _ _ _ "X-1"%string H)
      as (results' & H1 & H2 & H3).
    exists results, results'. repeat split; assumption.
Defined.

Lemma rows_of_key_witness :
  exists blocks,
    ({[ "X-1"%string := [Examples.created_event; Examples.done_event;
                         Examples.created_event; Examples.done_event] ]}
       : gmap string (list TransitionEvent)) !! "X-1"%string
    = Some (concat blocks) /\
    Forall2 (emits RefParser.strptime "Open")
            (records_for "X-1" MoreExamples.twice) blocks.
Proof.
  apply (rows_of_key RefParser.strptime _ _ _ _ MoreRuns.twice_result).
  apply list_elem_of_here.
Defined.

Lemma backfill_pointwise_witness :
  let e := mk_event "Bob" Examples.t_changed 1 "Open" "Done" None in
  let l := [Examples.created_event; e] in
  exists e',
    backfill l !! 1%nat = Some e' /\
    author e' = "Bob"%string /\ step e' = 1 /\
    exists d, duration e' = Some d /\ d = total_days 86400000000 /\
              in_days d 86400000000.
Proof.
  intros e l.
  assert (l !! 1%nat = Some e) as Hi by reflexivity.
  destruct (backfill_pointwise l 1 e Hi)
    as (e' & He' & Ha & _ & Hs & _ & _ & _ & Hd).
  exists e'. split; [exact He'|]. split; [exact Ha|]. split; [exact Hs|].
  apply (Hd 0%nat Examples.created_event); [reflexivity|by split|].
  intros [|[|j']] p' Hlt Hp'; [lia| |done].
  injection Hp' as <-. intros [_ Hst]. simpl in Hst. lia.
Defined.

(** ** The client *)

Module ClientFacts.
Import Client ClientSpec.

Local Open Scope nat_scope.

Section Fetching.

Context {Issue : Type}.
Variable send : list request -> request -> failure + @response Issue.
Variable self : JiraAPI.
Variable jql : string.
Variable fields : option (list string).

Lemma absorb_reply_ok (acc : list Issue) r acc' b :
  absorb_reply acc r = inr (acc', b) ->
  acc' = acc ++ issues_of (inr r) /\
  exists total, total_of (inr r) = Some total /\
                b = (Z.of_nat (length acc') >=? total)%Z.
Proof.
  unfold absorb_reply, issues_of, total_of. destruct r as [[msg|] [f|[[new|] [total|]]]];
    simpl; try discriminate.
  intros [= <- <-]. split; [done|]. by exists total.
Qed.

(** The requests of a run, whatever its end: round [i] asks for the
    hundred issues from [100 * i] on. *)
Lemma fetch_loop_requests fuel : forall log0 acc (k : nat) log out,
  fetch_loop send fuel self jql fields log0 acc (100 * Z.of_nat k) = (log, out) ->
  exists m, m <= fuel /\
            log = log0 ++ (nth_request self jql fields <$> seq k m).
Proof.
  induction fuel as [|fuel IH]; intros log0 acc k log out; simpl.
  - intros [= <- <-]. exists 0. split; [lia|]. by rewrite app_nil_r.
  - unfold round. fold (nth_request self jql fields k).
    destruct (send log0 _) as [f|r].
    + intros [= <- <-]. exists 1. split; [lia|done].
    + destruct (absorb_reply acc r) as [f|[acc' [|]]].
      * intros [= <- <-]. exists 1. split; [lia|done].
      * intros [= <- <-]. exists 1. split; [lia|done].
      * replace (100 * Z.of_nat k + max_results)%Z with (100 * Z.of_nat (S k))%Z
          by (unfold max_results; lia).
        intros H. destruct (IH _ _ _ _ _ H) as (m & Hm & ->).
        exists (S m). split; [lia|]. by rewrite <- app_assoc.
Qed.

Lemma nth_request_params (i : nat) :
  let req := nth_request self jql fields i in
  url req = (base_url self ++ "/rest/api/2/search")%string /\
  assoc "jql" (params req) = Some (PStr jql) /\
  int_param "startAt" req = Some (100 * Z.of_nat i)%Z /\
  int_param "maxResults" req = Some 100%Z /\
  assoc "expand" (params req) = Some (PStr "transitions,changelog") /\
  assoc "fields" (params req)
  = match fields with
    | Some (f :: fs) => Some (PList (f :: fs))
    | _ => None
    end /\
  req_headers req = headers self /\ req_verify req = verify self.
Proof. destruct fields as [[|f fs]|]; repeat split. Qed.

(** X6. Whatever the network answers, the i-th request of a call (counted
    from 0) goes to the search endpoint under the base URL with the
    instance's headers and certificate setting, and asks for the query, 100
    results from offset 100 * i, the changelog expansion, and the fields
    exactly when a non-empty list of them was passed. *)
Theorem requests_sent fuel log out (i : nat) req :
  get_issues_by_filter send fuel self jql fields = (log, out) ->
  log !! i = Some req ->
  url req = (base_url self ++ "/rest/api/2/search")%string /\
  assoc "jql" (params req) = Some (PStr jql) /\
  int_param "startAt" req = Some (100 * Z.of_nat i)%Z /\
  int_param "maxResults" req = Some 100%Z /\
  assoc "expand" (params req) = Some (PStr "transitions,changelog") /\
  assoc "fields" (params req)
  = match fields with
    | Some (f :: fs) => Some (PList (f :: fs))
    | _ => None
    end /\
  req_headers req = headers self /\ req_verify req = verify self.
Proof.
  unfold get_issues_by_filter. intros H Hi.
  apply (fetch_loop_requests fuel [] [] 0) in H as (m & _ & ->).
  simpl in Hi. apply list_lookup_fmap_Some in Hi as (j & -> & Hj).
  apply lookup_seq in Hj as [-> _]. apply nth_request_params.
Qed.

Lemma fetch_loop_returned fuel : forall log0 acc s log issues,
  fetch_loop send fuel self jql fields log0 acc s = (log, Returned issues) ->
  exists pre req,
    log = log0 ++ pre ++ [req] /\
    issues = acc ++ concat (received_from send log0 (pre ++ [req])) /\
    exists total, total_of (send (log0 ++ pre) req) = Some total /\
                  (total <= Z.of_nat (length issues))%Z.
Proof.
  induction fuel as [|fuel IH]; intros log0 acc s log issues; simpl; [done|].
  unfold round. set (req := search_request self jql fields s).
  destruct (send log0 req) as [f|r] eqn:Hr; [done|].
  destruct (absorb_reply acc r) as [f|[acc' b]] eqn:Ha; [done|].
  apply absorb_reply_ok in Ha as (-> & total & Ht & ->).
  destruct (_ >=? _)%Z eqn:Hb.
  - intros [= <- <-]. exists [], req. rewrite app_nil_r, app_nil_l.
    cbn [received_from concat]. rewrite Hr, app_nil_r.
    split; [done|]. split; [done|]. exists total. split; [done|].
    by apply Z.geb_le.
  - intros H.
    destruct (IH _ _ _ _ _ H) as (pre & req' & -> & -> & total' & Htot & Hle).
    exists (req :: pre), req'. split; [by rewrite <- !app_assoc|].
    split; [cbn [received_from concat app]; by rewrite Hr, <- !app_assoc|].
    exists total'. rewrite <- app_assoc in Htot. by split.
Qed.

(** X7. If the call returns, what it returns is the issues of the replies
    to its requests, one reply after the other, nothing dropped and nothing
    removed, and the last reply announces a total no greater than their
    number. *)
Theorem returned_issues fuel log issues :
  get_issues_by_filter send fuel self jql fields = (log, Returned issues) ->
  issues = concat (received_from send [] log) /\
  exists pre req total,
    log = pre ++ [req] /\ total_of (send pre req) = Some total /\
    (total <= Z.of_nat (length issues))%Z.
Proof.
  unfold get_issues_by_filter. intros H.
  apply fetch_loop_returned in H as (pre & req & -> & -> & total & Ht & Hle).
  split; [done|]. by exists pre, req, total.
Qed.

Lemma fetch_loop_raised fuel : forall log0 acc s log f,
  fetch_loop send fuel self jql fields log0 acc s = (log, Raised f) ->
  exists pre req,
    log = log0 ++ pre ++ [req] /\
    match send (log0 ++ pre) req with
    | inl f' => f' = f
    | inr r => absorb_reply (acc ++ concat (received_from send log0 pre)) r = inl f
    end.
Proof.
  induction fuel as [|fuel IH]; intros log0 acc s log f; simpl; [done|].
  unfold round. set (req := search_request self jql fields s).
  destruct (send log0 req) as [f'|r] eqn:Hr.
  { intros [= <- <-]. exists [], req. rewrite app_nil_r, Hr. by split. }
  destruct (absorb_reply acc r) as [f'|[acc' b]] eqn:Ha.
  { intros [= <- <-]. exists [], req. rewrite app_nil_r, Hr. split; [done|].
    cbn [received_from concat]. by rewrite app_nil_r. }
  apply absorb_reply_ok in Ha as (-> & _). destruct b; [done|].
  intros H. destruct (IH _ _ _ _ _ H) as (pre & req' & -> & Hlast).
  exists (req :: pre), req'. split; [by rewrite <- !app_assoc|].
  rewrite <- app_assoc in Hlast. cbn [received_from concat app]. rewrite Hr.
  by rewrite <- app_assoc in Hlast.
Qed.

(** X8. If the call raises, the exception is that of its last round: the
    one [requests.get] raised, or the one reading the reply raised given the
    issues of the replies before it (an HTTP error status, a body that is
    not JSON, a body without "issues" or without "total"). *)
Theorem raised_failure fuel log f :
  get_issues_by_filter send fuel self jql fields = (log, Raised f) ->
  exists pre req,
    log = pre ++ [req] /\
    match send pre req with
    | inl f' => f' = f
    | inr r => absorb_reply (concat (received_from send [] pre)) r = inl f
    end.
Proof.
  unfold get_issues_by_filter. intros H.
  apply fetch_loop_raised in H as (pre & req & -> & H). by exists pre, req.
Qed.

Lemma round_paged (cap : nat) (db : list Issue) log0 acc s :
  round (paged cap db) self jql fields log0 acc s
  = (log0 ++ [search_request self jql fields s],
     inr (acc ++ take (Nat.min 100 cap) (drop (Z.to_nat s) db),
          (Z.of_nat (length (acc ++ take (Nat.min 100 cap) (drop (Z.to_nat s) db)))
           >=? Z.of_nat (length db))%Z)).
Proof. unfold round. by destruct fields as [[|f fs]|]. Qed.

Lemma fetch_loop_paged (cap : nat) (db : list Issue) :
  100 <= cap ->
  forall m k fuel log0,
    m <= fuel -> 1 <= m -> length db <= 100 * (k + m) ->
    (1 < m -> 100 * (k + m - 1) < length db) ->
    fetch_loop (paged cap db) fuel self jql fields log0 (take (100 * k) db)
               (100 * Z.of_nat k)
    = (log0 ++ (nth_request self jql fields <$> seq k m), Returned db).
Proof.
  intros Hcap. induction m as [|m IH]; intros k fuel log0 Hfuel Hm Hlen Hmin; [lia|].
  destruct fuel as [|fuel]; [lia|]. cbn [fetch_loop]. rewrite round_paged.
  replace (Z.to_nat (100 * Z.of_nat k)) with (100 * k) by lia.
  rewrite Nat.min_l by done. rewrite take_take_drop.
  destruct (Z.geb_spec (Z.of_nat (length (take (100 * k + 100) db)))
                       (Z.of_nat (length db))) as [Hge|Hlt];
    rewrite length_take in *.
  - assert (m = 0) as -> by lia.
    rewrite take_ge by lia. done.
  - replace (100 * Z.of_nat k + max_results)%Z with (100 * Z.of_nat (S k))%Z
      by (unfold max_results; lia).
    replace (100 * k + 100) with (100 * S k) by lia.
    rewrite IH by lia. by rewrite <- app_assoc.
Qed.

(** X9. Against a service that holds the matching issues and answers each
    request with the slice asked for (up to 100 issues) and the number of
    matches, the call returns all of them, in order, after one request per
    hundred issues, and one request when there is none. *)
Theorem fetches_all (cap : nat) (db : list Issue) fuel :
  100 <= cap -> rounds_for (length db) <= fuel ->
  get_issues_by_filter (paged cap db) fuel self jql fields
  = (nth_request self jql fields <$> seq 0 (rounds_for (length db)), Returned db).
Proof.
  intros Hcap Hfuel. unfold get_issues_by_filter.
  pose proof (Nat.div_mod_eq (length db + 99) 100) as Hdiv.
  pose proof (Nat.mod_upper_bound (length db + 99) 100) as Hmod.
  unfold rounds_for in *.
  apply (fetch_loop_paged cap db Hcap _ 0 fuel []); lia.
Qed.

Lemma fetch_loop_capped (cap : nat) (db : list Issue) :
  cap < 100 -> cap < length db ->
  forall fuel k log0 (acc : list Issue),
    (k = 0 /\ acc = []) \/
    (1 <= k /\ length acc + 100 <= 100 * k + cap /\ length acc < length db) ->
    exists log,
      fetch_loop (paged cap db) fuel self jql fields log0 acc (100 * Z.of_nat k)
      = (log, Unfinished) /\
      length log = length log0 + fuel.
Proof.
  intros Hcap Hdb. induction fuel as [|fuel IH]; intros k log0 acc Hinv.
  - exists log0. split; [done|lia].
  - cbn [fetch_loop]. rewrite round_paged.
    replace (Z.to_nat (100 * Z.of_nat k)) with (100 * k) by lia.
    rewrite Nat.min_r by lia.
    set (new := take cap (drop (100 * k) db)).
    assert (length new = Nat.min cap (length db - 100 * k)) as Hnew
      by (unfold new; by rewrite length_take, length_drop).
    destruct (Z.geb_spec (Z.of_nat (length (acc ++ new))) (Z.of_nat (length db)))
      as [Hge|Hlt]; rewrite length_app in *.
    + exfalso. destruct Hinv as [[-> ->]|(Hk & Ha & Hb)]; simpl in *; lia.
    + replace (100 * Z.of_nat k + max_results)%Z with (100 * Z.of_nat (S k))%Z
        by (unfold max_results; lia).
      destruct (IH (S k) (log0 ++ [search_request self jql fields (100 * Z.of_nat k)])
                  (acc ++ new)) as (log & -> & Hlen).
      * right. rewrite length_app.
        destruct Hinv as [[-> ->]|(Hk & Ha & Hb)]; simpl in *; lia.
      * exists log. split; [done|]. rewrite Hlen, length_app. simpl. lia.
Qed.

(** X10. Against a service that cuts its pages to fewer than 100 issues
    while more issues than one page match, the call never returns: the
    offset still moves by 100 per round, the issues between the pages are
    never asked for, and the count never reaches the total.  However many
    rounds it is given, it uses them all. *)
Theorem capped_never_returns (cap : nat) (db : list Issue) fuel :
  cap < 100 -> cap < length db ->
  exists log,
    get_issues_by_filter (paged cap db) fuel self jql fields = (log, Unfinished) /\
    length log = fuel.
Proof.
  intros Hcap Hdb. unfold get_issues_by_filter.
  destruct (fetch_loop_capped cap db Hcap Hdb fuel 0 [] []) as (log & H & Hlen);
    [by left|].
  exists log. by split.
Qed.

Lemma fetch_loop_ends (bound : nat) :
  (forall log req r total,
     send log req = inr r -> total_of (inr r) = Some total ->
     issues_of (inr r) <> [] /\ (total <= Z.of_nat bound)%Z) ->
  forall fuel (k : nat) log0 acc s,
    k <= length acc -> bound <= k + fuel -> 1 <= fuel ->
    exists log out,
      fetch_loop send fuel self jql fields log0 acc s = (log, out) /\
      out <> Unfinished.
Proof.
  intros Hsend. induction fuel as [|fuel IH]; intros k log0 acc s Hk Hb Hf; [lia|].
  cbn [fetch_loop]. unfold round.
  destruct (send log0 _) as [f|r] eqn:Hr; [by eexists _, _|].
  destruct (absorb_reply acc r) as [f|[acc' b]] eqn:Ha; [by eexists _, _|].
  apply absorb_reply_ok in Ha as (-> & total & Ht & ->).
  destruct (Hsend _ _ _ _ Hr Ht) as [Hne Hle].
  assert (length (issues_of (inr r)) <> 0)
    by (destruct (issues_of (inr r)); [done|simpl; lia]).
  destruct (Z.geb_spec (Z.of_nat (length (acc ++ issues_of (inr r)))) total)
    as [Hge|Hlt]; [by eexists _, _|].
  rewrite length_app in Hlt.
  apply (IH (S k)); rewrite ?length_app; lia.
Qed.

(** X21. If every reply that carries a total carries at least one issue,
    and no total exceeds a bound, the call ends, by returning or by
    raising, within as many rounds as the bound (and one round at least). *)
Theorem ends_within (bound : nat) fuel :
  (forall log req r total,
     send log req = inr r -> total_of (inr r) = Some total ->
     issues_of (inr r) <> [] /\ (total <= Z.of_nat bound)%Z) ->
  Nat.max 1 bound <= fuel ->
  exists log out,
    get_issues_by_filter send fuel self jql fields = (log, out) /\
    out <> Unfinished.
Proof.
  intros Hsend Hfuel. unfold get_issues_by_filter.
  apply (fetch_loop_ends bound Hsend fuel 0); simpl; lia.
Qed.

End Fetching.

(** *** The authorization header *)

Lemma sextet_value_sextet n :
  n < 64 -> sextet_value (sextet n) = Some n /\ Ascii.eqb (sextet n) "=" = false.
Proof.
  intros Hn.
  do 64 (destruct n as [|n]; [by vm_compute|]). lia.
Qed.

Lemma div_add_small x y d : y < d -> (x * d + y) / d = x.
Proof.
  intros Hy. symmetry. apply (Nat.div_unique _ d x y); lia.
Qed.

Lemma mod_add_small x y d : y < d -> (x * d + y) mod d = y.
Proof.
  intros Hy. symmetry. apply (Nat.mod_unique _ d x y); lia.
Qed.

Lemma group_bounds x y z :
  x < 256 -> y < 256 -> z < 256 ->
  x / 4 < 64 /\ x mod 4 * 16 + y / 16 < 64 /\ x mod 4 * 16 < 64 /\
  y mod 16 * 4 + z / 64 < 64 /\ y mod 16 * 4 < 64 /\ z mod 64 < 64.
Proof.
  intros Hx Hy Hz.
  pose proof (Nat.mod_upper_bound x 4). pose proof (Nat.mod_upper_bound y 16).
  pose proof (Nat.mod_upper_bound z 64).
  assert (x / 4 < 64) by (apply Nat.Div0.div_lt_upper_bound; lia).
  assert (y / 16 < 16) by (apply Nat.Div0.div_lt_upper_bound; lia).
  assert (z / 64 < 4) by (apply Nat.Div0.div_lt_upper_bound; lia).
  lia.
Qed.

Lemma first_byte x s : s < 16 -> x / 4 * 4 + (x mod 4 * 16 + s) / 16 = x.
Proof.
  intros Hs. rewrite div_add_small by done.
  pose proof (Nat.div_mod_eq x 4). lia.
Qed.

Lemma second_byte x y s :
  y < 256 -> s < 4 ->
  (x mod 4 * 16 + y / 16) mod 16 * 16 + (y mod 16 * 4 + s) / 4 = y.
Proof.
  intros Hy Hs.
  assert (y / 16 < 16) by (apply Nat.Div0.div_lt_upper_bound; lia).
  rewrite mod_add_small, div_add_small by done.
  pose proof (Nat.div_mod_eq y 16). lia.
Qed.

Lemma third_byte y z :
  z < 256 -> (y mod 16 * 4 + z / 64) mod 4 * 64 + z mod 64 = z.
Proof.
  intros Hz.
  assert (z / 64 < 4) by (apply Nat.Div0.div_lt_upper_bound; lia).
  rewrite mod_add_small by done.
  pose proof (Nat.div_mod_eq z 64). lia.
Qed.


Ltac decode_step :=
  unfold mbind, option_bind; cbv beta iota; rewrite ?Ascii.eqb_refl.

Lemma b64decode_one a : b64decode (b64encode [a]) = Some [a].
Proof.
  cbn [b64encode b64decode].
  pose proof (nat_ascii_bounded a) as Ha.
  destruct (group_bounds (nat_of_ascii a) 0 0) as (B1 & _ & B3 & _); [lia..|].
  destruct (sextet_value_sextet _ B1) as [-> _].
  destruct (sextet_value_sextet _ B3) as [-> _].
  decode_step.
  pose proof (first_byte (nat_of_ascii a) 0) as H1. rewrite Nat.add_0_r in H1.
  by rewrite H1, ascii_nat_embedding by lia.
Qed.

Lemma b64decode_two a b : b64decode (b64encode [a; b]) = Some [a; b].
Proof.
  cbn [b64encode b64decode].
  pose proof (nat_ascii_bounded a) as Ha. pose proof (nat_ascii_bounded b) as Hb.
  destruct (group_bounds (nat_of_ascii a) (nat_of_ascii b) 0)
    as (B1 & B2 & _ & _ & B4 & _); [lia..|].
  destruct (sextet_value_sextet _ B1) as [-> _].
  destruct (sextet_value_sextet _ B2) as [-> _].
  destruct (sextet_value_sextet _ B4) as [-> ->].
  decode_step.
  assert (nat_of_ascii b / 16 < 16) by (apply Nat.Div0.div_lt_upper_bound; lia).
  pose proof (second_byte (nat_of_ascii a) (nat_of_ascii b) 0) as H2.
  rewrite Nat.add_0_r in H2.
  by rewrite first_byte, H2, !ascii_nat_embedding by lia.
Qed.

Lemma b64decode_three a b c rest :
  b64decode (b64encode rest) = Some rest ->
  b64decode (b64encode (a :: b :: c :: rest)) = Some (a :: b :: c :: rest).
Proof.
  intros IH. cbn [b64encode app b64decode].
  pose proof (nat_ascii_bounded a) as Ha. pose proof (nat_ascii_bounded b) as Hb.
  pose proof (nat_ascii_bounded c) as Hc.
  destruct (group_bounds (nat_of_ascii a) (nat_of_ascii b) (nat_of_ascii c))
    as (B1 & B2 & _ & B3 & _ & B4); [lia..|].
  destruct (sextet_value_sextet _ B1) as [-> _].
  destruct (sextet_value_sextet _ B2) as [-> _].
  destruct (sextet_value_sextet _ B3) as [-> _].
  destruct (sextet_value_sextet _ B4) as [-> ->].
  rewrite IH. decode_step.
  assert (nat_of_ascii b / 16 < 16) by (apply Nat.Div0.div_lt_upper_bound; lia).
  assert (nat_of_ascii c / 64 < 4) by (apply Nat.Div0.div_lt_upper_bound; lia).
  by rewrite first_byte, second_byte, third_byte, !ascii_nat_embedding by lia.
Qed.

(** Decoding undoes [b64encode]. *)
Lemma b64decode_b64encode bs : b64decode (b64encode bs) = Some bs.
Proof.
  assert (forall n bs, length bs <= n -> b64decode (b64encode bs) = Some bs) as H.
  { induction n as [|n IH]; intros [|a [|b [|c rest]]] Hn; simpl in Hn;
      try done; try lia.
    - apply b64decode_one.
    - apply b64decode_two.
    - apply b64decode_three, IH. lia. }
  by apply (H (length bs)).
Qed.

Lemma list_ascii_of_string_app (s t : string) :
  list_ascii_of_string (s ++ t) = list_ascii_of_string s ++ list_ascii_of_string t.
Proof. induction s as [|a s IH]; [done|]. simpl. by rewrite IH. Qed.

Lemma after_prefix_app (p s : string) : after_prefix p (p ++ s) = Some s.
Proof.
  induction p as [|a p IH]; [by destruct s|]. simpl. by rewrite Ascii.eqb_refl.
Qed.

Lemma split_colon_first u : forall t,
  ~ In ":"%char u -> split_colon (u ++ ":"%char :: t) = Some (u, t).
Proof.
  induction u as [|a u IH]; intros t Hu; simpl.
  - done.
  - destruct (Ascii.eqb_spec a ":") as [->|Hne]; [exfalso; apply Hu; by left|].
    rewrite IH; [done|]. intros Hin. apply Hu. by right.
Qed.

Lemma split_colon_no_colon cs : forall u t,
  split_colon cs = Some (u, t) -> ~ In ":"%char u.
Proof.
  induction cs as [|a cs IH]; intros u t; simpl; [done|].
  destruct (Ascii.eqb_spec a ":") as [->|Hne].
  - intros [= <- <-]. by intros [].
  - destruct (split_colon cs) as [[u' t']|]; [|done]. simpl.
    intros [= <- <-]. intros [Heq|Hin]; [by apply Hne|]. by apply (IH u' t').
Qed.

Lemma split_colon_some u t : exists u' t', split_colon (u ++ ":"%char :: t) = Some (u', t').
Proof.
  induction u as [|a u (u' & t' & IH)]; simpl; [by eexists _, _|].
  destruct (Ascii.eqb a ":"); [by eexists _, _|]. rewrite IH. by eexists _, _.
Qed.

(** X11. The value of the Authorization header is "Basic " followed by text
    that base64-decodes to the user name, a colon and the token. *)
Theorem authorization_decodes (username api_token : string) :
  exists b64,
    _create_authorization_header username api_token
    = [("Authorization"%string, ("Basic " ++ b64)%string)] /\
    b64decode (list_ascii_of_string b64)
    = Some (list_ascii_of_string (username ++ ":" ++ api_token)).
Proof.
  eexists. split; [reflexivity|].
  by rewrite list_ascii_of_string_of_list_ascii, b64decode_b64encode.
Qed.

(** X12. An instance always carries an Authorization header, and a reader
    that splits the decoded credentials at the first colon gets back the
    email and the token it was built with exactly when the email has no
    colon in it. *)
Theorem credentials_recovered (url email api_token : string) (ca : option string) :
  exists value,
    assoc "Authorization" (headers (__init__ url email api_token ca)) = Some value /\
    (basic_credentials value = Some (email, api_token)
     <-> ~ In ":"%char (list_ascii_of_string email)).
Proof.
  exists ("Basic " ++ string_of_list_ascii
                        (b64encode (list_ascii_of_string (email ++ ":" ++ api_token))))%string.
  split; [reflexivity|].
  unfold basic_credentials. rewrite after_prefix_app. unfold mbind, option_bind. cbv beta iota.
  rewrite list_ascii_of_string_of_list_ascii, b64decode_b64encode.
  rewrite !list_ascii_of_string_app. simpl (list_ascii_of_string ":").
  simpl ([_] ++ _). split.
  - destruct (split_colon _) as [[u t]|] eqn:Hs; [|done].
    intros [= Hu Ht]. apply split_colon_no_colon in Hs.
    by rewrite <- Hu, list_ascii_of_string_of_list_ascii.
  - intros Hno. rewrite split_colon_first by done. simpl.
    by rewrite !string_of_list_ascii_of_string.
Qed.

(** *** The base URL *)

Lemma rstrip_slashes s : exists n, s = (rstrip "/" s ++ slashes n)%string.
Proof.
  induction s as [|a s (n & IH)]; [by exists 0|]. simpl.
  destruct (rstrip "/" s) as [|b r] eqn:Hr.
  - change (s = slashes n) in IH.
    destruct (Ascii.eqb_spec a "/") as [->|Hne].
    + exists (S n). change (String "/" s = String "/" (slashes n)). by rewrite <- IH.
    + exists n. change (String a s = String a (slashes n)). by rewrite <- IH.
  - exists n. change (String a s = String a (String b r ++ slashes n)).
    by rewrite <- IH.
Qed.

Lemma rstrip_no_trailing c s : forall t, rstrip c s <> (t ++ String c EmptyString)%string.
Proof.
  induction s as [|a s IH]; intros t; simpl.
  - by destruct t.
  - destruct (rstrip c s) as [|b r] eqn:Hr.
    + destruct (Ascii.eqb_spec a c) as [->|Hne].
      * by destruct t.
      * destruct t as [|a' [|? ?]]; simpl; try done. by intros [= ->].
    + destruct t as [|a' t]; simpl.
      * done.
      * intros [= -> H]. by apply (IH t).
Qed.

Lemma rstrip_app c s : rstrip c (s ++ String c EmptyString) = rstrip c s.
Proof.
  induction s as [|a s IH]; simpl.
  - by rewrite Ascii.eqb_refl.
  - by rewrite IH.
Qed.

(** X13. The base URL of an instance is the URL it was given without its
    trailing slashes: only slashes were removed, none is left at the end,
    and one more slash at the end of the argument makes no difference. *)
Theorem base_url_stripped (url email api_token : string) (ca : option string) :
  let self := __init__ url email api_token ca in
  (exists n, url = (base_url self ++ slashes n)%string) /\
  (forall t, base_url self <> (t ++ "/")%string) /\
  base_url (__init__ (url ++ "/") email api_token ca) = base_url self.
Proof.
  simpl. split; [|split].
  - apply rstrip_slashes.
  - apply rstrip_no_trailing.
  - apply rstrip_app.
Qed.

Lemma requests_sent_witness :
  let req := nth_request ClientExamples.jira "project = X" (Some ["status"%string]) 1 in
  url req = "https://jira.example.org/rest/api/2/search"%string /\
  int_param "startAt" req = Some 100%Z /\
  assoc "fields" (params req) = Some (PList ["status"%string]).
Proof.
  intros req.
  assert (get_issues_by_filter (paged 100 ClientExamples.matches) 5 ClientExamples.jira
            "project = X" (Some ["status"%string])
          = (nth_request ClientExamples.jira "project = X" (Some ["status"%string])
               <$> seq 0 2,
             Returned ClientExamples.matches)) as Hrun by (vm_compute; reflexivity).
  assert ((nth_request ClientExamples.jira "project = X" (Some ["status"%string])
             <$> seq 0 2) !! 1 = Some req) as Hreq by reflexivity.
  destruct (requests_sent _ _ _ _ _ _ _ 1 req Hrun Hreq)
    as (Hu & _ & Hs & _ & _ & Hf & _).
  split; [exact Hu|]. split; [exact Hs|exact Hf].
Defined.

Lemma returned_issues_witness :
  let log := nth_request ClientExamples.jira "project = X" None <$> seq 0 2 in
  ClientExamples.matches
  = concat (received_from (paged 100 ClientExamples.matches) [] log).
Proof.
  intros log.
  assert (get_issues_by_filter (paged 100 ClientExamples.matches) 5 ClientExamples.jira
            "project = X" None
          = (log, Returned ClientExamples.matches)) as Hrun by (vm_compute; reflexivity).
  exact (proj1 (returned_issues _ _ _ _ _ _ _ Hrun)).
Defined.

Lemma raised_failure_witness :
  exists pre req,
    [nth_request ClientExamples.jira "project = X" None 0] = pre ++ [req] /\
    match ClientExamples.down pre req with
    | inl f' => f' = RequestException "Connection refused"
    | inr r => absorb_reply (concat (received_from ClientExamples.down [] pre)) r
               = inl (RequestException "Connection refused")
    end.
Proof.
  apply (raised_failure ClientExamples.down ClientExamples.jira "project = X" None 5).
  reflexivity.
Defined.

Lemma fetches_all_witness :
  get_issues_by_filter (paged 100 ClientExamples.matches) 5 ClientExamples.jira
    "project = X" None
  = (nth_request ClientExamples.jira "project = X" None
       <$> seq 0 (rounds_for (length ClientExamples.matches)),
     Returned ClientExamples.matches).
Proof. apply fetches_all; [lia | vm_compute; lia]. Defined.

Lemma ends_within_witness :
  exists log out,
    get_issues_by_filter ClientExamples.drip 3 ClientExamples.jira "project = X" None
    = (log, out) /\
    out <> Unfinished.
Proof.
  apply (ends_within ClientExamples.drip ClientExamples.jira "project = X" None 3 3);
    [|vm_compute; lia].
  intros log req r total [= <-] [= <-]. split; [discriminate|lia].
Defined.

Lemma capped_never_returns_witness :
  exists log,
    get_issues_by_filter (paged 50 ClientExamples.matches) 7 ClientExamples.jira
      "project = X" None
    = (log, Unfinished) /\
    length log = 7.
Proof. apply capped_never_returns; [lia | vm_compute; lia]. Defined.

End ClientFacts.

(** ** The order of the keys *)

Module OrderedFacts.
Import OrderedSpec.

Lemma for_each_sim {A So Sg} (abs : So -> Sg) (body_o : A -> So -> res So)
    (body_g : A -> Sg -> res Sg) xs :
  (forall x st, body_g x (abs st) = rmap abs (body_o x st)) ->
  forall st, for_each body_g xs (abs st) = rmap abs (for_each body_o xs st).
Proof.
  intros Hb. induction xs as [|x xs IH]; intros st; simpl; [done|].
  rewrite Hb. destruct (body_o x st) as [e|st']; simpl; [done|]. apply IH.
Qed.

Lemma for_each_inv {A S} (R : S -> S -> Prop) (body : A -> S -> res S) xs :
  (forall st, R st st) -> (forall a b c, R a b -> R b c -> R a c) ->
  (forall x st st', body x st = inr st' -> R st st') ->
  forall st st', for_each body xs st = inr st' -> R st st'.
Proof.
  intros Hrefl Htrans Hb. induction xs as [|x xs IH]; intros st st'; simpl.
  - intros [= <-]. apply Hrefl.
  - destruct (body x st) as [e|st1] eqn:H1; simpl; [done|].
    intros H. eapply Htrans; [by eapply Hb|by apply IH].
Qed.

Lemma get_to_map k d : Ordered.get k d = to_map d !! k.
Proof.
  induction d as [|[k' v] d IH]; simpl; [by rewrite lookup_empty|].
  destruct (String.eqb_spec k' k) as [->|Hne].
  - by rewrite lookup_insert_eq.
  - by rewrite lookup_insert_ne.
Qed.

Lemma set_to_map k v d : to_map (Ordered.set k v d) = <[k := v]> (to_map d).
Proof.
  induction d as [|[k' v'] d IH]; simpl; [done|].
  destruct (String.eqb_spec k' k) as [->|Hne]; simpl.
  - by rewrite insert_insert_eq.
  - by rewrite IH, insert_insert_ne.
Qed.

Lemma get_None k d : Ordered.get k d = None <-> k ∉ d.*1.
Proof.
  induction d as [|[k' v] d IH]; simpl.
  - split; [intros _; apply not_elem_of_nil|done].
  - rewrite not_elem_of_cons. destruct (String.eqb_spec k' k) as [->|Hne].
    + split; [done|]. by intros [? _].
    + rewrite IH. split; [by split|by intros [_ ?]].
Qed.

Lemma keys_set_present k v d : k ∈ d.*1 -> (Ordered.set k v d).*1 = d.*1.
Proof.
  induction d as [|[k' v'] d IH]; simpl; [by intros ?%elem_of_nil|].
  destruct (String.eqb_spec k' k) as [->|Hne]; [done|].
  intros [?|Hin]%elem_of_cons; [congruence|]. rewrite !fmap_cons. f_equal.
  by apply IH.
Qed.

Lemma keys_set_absent k v d : k ∉ d.*1 -> (Ordered.set k v d).*1 = d.*1 ++ [k].
Proof.
  induction d as [|[k' v'] d IH]; simpl; [done|].
  rewrite not_elem_of_cons. intros [Hne Hin].
  destruct (String.eqb_spec k' k) as [->|_]; [done|]. rewrite !fmap_cons.
  simpl. f_equal. by apply IH.
Qed.

Lemma get_Some_key k d l : Ordered.get k d = Some l -> k ∈ d.*1.
Proof.
  intros H. destruct (decide (k ∈ d.*1)) as [|Hn]; [done|].
  apply get_None in Hn. congruence.
Qed.

Section Simulation.

Variable strptime : string -> option datetime.

Lemma append_event_sim k ev d :
  append_event k ev (to_map d) = rmap list_to_map (Ordered.append_event k ev d).
Proof.
  unfold append_event, Ordered.append_event. rewrite <- get_to_map.
  destruct (Ordered.get k d) as [l|]; simpl; [|done].
  unfold ret. by rewrite set_to_map.
Qed.

Lemma append_event_keys k ev d d' :
  Ordered.append_event k ev d = inr d' -> d'.*1 = d.*1.
Proof.
  unfold Ordered.append_event. destruct (Ordered.get k d) as [l|] eqn:Hg; [|done].
  intros [= <-]. apply keys_set_present. by eapply get_Some_key.
Qed.

Lemma items_body_sim k change it st :
  items_body strptime k change it (view st)
  = rmap view (Ordered.items_body strptime k change it st).
Proof.
  destruct st as [n d]. unfold items_body, Ordered.items_body, view. simpl.
  destruct (String.eqb (field it) "status"); [|done].
  destruct (displayName _) as [|a]; [done|]. simpl.
  destruct (parse_timestamp _ _) as [|t]; [done|]. simpl.
  rewrite append_event_sim. by destruct (Ordered.append_event _ _ _).
Qed.

Lemma items_body_keys k change it st st' :
  Ordered.items_body strptime k change it st = inr st' -> st'.2.*1 = st.2.*1.
Proof.
  destruct st as [n d]. unfold Ordered.items_body.
  destruct (String.eqb (field it) "status"); [|by intros [= <-]].
  destruct (displayName _) as [|a]; [done|]. simpl.
  destruct (parse_timestamp _ _) as [|t]; [done|]. simpl.
  destruct (Ordered.append_event _ _ _) as [|d'] eqn:Ha; [done|]. simpl.
  intros [= <-]. simpl. by eapply append_event_keys.
Qed.

Lemma histories_body_sim k change st :
  histories_body strptime k change (view st)
  = rmap view (Ordered.histories_body strptime k change st).
Proof. apply for_each_sim. intros. apply items_body_sim. Qed.

Lemma histories_body_keys k change st st' :
  Ordered.histories_body strptime k change st = inr st' -> st'.2.*1 = st.2.*1.
Proof.
  apply (for_each_inv (fun a b => b.2.*1 = a.2.*1)); [done|congruence|].
  intros. by eapply items_body_keys.
Qed.

Lemma backfill_key_sim k d :
  backfill_key k (to_map d) = rmap list_to_map (Ordered.backfill_key k d).
Proof.
  unfold backfill_key, Ordered.backfill_key. rewrite <- get_to_map.
  destruct (Ordered.get k d) as [l|]; simpl; [|done].
  unfold ret. by rewrite set_to_map.
Qed.

Lemma backfill_key_keys k d d' :
  Ordered.backfill_key k d = inr d' -> d'.*1 = d.*1.
Proof.
  unfold Ordered.backfill_key. destruct (Ordered.get k d) as [l|] eqn:Hg; [|done].
  intros [= <-]. apply keys_set_present. by eapply get_Some_key.
Qed.

Lemma issue_body_sim first_step issue d :
  issue_body strptime first_step issue (to_map d)
  = rmap list_to_map (Ordered.issue_body strptime first_step issue d).
Proof.
  unfold issue_body, Ordered.issue_body. rewrite <- get_to_map.
  set (d1 := match Ordered.get (key issue) d with
             | Some _ => d
             | None => Ordered.set (key issue) [] d
             end).
  replace (match Ordered.get (key issue) d with
           | Some _ => to_map d
           | None => <[key issue := []]> (to_map d)
           end) with (to_map d1)
    by (unfold d1; destruct (Ordered.get _ d); [done|apply set_to_map]).
  destruct (displayName _) as [|a]; [done|]. simpl.
  destruct (parse_timestamp _ _) as [|t]; [done|]. simpl.
  rewrite append_event_sim.
  destruct (Ordered.append_event _ _ d1) as [|d2]; [done|]. simpl.
  change (1, to_map d2) with (view (1, d2)).
  rewrite (for_each_sim view (Ordered.histories_body strptime (key issue))
             (histories_body strptime (key issue)))
    by (intros; apply histories_body_sim).
  destruct (for_each _ _ (1, d2)) as [|[n d3]]; [done|]. simpl.
  apply backfill_key_sim.
Qed.

Lemma issue_body_keys first_step issue d d' :
  Ordered.issue_body strptime first_step issue d = inr d' ->
  d'.*1 = seen_step d.*1 (key issue).
Proof.
  unfold Ordered.issue_body.
  set (d1 := match Ordered.get (key issue) d with
             | Some _ => d
             | None => Ordered.set (key issue) [] d
             end).
  assert (d1.*1 = seen_step d.*1 (key issue)) as <-.
  { unfold d1, seen_step. destruct (Ordered.get _ d) as [l|] eqn:Hg.
    - rewrite decide_True; [done|]. by eapply get_Some_key.
    - apply get_None in Hg. rewrite decide_False by done.
      by apply keys_set_absent. }
  destruct (displayName _) as [|a]; [done|]. simpl.
  destruct (parse_timestamp _ _) as [|t]; [done|]. simpl.
  destruct (Ordered.append_event _ _ d1) as [|d2] eqn:H2; [done|]. simpl.
  destruct (for_each _ _ (1, d2)) as [|[n d3]] eqn:H3; [done|]. simpl.
  intros H4%backfill_key_keys. rewrite H4.
  apply (for_each_inv (fun a b => b.2.*1 = a.2.*1)) in H3;
    [|done|congruence|intros; by eapply histories_body_keys].
  simpl in H3. rewrite H3. by eapply append_event_keys.
Qed.

(** Read as a mapping, the ordered result is the result. *)
Lemma get_transitions_sim issues first_step :
  get_transitions strptime issues first_step
  = rmap list_to_map (Ordered.get_transitions strptime issues first_step).
Proof.
  unfold get_transitions, Ordered.get_transitions.
  change (∅ : gmap string (list TransitionEvent)) with (to_map []).
  apply for_each_sim. intros. apply issue_body_sim.
Qed.

Lemma issues_loop_keys first_step issues : forall d d',
  for_each (Ordered.issue_body strptime first_step) issues d = inr d' ->
  d'.*1 = foldl seen_step d.*1 (key <$> issues).
Proof.
  induction issues as [|issue issues IH]; intros d d'; simpl.
  - by intros [= <-].
  - destruct (Ordered.issue_body _ _ issue d) as [|d1] eqn:H1; [done|]. simpl.
    intros H. rewrite (IH _ _ H). by rewrite (issue_body_keys _ _ _ _ H1).
Qed.

End Simulation.

Lemma filter_not_in_snoc (seen : list string) k (l : list string) :
  filter (fun x => x ∉ seen ++ [k]) l
  = filter (fun x => x ∉ seen) (filter (fun x => x <> k) l).
Proof.
  induction l as [|x l IH]; [done|].
  destruct (decide (x = k)) as [->|Hne].
  - rewrite (filter_cons_False (fun x => x <> k)) by (intros H; by apply H).
    rewrite filter_cons_False; [done|].
    intros H. apply H. rewrite elem_of_app. right. by apply list_elem_of_singleton.
  - rewrite (filter_cons_True (fun x => x <> k)) by done.
    destruct (decide (x ∈ seen)) as [Hin|Hin].
    + rewrite !filter_cons_False; [done| |].
      * intros H. by apply H.
      * intros H. apply H. rewrite elem_of_app. by left.
    + rewrite !filter_cons_True; [by rewrite IH|done|].
      rewrite elem_of_app. intros [?|?%list_elem_of_singleton]; done.
Qed.

Lemma filter_not_in_drop (seen : list string) k (l : list string) :
  k ∈ seen ->
  filter (fun x => x ∉ seen) (filter (fun x => x <> k) l)
  = filter (fun x => x ∉ seen) l.
Proof.
  intros Hk. induction l as [|x l IH]; [done|].
  destruct (decide (x = k)) as [->|Hne].
  - rewrite (filter_cons_False (fun x => x <> k)) by (intros H; by apply H).
    rewrite (filter_cons_False (fun x => x ∉ seen)) by (intros H; by apply H).
    done.
  - rewrite (filter_cons_True (fun x => x <> k)) by done.
    destruct (decide (x ∈ seen)) as [Hin|Hin].
    + rewrite !filter_cons_False by (intros H; by apply H). done.
    + rewrite !filter_cons_True by done. by rewrite IH.
Qed.

(** Adding keys as they come gives each key at its first occurrence. *)
Lemma foldl_seen_step ks : forall seen,
  foldl seen_step seen ks
  = seen ++ filter (fun x => x ∉ seen) (first_occurrences ks).
Proof.
  induction ks as [|k ks IH]; intros seen; simpl.
  - by rewrite filter_nil, app_nil_r.
  - rewrite IH. unfold seen_step. destruct (decide (k ∈ seen)) as [Hin|Hin].
    + rewrite filter_cons_False by (intros H; by apply H).
      by rewrite filter_not_in_drop.
    + rewrite filter_cons_True by done.
      by rewrite <- app_assoc, filter_not_in_snoc.
Qed.

Lemma first_occurrences_NoDup ks : NoDup (first_occurrences ks).
Proof.
  induction ks as [|k ks IH]; simpl; [constructor|].
  constructor; [|by apply NoDup_filter].
  intros [H _]%list_elem_of_filter. by apply H.
Qed.

Lemma items_of_map (d : list (string * list TransitionEvent)) :
  NoDup d.*1 -> d = items_in_order d.*1 (list_to_map d).
Proof.
  unfold items_in_order. induction d as [|[k v] d IH]; [done|].
  rewrite fmap_cons. intros [Hk Hd]%NoDup_cons. simpl.
  rewrite lookup_insert_eq. simpl. f_equal.
  rewrite (IH Hd) at 1. apply list_fmap_ext. intros i k' Hi. simpl.
  rewrite lookup_insert_ne; [done|].
  intros ->. apply Hk. by eapply list_elem_of_lookup_2.
Qed.

Lemma filter_not_in_nil (l : list string) : filter (fun x => x ∉ []) l = l.
Proof.
  induction l as [|x l IH]; [done|].
  rewrite filter_cons_True by apply not_elem_of_nil. by rewrite IH.
Qed.

Lemma ordered_of_map strptime issues first_step d :
  Ordered.get_transitions strptime issues first_step = inr d ->
  d = items_in_order (first_occurrences (key <$> issues)) (list_to_map d).
Proof.
  intros H. pose proof (issues_loop_keys _ _ _ _ _ H) as Hk.
  rewrite foldl_seen_step in Hk. simpl in Hk.
  rewrite filter_not_in_nil in Hk.
  rewrite <- Hk. apply items_of_map. rewrite Hk. apply first_occurrences_NoDup.
Qed.

(** X14. With the order of its keys, the returned dictionary is the
    returned mapping read at the keys of the input, each taken once, at its
    first occurrence; and the call raises in that reading exactly when, and
    what, it raises in the other. *)
Theorem ordered_result strptime issues first_step :
  Ordered.get_transitions strptime issues first_step
  = rmap (items_in_order (first_occurrences (key <$> issues)))
         (get_transitions strptime issues first_step).
Proof.
  rewrite get_transitions_sim.
  destruct (Ordered.get_transitions strptime issues first_step) as [e|d] eqn:H;
    simpl; [done|].
  f_equal. by eapply ordered_of_map.
Qed.

End OrderedFacts.

(** ** The script *)

Module ScriptFacts.
Import Client ClientSpec Script OrderedSpec.

Local Open Scope nat_scope.

Lemma rows_length d :
  length (rows d) = sum_list_with (fun item => length item.2) d.
Proof.
  unfold rows. induction d as [|[k l] d IH]; [done|].
  rewrite fmap_cons. cbn [concat sum_list_with]. rewrite length_app, IH.
  by rewrite length_fmap.
Qed.

Lemma rows_cells d : Forall (fun l => exists cells, l = Row cells /\ length cells = 8) (rows d).
Proof.
  unfold rows. induction d as [|[k l] d IH]; [constructor|].
  rewrite fmap_cons. cbn [concat]. apply Forall_app. split; [|done].
  apply Forall_fmap, Forall_forall. intros e _. by eexists.
Qed.

Lemma elem_of_first_occurrences k ks : k ∈ first_occurrences ks <-> k ∈ ks.
Proof.
  induction ks as [|k0 ks IH]; [done|]. simpl.
  rewrite !elem_of_cons, list_elem_of_filter, IH.
  destruct (decide (k = k0)) as [->|Hne].
  - split; intros _; by left.
  - split; [intros [?|[_ ?]]; [done|by right]|].
    intros [?|?]; [done|]. right. by split.
Qed.

Lemma sum_filter_ne (g : string -> nat) k0 (L : list string) :
  NoDup L ->
  sum_list_with g L
  = (if decide (k0 ∈ L) then g k0 else 0)
    + sum_list_with g (filter (fun k => k <> k0) L).
Proof.
  induction L as [|k L IH]; [done|]. intros [Hk HL]%NoDup_cons.
  cbn [sum_list_with]. rewrite (IH HL). destruct (decide (k = k0)) as [->|Hne].
  - rewrite filter_cons_False by (intros H; by apply H).
    destruct (decide (k0 ∈ k0 :: L)) as [_|Hn];
      [|exfalso; apply Hn, list_elem_of_here].
    destruct (decide (k0 ∈ L)); [done|lia].
  - rewrite filter_cons_True by done. cbn [sum_list_with].
    destruct (decide (k0 ∈ L)) as [Hin|Hin],
             (decide (k0 ∈ k :: L)) as [Hin'|Hin']; try lia.
    + exfalso. apply Hin'. by apply list_elem_of_further.
    + exfalso. apply elem_of_cons in Hin' as [?|?]; [by apply Hne|done].
Qed.

Lemma sum_list_with_ext_in {A} (f g : A -> nat) (l : list A) :
  (forall x, x ∈ l -> f x = g x) -> sum_list_with f l = sum_list_with g l.
Proof.
  induction l as [|x l IH]; [done|]. intros H. cbn [sum_list_with].
  rewrite (H x) by apply list_elem_of_here.
  rewrite IH; [done|]. intros y Hy. apply H. by apply list_elem_of_further.
Qed.

(** Summing over the keys what is filed under each counts every event once. *)
Lemma events_by_key (kevs : list (string * list TransitionEvent)) :
  sum_list_with (fun k => length (raw_events k kevs)) (first_occurrences kevs.*1)
  = sum_list_with (fun p => length p.2) kevs.
Proof.
  induction kevs as [|[k0 evs] kevs IH]; [done|].
  rewrite fmap_cons. cbn [first_occurrences sum_list_with fst snd].
  rewrite raw_events_cons_eq, length_app, <- IH.
  rewrite (sum_list_with_ext_in _ (fun k => length (raw_events k kevs))
             (filter _ _)).
  2:{ intros k [Hne _]%list_elem_of_filter. by rewrite raw_events_cons_ne. }
  rewrite (sum_filter_ne (fun k => length (raw_events k kevs)) k0
             (first_occurrences kevs.*1))
    by apply OrderedFacts.first_occurrences_NoDup.
  destruct (decide (k0 ∈ first_occurrences kevs.*1)) as [Hin|Hin]; [lia|].
  rewrite raw_events_absent; [simpl; lia|].
  by rewrite <- elem_of_first_occurrences.
Qed.

Lemma all_events_count strptime first_step issues : forall kevs,
  all_events strptime first_step issues = inr kevs ->
  sum_list_with (fun p => length p.2) kevs
  = sum_list_with (fun issue => S (status_changes issue)) issues.
Proof.
  induction issues as [|issue issues IH]; intros kevs; simpl.
  - by intros [= <-].
  - destruct (issue_events _ _ issue) as [|evs] eqn:He; [done|]. simpl.
    destruct (all_events _ _ issues) as [|rest] eqn:Hr; [done|]. simpl.
    intros [= <-]. cbn [sum_list_with snd]. rewrite (IH rest eq_refl).
    by rewrite (issue_events_length _ _ _ _ He).
Qed.

Lemma sum_list_with_fmap {A B} (f : B -> nat) (g : A -> B) (l : list A) :
  sum_list_with f (g <$> l) = sum_list_with (fun x => f (g x)) l.
Proof. induction l as [|x l IH]; [done|]. rewrite fmap_cons. simpl. by rewrite IH. Qed.

(** The rows of a result: one per record and one per status change. *)
Lemma rows_count strptime issues first_step d :
  Ordered.get_transitions strptime issues first_step = inr d ->
  length (rows d) = sum_list_with (fun issue => S (status_changes issue)) issues.
Proof.
  intros Hd. pose proof (OrderedFacts.get_transitions_sim strptime issues first_step) as Hs.
  rewrite Hd in Hs. simpl in Hs.
  destruct (get_transitions_lookup _ _ _ _ Hs) as (kevs & Hk & Hlook).
  rewrite rows_length, (OrderedFacts.ordered_of_map _ _ _ _ Hd).
  unfold items_in_order. rewrite sum_list_with_fmap. simpl.
  rewrite <- (all_events_count _ _ _ _ Hk), <- events_by_key.
  rewrite (all_events_keys _ _ _ _ Hk).
  apply sum_list_with_ext_in. intros k Hin.
  apply (proj1 (elem_of_first_occurrences _ _)) in Hin.
  rewrite Hlook, decide_True by done. simpl. by rewrite length_fmap.
Qed.

Section Reports.

Variable send : list request -> request -> failure + @response IssueRecord.
Variable strptime : string -> option datetime.
Variable args : arguments.
Variable password : string.

(** X15. When the search returns issues and [get_transitions] returns a
    mapping for them, the script writes the header row and then, key by key
    in the order the keys first occur among the issues, one row per event of
    the key's list in list order, and ends normally. *)
Theorem report_on_success fuel log issues results :
  get_issues_by_filter send fuel (connect args password) (jql args) None
  = (log, Returned issues) ->
  issues <> [] ->
  get_transitions strptime issues (first_step args) = inr results ->
  main send strptime fuel args password
  = (log,
     Row header
       :: rows (items_in_order (first_occurrences (key <$> issues)) results),
     Returned tt).
Proof.
  intros Hf Hne Hg. unfold main. rewrite Hf.
  destruct issues as [|issue issues']; [done|].
  pose proof (OrderedFacts.get_transitions_sim strptime (issue :: issues')
                (first_step args)) as Hs.
  rewrite Hg in Hs.
  destruct (Ordered.get_transitions _ _ _) as [e|d] eqn:Hd; [done|].
  simpl in Hs. injection Hs as ->.
  by rewrite <- (OrderedFacts.ordered_of_map _ _ _ _ Hd).
Qed.

(** X16. When one of the issues the search returns lacks what
    [get_transitions] needs of it, the script writes nothing, not even the
    header, and ends with the exception of that call. *)
Theorem malformed_issue_stops_report fuel log issues :
  get_issues_by_filter send fuel (connect args password) (jql args) None
  = (log, Returned issues) ->
  ~ Forall (well_formed_issue strptime) issues ->
  exists e, main send strptime fuel args password = (log, [], Raised (Other e)).
Proof.
  intros Hf Hbad. unfold main. rewrite Hf.
  destruct issues as [|issue issues']; [exfalso; apply Hbad; constructor|].
  pose proof (OrderedFacts.get_transitions_sim strptime (issue :: issues')
                (first_step args)) as Hs.
  destruct (Ordered.get_transitions _ _ _) as [e|d] eqn:Hd; [by exists e|].
  exfalso. apply Hbad. by eapply get_transitions_well_formed.
Qed.

(** X17. When the service reports no match, the script makes one request,
    writes the header row and ends with a [NameError]: [results] was never
    bound (lines 164-170). *)
Theorem no_matches (cap : nat) fuel :
  1 <= fuel ->
  main (paged cap []) strptime fuel args password
  = ([nth_request (connect args password) (jql args) None 0],
     [Row header], Raised (NameError "results")).
Proof.
  intros Hfuel. destruct fuel as [|fuel]; [lia|].
  unfold main, get_issues_by_filter. cbn [fetch_loop].
  rewrite ClientFacts.round_paged. by rewrite drop_nil, take_nil.
Qed.

(** X18. When the first request fails with a [RequestException], raised by
    the call or by the check of the reply's status, the script makes no
    other request, writes the one line that reports it, no row, and ends
    normally. *)
Theorem request_error_reported fuel msg :
  1 <= fuel ->
  match send [] (nth_request (connect args password) (jql args) None 0) with
  | inl f => f = RequestException msg
  | inr r => http_error r = Some msg
  end ->
  main send strptime fuel args password
  = ([nth_request (connect args password) (jql args) None 0],
     [Message ("Error making API request: " ++ msg)], Returned tt).
Proof.
  intros Hfuel Hsend. destruct fuel as [|fuel]; [lia|].
  unfold main, get_issues_by_filter. cbn [fetch_loop]. unfold round.
  change (search_request (connect args password) (jql args) None 0)
    with (nth_request (connect args password) (jql args) None 0).
  destruct (send [] _) as [f|r].
  - by rewrite Hsend.
  - unfold absorb_reply. by rewrite Hsend.
Qed.

(** X19. Against a service that holds the matching issues and answers each
    request with the slice asked for and the number of matches, if there is
    a match and every issue has what [get_transitions] needs, the script
    makes one request per hundred issues, writes the header row and one row
    per event, key by key in the order the keys first occur, and ends
    normally. *)
Theorem report_end_to_end (cap : nat) (db : list IssueRecord) fuel :
  100 <= cap -> db <> [] -> Forall (well_formed_issue strptime) db ->
  rounds_for (length db) <= fuel ->
  exists results,
    get_transitions strptime db (first_step args) = inr results /\
    main (paged cap db) strptime fuel args password
    = (nth_request (connect args password) (jql args) None
         <$> seq 0 (rounds_for (length db)),
       Row header :: rows (items_in_order (first_occurrences (key <$> db)) results),
       Returned tt).
Proof.
  intros Hcap Hne Hwf Hfuel.
  destruct (get_transitions_ok strptime db (first_step args) Hwf) as [results Hg].
  exists results. split; [done|].
  assert (get_issues_by_filter (paged cap db) fuel (connect args password)
            (jql args) None
          = (nth_request (connect args password) (jql args) None
               <$> seq 0 (rounds_for (length db)), Returned db)) as Hf.
  { unfold get_issues_by_filter.
    pose proof (Nat.div_mod_eq (length db + 99) 100) as Hdiv.
    pose proof (Nat.mod_upper_bound (length db + 99) 100) as Hmod.
    unfold rounds_for in *.
    apply (ClientFacts.fetch_loop_paged _ _ _ cap db Hcap _ 0 fuel []); lia. }
  unfold main. rewrite Hf. destruct db as [|issue db']; [done|].
  pose proof (OrderedFacts.get_transitions_sim strptime (issue :: db')
                (first_step args)) as Hs.
  rewrite Hg in Hs.
  destruct (Ordered.get_transitions _ _ _) as [e|d] eqn:Hd; [done|].
  simpl in Hs. injection Hs as ->.
  by rewrite <- (OrderedFacts.ordered_of_map _ _ _ _ Hd).
Qed.

(** X20. When the search returns and the script ends normally, it has
    written the header row and, for each issue returned, one row plus one
    row per status change of its changelog, and nothing else; every line is
    a row of eight cells. *)
Theorem report_size fuel log issues lines :
  get_issues_by_filter send fuel (connect args password) (jql args) None
  = (log, Returned issues) ->
  main send strptime fuel args password = (log, lines, Returned tt) ->
  length lines = S (sum_list_with (fun issue => S (status_changes issue)) issues) /\
  Forall (fun l => exists cells, l = Row cells /\ length cells = 8) lines.
Proof.
  intros Hf. unfold main. rewrite Hf.
  destruct issues as [|issue issues']; [done|].
  destruct (Ordered.get_transitions _ _ _) as [e|d] eqn:Hd; [done|].
  intros [= <-]. split.
  - cbn [length]. by rewrite (rows_count _ _ _ _ Hd).
  - constructor; [by eexists|apply rows_cells].
Qed.

End Reports.

Lemma report_on_success_witness :
  exists results,
    main (paged 100 ScriptExamples.found) RefParser.strptime 2 ScriptExamples.args
         "secret"
    = ([nth_request (connect ScriptExamples.args "secret") "project = X" None 0],
       Row header
         :: rows (items_in_order (first_occurrences (key <$> ScriptExamples.found))
                    results),
       Returned tt).
Proof.
  assert (get_issues_by_filter (paged 100 ScriptExamples.found) 2
            (connect ScriptExamples.args "secret") (jql ScriptExamples.args) None
          = ([nth_request (connect ScriptExamples.args "secret") "project = X" None 0],
             Returned ScriptExamples.found)) as Hf by (vm_compute; reflexivity).
  assert (ScriptExamples.found <> []) as Hne by discriminate.
  destruct (get_transitions RefParser.strptime ScriptExamples.found
              (first_step ScriptExamples.args)) as [e|results] eqn:Hg.
  - exfalso. vm_compute in Hg. discriminate Hg.
  - exists results.
    exact (report_on_success _ _ _ _ _ _ _ _ Hf Hne Hg).
Defined.

Lemma malformed_issue_stops_report_witness :
  exists e,
    main (paged 100 [Examples.issue_B; RaisingExamples.issue_bad])
         RefParser.strptime 2 ScriptExamples.args "secret"
    = ([nth_request (connect ScriptExamples.args "secret") "project = X" None 0],
       [], Raised (Other e)).
Proof.
  assert (get_issues_by_filter (paged 100 [Examples.issue_B; RaisingExamples.issue_bad])
            2 (connect ScriptExamples.args "secret") (jql ScriptExamples.args) None
          = ([nth_request (connect ScriptExamples.args "secret") "project = X" None 0],
             Returned [Examples.issue_B; RaisingExamples.issue_bad])) as Hf
    by (vm_compute; reflexivity).
  assert (~ Forall (well_formed_issue RefParser.strptime)
              [Examples.issue_B; RaisingExamples.issue_bad]) as Hbad.
  { intros H. apply Forall_cons in H as [_ H]. apply Forall_cons in H as [H _].
    destruct H as (_ & _ & H). apply Forall_cons in H as [H _].
    destruct H as [_ [t Ht]]; [discriminate|]. vm_compute in Ht. discriminate Ht. }
  exact (malformed_issue_stops_report _ _ _ _ _ _ _ Hf Hbad).
Defined.

Lemma no_matches_witness :
  main (paged 100 []) RefParser.strptime 3 ScriptExamples.args "secret"
  = ([nth_request (connect ScriptExamples.args "secret") "project = X" None 0],
     [Row header], Raised (NameError "results")).
Proof. apply (no_matches RefParser.strptime ScriptExamples.args "secret" 100 3). lia. Defined.

Lemma request_error_reported_witness :
  main ScriptExamples.forbidden RefParser.strptime 3 ScriptExamples.args "secret"
  = ([nth_request (connect ScriptExamples.args "secret") "project = X" None 0],
     [Message "Error making API request: 403 Client Error: Forbidden"],
     Returned tt).
Proof.
  apply (request_error_reported ScriptExamples.forbidden RefParser.strptime
           ScriptExamples.args "secret" 3 "403 Client Error: Forbidden");
    [lia|reflexivity].
Defined.

Lemma report_end_to_end_witness :
  exists results,
    get_transitions RefParser.strptime ScriptExamples.found "Open" = inr results /\
    main (paged 100 ScriptExamples.found) RefParser.strptime 2 ScriptExamples.args
         "secret"
    = (nth_request (connect ScriptExamples.args "secret") "project = X" None
         <$> seq 0 (rounds_for (length ScriptExamples.found)),
       Row header
         :: rows (items_in_order (first_occurrences (key <$> ScriptExamples.found))
                    results),
       Returned tt).
Proof.
  apply (report_end_to_end RefParser.strptime ScriptExamples.args "secret" 100
           ScriptExamples.found 2); [lia|discriminate| |vm_compute; lia].
  repeat constructor; try (by eexists); try (eexists; vm_compute; reflexivity);
    intros _; split; try (by eexists); eexists; vm_compute; reflexivity.
Defined.

Lemma report_size_witness :
  exists lines,
    main (paged 100 ScriptExamples.found) RefParser.strptime 2 ScriptExamples.args
         "secret"
    = ([nth_request (connect ScriptExamples.args "secret") "project = X" None 0],
       lines, Returned tt) /\
    length lines = 8.
Proof.
  assert (get_issues_by_filter (paged 100 ScriptExamples.found) 2
            (connect ScriptExamples.args "secret") (jql ScriptExamples.args) None
          = ([nth_request (connect ScriptExamples.args "secret") "project = X" None 0],
             Returned ScriptExamples.found)) as Hf by (vm_compute; reflexivity).
  destruct (main (paged 100 ScriptExamples.found) RefParser.strptime 2
              ScriptExamples.args "secret") as [[log lines] out] eqn:Hm.
  assert (log = [nth_request (connect ScriptExamples.args "secret") "project = X" None 0]
          /\ out = Returned tt) as [-> ->].
  { vm_compute in Hm. injection Hm as <- _ <-. split; reflexivity. }
  exists lines. split; [reflexivity|].
  exact (proj1 (report_size _ _ _ _ _ _ _ _ Hf Hm)).
Defined.

End ScriptFacts.
